(** * Wallet transfer coordinator: a shallow embedding of [WalletService]

    The development follows [wallet.service.ts] method by method.  The
    relational store, the key-value cache and the clock are explicit
    components of a [World]; every method of the service is a computation in
    a state-and-exception monad over that world.  JavaScript numbers
    ([parseFloat]) are modelled as IEEE-754 binary64 values given by the
    rational they denote, and [decimal.js] values as a coefficient and a
    scale. *)

From Stdlib Require Import ZArith QArith Qround Qpower Lia Lqa Bool Ascii String List.
From stdpp Require Import base option list gmap strings.
From Stdlib Require Import Sorted.
Import ListNotations.

#[local] Open Scope string_scope.
#[local] Open Scope Z_scope.

(** ** Decimal literals

    [parseFloat] and the [Decimal] constructor read the same numerals
    ([StrDecimalLiteral] of ECMA-262): digits, an optional fraction and an
    optional exponent.  [scan_unsigned] returns the coefficient, the power of
    ten and the unread rest of the string.  A string is the sequence of
    bytes of its UTF-8 encoding.  The radix prefixes and digit separators
    that [decimal.js] also accepts are not modelled (such strings count as
    malformed). *)
Module Numeral.

Definition is_digit (a : ascii) : bool :=
  let n := Z.of_nat (nat_of_ascii a) in (48 <=? n) && (n <=? 57).

Definition digit_val (a : ascii) : Z := Z.of_nat (nat_of_ascii a) - 48.

Fixpoint span_digits (s : string) : list ascii * string :=
  match s with
  | String a r =>
      if is_digit a then let (ds, rest) := span_digits r in (a :: ds, rest)
      else ([], s)
  | EmptyString => ([], s)
  end.

Definition digits_value (ds : list ascii) : Z :=
  fold_left (fun acc d => 10 * acc + digit_val d) ds 0.

Definition is_e (a : ascii) : bool :=
  let n := nat_of_ascii a in Nat.eqb n 101 || Nat.eqb n 69.

(** The sign characters are ['+'] (43) and ['-'] (45). *)
Definition scan_sign (s : string) : bool * string :=
  match s with
  | String a r =>
      if Nat.eqb (nat_of_ascii a) 45 then (true, r)
      else if Nat.eqb (nat_of_ascii a) 43 then (false, r)
      else (false, s)
  | EmptyString => (false, s)
  end.

(** An exponent part is read only when it is complete; otherwise nothing of it
    is consumed. *)
Definition scan_exponent (s : string) : Z * string :=
  match s with
  | String a r =>
      if is_e a then
        let (neg, r1) := scan_sign r in
        let (ds, r2) := span_digits r1 in
        match ds with
        | [] => (0, s)
        | _ => ((if neg then - digits_value ds else digits_value ds), r2)
        end
      else (0, s)
  | EmptyString => (0, s)
  end.

Definition scan_unsigned (s : string) : option (Z * Z * string) :=
  let (ip, r1) := span_digits s in
  let '(fp, r2) :=
    match r1 with
    | String "." r => span_digits r
    | _ => ([], r1)
    end in
  let r2' := match ip, fp with
             | [], [] => r1
             | _, _ => r2
             end in
  match ip, fp with
  | [], [] => None
  | _, _ =>
      let (ex, r3) := scan_exponent r2' in
      Some (digits_value (ip ++ fp), ex - Z.of_nat (length fp), r3)
  end.

(** The white space of one byte: space, and tab to carriage return. *)
Definition is_ws (a : ascii) : bool :=
  let n := nat_of_ascii a in
  Nat.eqb n 32 || (Nat.leb 9 n && Nat.leb n 13).

(** The white space of two and three bytes: U+00A0; U+1680, U+2000 to
    U+200A, U+2028, U+2029, U+202F, U+205F, U+3000 and U+FEFF. *)
Definition is_ws2 (a b : ascii) : bool :=
  Nat.eqb (nat_of_ascii a) 194 && Nat.eqb (nat_of_ascii b) 160.

Definition is_ws3 (a b c : ascii) : bool :=
  let x := nat_of_ascii a in
  let y := nat_of_ascii b in
  let z := nat_of_ascii c in
  (Nat.eqb x 225 && Nat.eqb y 154 && Nat.eqb z 128)
  || (Nat.eqb x 226 && Nat.eqb y 128
      && ((Nat.leb 128 z && Nat.leb z 138)
          || Nat.eqb z 168 || Nat.eqb z 169 || Nat.eqb z 175))
  || (Nat.eqb x 226 && Nat.eqb y 129 && Nat.eqb z 159)
  || (Nat.eqb x 227 && Nat.eqb y 128 && Nat.eqb z 128)
  || (Nat.eqb x 239 && Nat.eqb y 187 && Nat.eqb z 191).

(** [StrWhiteSpaceChar]*: the white space and the line terminators of
    ECMA-262, in the UTF-8 encoding of the string. *)
Fixpoint skip_ws (s : string) : string :=
  match s with
  | String a r =>
      if is_ws a then skip_ws r
      else match r with
           | String b r2 =>
               if is_ws2 a b then skip_ws r2
               else match r2 with
                    | String c r3 => if is_ws3 a b c then skip_ws r3 else s
                    | EmptyString => s
                    end
           | EmptyString => s
           end
  | EmptyString => s
  end.

End Numeral.

(** ** JavaScript numbers

    A JavaScript number is an IEEE-754 binary64 value.  A finite one is
    represented by the rational it denotes; [of_Q] rounds an exact rational to
    the nearest binary64 value, ties to even, with gradual underflow below
    [2^-1022] and overflow to infinity from [2^1024]. *)
Module Binary64.

#[local] Open Scope Q_scope.

Inductive number : Type :=
| NaN : number
| Inf (neg : bool) : number
| Fin (q : Q) : number.

Definition pow2 (e : Z) : Q := Qpower 2 e.

(** [ilog2 x] is the integer [e] with [2^e <= x < 2^(e+1)], for [0 < x]. *)
Definition ilog2 (x : Q) : Z :=
  let e0 := (Z.log2 (Qnum x) - Z.log2 (Zpos (Qden x)))%Z in
  if Qle_bool (pow2 e0) x then e0 else (e0 - 1)%Z.

(** Round to the nearest integer, ties to even. *)
Definition rne (t : Q) : Z :=
  let f := Qfloor t in
  match Qcompare (t - inject_Z f) (1 # 2) with
  | Lt => f
  | Gt => (f + 1)%Z
  | Eq => if Z.even f then f else (f + 1)%Z
  end.

(** The exponent of the unit in the last place of [x]: 53 significant bits,
    and never below [2^-1074]. *)
Definition ulp_exp (x : Q) : Z := (Z.max (ilog2 x) (-1022) - 52)%Z.

Definition round_pos (x : Q) : Q :=
  let q := ulp_exp x in inject_Z (rne (x / pow2 q)) * pow2 q.

Definition of_Q (x : Q) : number :=
  match Qcompare x 0 with
  | Eq => Fin 0
  | Gt => let r := round_pos x in
          if Qle_bool (pow2 1024) r then Inf false else Fin (Qred r)
  | Lt => let r := round_pos (- x) in
          if Qle_bool (pow2 1024) r then Inf true else Fin (Qred (- r))
  end.

(** The relational operators of JavaScript: every comparison with [NaN] is
    false. *)
Definition leb (a b : number) : bool :=
  match a, b with
  | NaN, _ | _, NaN => false
  | Inf true, _ => true
  | Inf false, Inf false => true
  | Inf false, _ => false
  | Fin _, Inf neg => negb neg
  | Fin x, Fin y => Qle_bool x y
  end.

Definition ltb (a b : number) : bool :=
  match a, b with
  | NaN, _ | _, NaN => false
  | Inf true, Inf true => false
  | Inf true, _ => true
  | Inf false, _ => false
  | Fin _, Inf neg => negb neg
  | Fin x, Fin y => negb (Qle_bool y x)
  end.

Definition geb (a b : number) : bool := leb b a.
Definition gtb (a b : number) : bool := ltb b a.

Definition of_Z (z : Z) : number := of_Q (inject_Z z).

End Binary64.

(** ** [parseFloat]

    Leading white space is skipped, then the longest prefix that is a decimal
    literal is read; anything after it is ignored, and a string with no such
    prefix gives [NaN]. *)
Definition is_Infinity (s : string) : bool :=
  String.prefix "Infinity" s.

Definition parseFloat (s : string) : Binary64.number :=
  let (neg, u) := Numeral.scan_sign (Numeral.skip_ws s) in
  if is_Infinity u then Binary64.Inf neg
  else match Numeral.scan_unsigned u with
       | None => Binary64.NaN
       | Some (c, e, _) =>
           let v := (inject_Z c * Qpower 10 e)%Q in
           Binary64.of_Q (if neg then Qopp v else v)
       end.

(** ** [decimal.js]

    A finite [Decimal] is a coefficient and a scale: [Fin c s] denotes
    [c * 10^(-s)].  Arithmetic results are rounded to [precision] significant
    digits and [toFixed] to the requested number of decimal places, both with
    the rounding mode of the (process-wide) configuration. *)
Module Decimal.

Inductive rounding : Type := ROUND_HALF_UP | ROUND_HALF_EVEN.

Inductive t : Type :=
| NaN : t
| Inf (neg : bool) : t
| Fin (coef : Z) (scale : Z) : t.

Definition precision : Z := 20.

(** [new Decimal(s)]: the whole string must be a numeral; [None] stands for
    the [DecimalError] the constructor throws. *)
Definition new (s : string) : option t :=
  let (neg, u) := Numeral.scan_sign s in
  if String.eqb u "Infinity" then Some (Inf neg)
  else if String.eqb s "NaN" then Some NaN
  else match Numeral.scan_unsigned u with
       | Some (c, e, EmptyString) => Some (Fin (if neg then - c else c) (- e))
       | _ => None
       end.

(** [round_div rm c d] is [c / d] rounded to the nearest integer, for
    [0 < d]; a tie goes away from zero or to the even neighbour. *)
Definition round_div (rm : rounding) (c d : Z) : Z :=
  let a := Z.abs c in
  let q := a / d in
  let r := a mod d in
  let up := match Z.compare (2 * r) d with
            | Lt => false
            | Gt => true
            | Eq => match rm with
                    | ROUND_HALF_UP => true
                    | ROUND_HALF_EVEN => Z.odd q
                    end
            end in
  Z.sgn c * (if up then q + 1 else q).

Fixpoint count_digits (fuel : nat) (n : Z) : Z :=
  match fuel with
  | O => 1
  | S f => if n <? 10 then 1 else 1 + count_digits f (n / 10)
  end.

(** Number of decimal digits of [|c|] (1 for zero). *)
Definition num_digits (c : Z) : Z :=
  count_digits (Z.to_nat (Z.log2 (Z.abs c))) (Z.abs c).

(** [finalise]: round a result to [precision] significant digits. *)
Definition finalise (rm : rounding) (x : t) : t :=
  match x with
  | Fin c s =>
      let n := num_digits c in
      if n <=? precision then x
      else let k := n - precision in Fin (round_div rm c (10 ^ k)) (s - k)
  | _ => x
  end.

Definition align (c1 s1 c2 s2 : Z) : Z * Z * Z :=
  let s := Z.max s1 s2 in (c1 * 10 ^ (s - s1), c2 * 10 ^ (s - s2), s).

Definition plus (rm : rounding) (x y : t) : t :=
  match x, y with
  | NaN, _ | _, NaN => NaN
  | Inf a, Inf b => if Bool.eqb a b then Inf a else NaN
  | Inf a, Fin _ _ => Inf a
  | Fin _ _, Inf b => Inf b
  | Fin c1 s1, Fin c2 s2 =>
      let '(a, b, s) := align c1 s1 c2 s2 in finalise rm (Fin (a + b) s)
  end.

Definition minus (rm : rounding) (x y : t) : t :=
  match x, y with
  | NaN, _ | _, NaN => NaN
  | Inf a, Inf b => if Bool.eqb a b then NaN else Inf a
  | Inf a, Fin _ _ => Inf a
  | Fin _ _, Inf b => Inf (negb b)
  | Fin c1 s1, Fin c2 s2 =>
      let '(a, b, s) := align c1 s1 c2 s2 in finalise rm (Fin (a - b) s)
  end.

Definition digit_char (d : Z) : ascii := ascii_of_nat (48 + Z.to_nat d).

Fixpoint print_digits (fuel : nat) (n : Z) (acc : string) : string :=
  match fuel with
  | O => String (digit_char (n mod 10)) acc
  | S f =>
      let acc' := String (digit_char (n mod 10)) acc in
      if n <? 10 then acc' else print_digits f (n / 10) acc'
  end.

(** Decimal representation of a natural number. *)
Definition print_Z (n : Z) : string :=
  print_digits (Z.to_nat (Z.log2 n)) n EmptyString.

(** The last [dp] digits of [n], zero padded. *)
Fixpoint print_frac (dp : nat) (n : Z) (acc : string) : string :=
  match dp with
  | O => acc
  | S d => print_frac d (n / 10) (String (digit_char (n mod 10)) acc)
  end.

(** [print_fixed dp neg c]: the number [c * 10^(-dp)], [0 <= c], with exactly
    [dp] decimals. *)
Definition print_fixed (dp : nat) (neg : bool) (c : Z) : string :=
  let p := 10 ^ Z.of_nat dp in
  let body := match dp with
              | O => print_Z c
              | _ => print_Z (c / p) ++ "." ++ print_frac dp (c mod p) EmptyString
              end in
  if neg then "-" ++ body else body.

(** [x.toFixed(dp)]: a negative value keeps its sign even when it rounds to
    zero. *)
Definition toFixed (rm : rounding) (dp : nat) (x : t) : string :=
  match x with
  | NaN => "NaN"
  | Inf neg => if neg then "-Infinity" else "Infinity"
  | Fin c s =>
      let d := Z.of_nat dp in
      let c' := if s <=? d then c * 10 ^ (d - s) else round_div rm c (10 ^ (s - d)) in
      print_fixed dp (c <? 0) (Z.abs c')
  end.

End Decimal.

(** ** Entities *)

Inductive WalletType : Type := POOL | USER | MERCHANT.

Inductive WalletStatus : Type := ACTIVE | SUSPENDED | CLOSED.

Inductive TransactionStatus : Type :=
  PENDING | PROCESSING | COMPLETED | FAILED | ROLLED_BACK.

Inductive TransactionType : Type := TRANSFER | DEPOSIT | WITHDRAWAL | REFUND.

Inductive LedgerEntryType : Type := DEBIT | CREDIT.

#[global] Instance WalletStatus_eq_dec : EqDecision WalletStatus.
Proof. solve_decision. Defined.
#[global] Instance TransactionStatus_eq_dec : EqDecision TransactionStatus.
Proof. solve_decision. Defined.
#[global] Instance LedgerEntryType_eq_dec : EqDecision LedgerEntryType.
Proof. solve_decision. Defined.

(** Rows of [wallets].  Balances are the strings the [DECIMAL(20, 2)] column
    returns. *)
Record Wallet : Type := mkWallet {
  w_id : string;
  w_ownerId : string;
  w_type : WalletType;
  w_balance : string;
  w_currency : string;
  w_status : WalletStatus;
  w_version : Z
}.

(** Primary keys of [transaction_logs] are UUIDs drawn at insertion; they are
    modelled by the value of a counter. *)
Definition uuid : Type := nat.

Record TransactionLog : Type := mkTransactionLog {
  t_id : uuid;
  t_idempotencyKey : string;
  t_type : TransactionType;
  t_fromWalletId : string;
  t_toWalletId : string;
  t_amount : string;
  t_currency : string;
  t_status : TransactionStatus;
  t_description : option string;
  t_errorMessage : option string;
  t_completedAt : option Z;
  t_createdAt : Z;
  t_updatedAt : Z
}.

Record LedgerEntry : Type := mkLedgerEntry {
  l_transactionId : uuid;
  l_walletId : string;
  l_type : LedgerEntryType;
  l_amount : string;
  l_currency : string;
  l_balanceAfter : string;
  l_description : string
}.

Record TransferDto : Type := mkTransferDto {
  idempotencyKey : string;
  fromWalletId : string;
  toWalletId : string;
  amount : string;
  currency : option string;
  description : option string
}.

Record WalletBalance : Type := mkWalletBalance {
  wb_id : string;
  newBalance : string
}.

Record TransferResponseDto : Type := mkTransferResponseDto {
  success : bool;
  transactionId : uuid;
  status : TransactionStatus;
  fromWallet : WalletBalance;
  toWallet : WalletBalance;
  timestamp : Z
}.

(** [Wallet.hasAvailableBalance]: both sides go through [parseFloat]. *)
Definition hasAvailableBalance (w : Wallet) (amount : string) : bool :=
  let balance := parseFloat (w_balance w) in
  let requiredAmount := parseFloat amount in
  Binary64.geb balance requiredAmount.

Definition isActive (w : Wallet) : bool := bool_decide (w_status w = ACTIVE).

Definition isCompleted (t : TransactionLog) : bool :=
  bool_decide (t_status t = COMPLETED).

Definition isDebit (e : LedgerEntry) : bool := bool_decide (l_type e = DEBIT).
Definition isCredit (e : LedgerEntry) : bool := bool_decide (l_type e = CREDIT).

(** ** Exceptions *)

Inductive Exception : Type :=
| BadRequestException (message : string)
| INSUFFICIENT_FUNDS (available required : string)
| ConflictException (message : string)
| NotFoundException (message : string)
| DecimalError (argument : string)
| SequelizeUniqueConstraintError.

Definition error_message (e : Exception) : string :=
  match e with
  | BadRequestException m | ConflictException m | NotFoundException m => m
  | INSUFFICIENT_FUNDS _ _ => "Wallet balance insufficient for transfer"
  | DecimalError a => "[DecimalError] Invalid argument: " ++ a
  | SequelizeUniqueConstraintError => "Validation error"
  end.

(** ** The world: relational store, cache, clock

    [transaction_logs] is indexed by [idempotency_key], the column with the
    unique index.  The two key spaces of the cache, [idempotency:k] and
    [lock:k], are two maps; every entry carries its value and the time at
    which it expires.  [trace] records the calls made to the store and the
    cache, in order.

    The tables hold the strings they are given: the unique index is the one
    constraint of the database that the service relies on, and the only one
    modelled.  What PostgreSQL itself checks on a value -- the syntax and the
    range of a [DECIMAL(20, 2)], which it rounds and pads to two decimals,
    the length of a [STRING], the syntax of a [UUID] -- is outside the
    model, as are transaction isolation and the blocking of row
    locks: a run of the service is sequential, and requests interleave only
    where the development says so.  The store and the cache are taken to be
    reachable: a command answers, and none fails for want of a connection. *)

Inductive Event : Type :=
| RedisGet (key : string)
| RedisSetNX (key : string) (ok : bool)
| RedisSetex (key : string) (ttl : Z)
| RedisDel (key : string)
| LogFindOne (key : string)
| LogCreate (key amount : string) (ok : bool)
| LogUpdate (id : uuid) (st : TransactionStatus)
| WalletFindByPk (id : string) (forUpdate : bool)
| WalletUpdate (id : string) (expectedVersion : Z) (affected : Z)
| LedgerCreate (e : LedgerEntry)
| TxBegin
| TxCommit
| TxRollback.

Record World : Type := mkWorld {
  wallets : gmap string Wallet;
  transaction_logs : gmap string TransactionLog;
  ledger_entries : list LedgerEntry;
  redis_idempotency : gmap string (TransferResponseDto * Z);
  redis_lock : gmap string (string * Z);
  now : Z;
  next_uuid : uuid;
  decimal_rounding : Decimal.rounding;
  trace : list Event
}.

Definition set_wallets (f : gmap string Wallet -> gmap string Wallet) (w : World) : World :=
  mkWorld (f (wallets w)) (transaction_logs w) (ledger_entries w)
    (redis_idempotency w) (redis_lock w) (now w) (next_uuid w)
    (decimal_rounding w) (trace w).

Definition set_logs
    (f : gmap string TransactionLog -> gmap string TransactionLog) (w : World) : World :=
  mkWorld (wallets w) (f (transaction_logs w)) (ledger_entries w)
    (redis_idempotency w) (redis_lock w) (now w) (next_uuid w)
    (decimal_rounding w) (trace w).

Definition set_ledger (f : list LedgerEntry -> list LedgerEntry) (w : World) : World :=
  mkWorld (wallets w) (transaction_logs w) (f (ledger_entries w))
    (redis_idempotency w) (redis_lock w) (now w) (next_uuid w)
    (decimal_rounding w) (trace w).

Definition set_redis_idempotency
    (f : gmap string (TransferResponseDto * Z) -> gmap string (TransferResponseDto * Z))
    (w : World) : World :=
  mkWorld (wallets w) (transaction_logs w) (ledger_entries w)
    (f (redis_idempotency w)) (redis_lock w) (now w) (next_uuid w)
    (decimal_rounding w) (trace w).

Definition set_redis_lock
    (f : gmap string (string * Z) -> gmap string (string * Z)) (w : World) : World :=
  mkWorld (wallets w) (transaction_logs w) (ledger_entries w)
    (redis_idempotency w) (f (redis_lock w)) (now w) (next_uuid w)
    (decimal_rounding w) (trace w).

Definition set_next_uuid (n : uuid) (w : World) : World :=
  mkWorld (wallets w) (transaction_logs w) (ledger_entries w)
    (redis_idempotency w) (redis_lock w) (now w) n
    (decimal_rounding w) (trace w).

Definition emit (e : Event) (w : World) : World :=
  mkWorld (wallets w) (transaction_logs w) (ledger_entries w)
    (redis_idempotency w) (redis_lock w) (now w) (next_uuid w)
    (decimal_rounding w) (trace w ++ [e]).

(** Time passing between two requests. *)
Definition advance (seconds : Z) (w : World) : World :=
  mkWorld (wallets w) (transaction_logs w) (ledger_entries w)
    (redis_idempotency w) (redis_lock w) (now w + seconds) (next_uuid w)
    (decimal_rounding w) (trace w).

(** ** Computations: state and exceptions *)

Definition M (A : Type) : Type := World -> (Exception + A) * World.

Definition ret {A} (a : A) : M A := fun w => (inr a, w).

Definition bind {A B} (m : M A) (k : A -> M B) : M B :=
  fun w => match m w with
           | (inr a, w') => k a w'
           | (inl e, w') => (inl e, w')
           end.

Definition throw {A} (e : Exception) : M A := fun w => (inl e, w).

Definition gets {A} (f : World -> A) : M A := fun w => (inr (f w), w).

Definition modify (f : World -> World) : M unit := fun w => (inr tt, f w).

Declare Scope M_scope.
Delimit Scope M_scope with M.
Notation "x <- m ;; k" := (bind m (fun x => k))
  (at level 100, m at next level, right associativity) : M_scope.
Notation "m ;;; k" := (bind m (fun _ => k))
  (at level 100, right associativity) : M_scope.
#[local] Open Scope M_scope.

(** [try { body } finally { fin }] *)
Definition finally {A} (body : M A) (fin : M unit) : M A :=
  fun w => match body w with
           | (r, w') => match fin w' with
                        | (inr _, w'') => (r, w'')
                        | (inl e, w'') => (inl e, w'')
                        end
           end.

(** [sequelize.transaction(options, callback)], a managed transaction: the
    callback's writes to the three tables are committed when it returns and
    undone when it throws.  The cache, the clock, the identifier source and
    the trace are not transactional. *)
Definition rollback (before after : World) : World :=
  mkWorld (wallets before) (transaction_logs before) (ledger_entries before)
    (redis_idempotency after) (redis_lock after) (now after) (next_uuid after)
    (decimal_rounding after) (trace after).

Definition transaction {A} (callback : M A) : M A :=
  fun w => match callback (emit TxBegin w) with
           | (inr a, w') => (inr a, emit TxCommit w')
           | (inl e, w') => (inl e, emit TxRollback (rollback w w'))
           end.

Definition catch {A} (body : M A) (handler : Exception -> M A) : M A :=
  fun w => match body w with
           | (inl e, w') => handler e w'
           | (inr a, w') => (inr a, w')
           end.

(** [x || d] on an optional string: [undefined] and the empty string are
    falsy. *)
Definition or_default (x : option string) (d : string) : string :=
  match x with
  | Some s => if String.eqb s "" then d else s
  | None => d
  end.

(** ** The cache ([ioredis]) *)

Definition IDEMPOTENCY_TTL : Z := 24 * 60 * 60.

Definition live {A} (t : Z) (entry : option (A * Z)) : option A :=
  match entry with
  | Some (a, expires) => if t <? expires then Some a else None
  | None => None
  end.

(** [redis.get(`idempotency:${k}`)] followed by [JSON.parse].  A result
    read back from the cache is taken to be the result that was stored
    ([JSON.parse] after [JSON.stringify], up to the date being read back as
    its ISO string). *)
Definition redis_get (k : string) : M (option TransferResponseDto) :=
  fun w => (inr (live (now w) (redis_idempotency w !! k)),
            emit (RedisGet ("idempotency:" ++ k)) w).

(** [redis.setex(`idempotency:${k}`, ttl, JSON.stringify(result))] *)
Definition redis_setex (k : string) (ttl : Z) (result : TransferResponseDto) : M unit :=
  fun w => (inr tt,
            emit (RedisSetex ("idempotency:" ++ k) ttl)
              (set_redis_idempotency (fun m => <[k := (result, now w + ttl)]> m) w)).

(** [redis.set(`lock:${k}`, '1', 'EX', ttl, 'NX')]: [true] stands for the
    reply ['OK']. *)
Definition redis_set_nx (k : string) (ttl : Z) : M bool :=
  fun w => match live (now w) (redis_lock w !! k) with
           | Some _ => (inr false, emit (RedisSetNX ("lock:" ++ k) false) w)
           | None => (inr true,
                      emit (RedisSetNX ("lock:" ++ k) true)
                        (set_redis_lock (fun m => <[k := ("1", now w + ttl)]> m) w))
           end.

(** [redis.del(`lock:${k}`)] *)
Definition redis_del (k : string) : M unit :=
  fun w => (inr tt, emit (RedisDel ("lock:" ++ k)) (set_redis_lock (fun m => delete k m) w)).

(** ** The relational store ([sequelize] models) *)

(** [walletModel.findByPk(id, { transaction, lock })] *)
Definition walletModel_findByPk (id : string) (forUpdate : bool) : M (option Wallet) :=
  fun w => (inr (wallets w !! id), emit (WalletFindByPk id forUpdate) w).

(** A wallet row with a new balance and a new version. *)
Definition with_balance (row : Wallet) (balance : string) (version : Z) : Wallet :=
  mkWallet (w_id row) (w_ownerId row) (w_type row) balance
    (w_currency row) (w_status row) version.

(** [walletModel.update({ balance, version }, { where: { id, version } })]:
    the number of rows affected. *)
Definition walletModel_update (balance : string) (version : Z)
    (where_id : string) (where_version : Z) : M Z :=
  fun w => match wallets w !! where_id with
           | Some row =>
               if w_version row =? where_version then
                 (inr 1, emit (WalletUpdate where_id where_version 1)
                           (set_wallets
                              (fun m => <[where_id := with_balance row balance version]> m) w))
               else (inr 0, emit (WalletUpdate where_id where_version 0) w)
           | None => (inr 0, emit (WalletUpdate where_id where_version 0) w)
           end.

(** [transactionLogModel.create({ ...data, status: PENDING })]: the unique
    index on [idempotency_key] rejects a second row for a key. *)
Definition transactionLogModel_create (key : string) (from to amount currency : string)
    (description : option string) (type : TransactionType) : M TransactionLog :=
  fun w => match transaction_logs w !! key with
           | Some _ => (inl SequelizeUniqueConstraintError, emit (LogCreate key amount false) w)
           | None =>
               let row := mkTransactionLog (next_uuid w) key type from to amount currency
                            PENDING description None None (now w) (now w) in
               (inr row,
                emit (LogCreate key amount true)
                  (set_next_uuid (S (next_uuid w))
                     (set_logs (fun m => <[key := row]> m) w)))
           end.

(** [transactionLogModel.findOne({ where: { idempotencyKey } })] *)
Definition transactionLogModel_findOne (key : string) : M (option TransactionLog) :=
  fun w => (inr (transaction_logs w !! key), emit (LogFindOne key) w).

(** A log row with a new status, and a new error message or completion time
    when one is given; [updated_at] is set. *)
Definition with_status (st : TransactionStatus) (errorMessage : option string)
    (completedAt : option Z) (t : Z) (row : TransactionLog) : TransactionLog :=
  mkTransactionLog (t_id row) (t_idempotencyKey row) (t_type row) (t_fromWalletId row)
    (t_toWalletId row) (t_amount row) (t_currency row) st (t_description row)
    (match errorMessage with Some m => Some m | None => t_errorMessage row end)
    (match completedAt with Some c => Some c | None => t_completedAt row end)
    (t_createdAt row) t.

(** [transactionLog.update({ status, ... })] on a loaded row: the row with
    that primary key is rewritten.  The table being indexed by idempotency
    key, the row is found through the key that the loaded row carries. *)
Definition transactionLog_update (transactionLog : TransactionLog) (st : TransactionStatus)
    (errorMessage : option string) (completedAt : option Z) : M unit :=
  fun w => (inr tt,
            emit (LogUpdate (t_id transactionLog) st)
              (set_logs (alter (with_status st errorMessage completedAt (now w))
                           (t_idempotencyKey transactionLog)) w)).

(** [ledgerEntryModel.create(entry, { transaction })] *)
Definition ledgerEntryModel_create (e : LedgerEntry) : M unit :=
  fun w => (inr tt, emit (LedgerCreate e) (set_ledger (fun l => (l ++ [e])%list) w)).

(** ** [WalletService] *)

(** Validate transfer request parameters *)
Definition validateTransferRequest (transferDto : TransferDto) : M unit :=
  if String.eqb (fromWalletId transferDto) (toWalletId transferDto) then
    throw (BadRequestException "Cannot transfer to the same wallet")
  else
    let amount := parseFloat (amount transferDto) in
    if Binary64.leb amount (Binary64.of_Z 0) then
      throw (BadRequestException "Amount must be greater than 0")
    else if Binary64.gtb amount (Binary64.of_Z 1000000000) then
      throw (BadRequestException "Amount exceeds maximum allowed value")
    else ret tt.

(** Build response from transaction log *)
Definition getCachedResult (transaction : TransactionLog) : M TransferResponseDto :=
  fromWallet <- walletModel_findByPk (t_fromWalletId transaction) false ;;
  toWallet <- walletModel_findByPk (t_toWalletId transaction) false ;;
  match fromWallet with
  | None => throw (NotFoundException "Source wallet not found")
  | Some fromWallet =>
  match toWallet with
  | None => throw (NotFoundException "Destination wallet not found")
  | Some toWallet =>
      if negb (isActive fromWallet) then
        throw (BadRequestException "Source wallet is not active")
      else if negb (isActive toWallet) then
        throw (BadRequestException "Destination wallet is not active")
      else
        ret (mkTransferResponseDto true (t_id transaction) (t_status transaction)
               (mkWalletBalance (w_id fromWallet) (w_balance fromWallet))
               (mkWalletBalance (w_id toWallet) (w_balance toWallet))
               (match t_completedAt transaction with
                | Some c => c
                | None => t_updatedAt transaction
                end))
  end end.

(** Check if result exists in cache (idempotency check) *)
Definition checkIdempotency (idempotencyKey : string) : M (option TransferResponseDto) :=
  cached <- redis_get idempotencyKey ;;
  match cached with
  | Some result => ret (Some result)
  | None =>
      transaction <- transactionLogModel_findOne idempotencyKey ;;
      match transaction with
      | Some transaction =>
          if isCompleted transaction then
            result <- getCachedResult transaction ;; ret (Some result)
          else ret None
      | None => ret None
      end
  end.

(** Cache result in Redis for fast idempotency checks *)
Definition cacheResult (idempotencyKey : string) (result : TransferResponseDto) : M unit :=
  redis_setex idempotencyKey IDEMPOTENCY_TTL result.

(** Acquire distributed lock using Redis *)
Definition acquireLock (key : string) : M bool := redis_set_nx key 30.

(** Release distributed lock *)
Definition releaseLock (key : string) : M unit := redis_del key.

(** Create initial transaction log with PENDING status *)
Definition createTransactionLog (idempotencyKey from to amount currency : string)
    (description : option string) (type : TransactionType) : M TransactionLog :=
  catch (transactionLogModel_create idempotencyKey from to amount currency description type)
    (fun error =>
       match error with
       | SequelizeUniqueConstraintError =>
           existing <- transactionLogModel_findOne idempotencyKey ;;
           match existing with
           | Some existing =>
               if isCompleted existing then
                 (* the synthesized result is an object, hence truthy *)
                 cachedResult <- getCachedResult existing ;; ret existing
               else
                 throw (ConflictException
                   "Transaction with this idempotency key is already being processed")
           | None =>
               throw (ConflictException
                 "Transaction with this idempotency key is already being processed")
           end
       | _ => throw error
       end).

(** Create double-entry ledger entries for accounting *)
Definition debit_description (description : string) : string :=
  if String.eqb description "" then "Transfer out" else description.

Definition createLedgerEntries (transactionId : uuid) (fromWalletId toWalletId : string)
    (amount currency fromBalanceAfter toBalanceAfter description : string) : M unit :=
  (* Debit entry (money leaving from wallet) *)
  ledgerEntryModel_create
    (mkLedgerEntry transactionId fromWalletId DEBIT amount currency fromBalanceAfter
       (debit_description description)) ;;;
  (* Credit entry (money entering to wallet) *)
  ledgerEntryModel_create
    (mkLedgerEntry transactionId toWalletId CREDIT amount currency toBalanceAfter
       description).

Definition Decimal_new (s : string) : M Decimal.t :=
  match Decimal.new s with
  | Some d => ret d
  | None => throw (DecimalError s)
  end.

Definition insufficient_funds (fromWallet : Wallet) (transferDto : TransferDto) : Exception :=
  INSUFFICIENT_FUNDS (w_balance fromWallet) (amount transferDto).

(** The callback passed to [sequelize.transaction] by [executeTransfer].
    The models are injected into the service; [update] stands for
    [this.walletModel.update], whose answer is the number of rows affected. *)
Definition executeTransfer_callback_over (update : string -> Z -> string -> Z -> M Z)
    (transactionLog : TransactionLog) (transferDto : TransferDto)
    : M TransferResponseDto :=
  transactionLog_update transactionLog PROCESSING None None ;;;
  fromWallet <- walletModel_findByPk (fromWalletId transferDto) true ;;
  match fromWallet with
  | None => throw (NotFoundException "Source wallet not found")
  | Some fromWallet =>
  if negb (isActive fromWallet) then
    throw (BadRequestException "Source wallet is not active")
  else
  toWallet <- walletModel_findByPk (toWalletId transferDto) true ;;
  match toWallet with
  | None => throw (NotFoundException "Destination wallet not found")
  | Some toWallet =>
  if negb (isActive toWallet) then
    throw (BadRequestException "Destination wallet is not active")
  else if negb (hasAvailableBalance fromWallet (amount transferDto)) then
    throw (insufficient_funds fromWallet transferDto)
  else if negb (hasAvailableBalance fromWallet (amount transferDto)) then
    throw (insufficient_funds fromWallet transferDto)
  else
  amountDecimal <- Decimal_new (amount transferDto) ;;
  fromBalanceDecimal <- Decimal_new (w_balance fromWallet) ;;
  toBalanceDecimal <- Decimal_new (w_balance toWallet) ;;
  rm <- gets decimal_rounding ;;
  let newFromBalance :=
    Decimal.toFixed rm 2 (Decimal.minus rm fromBalanceDecimal amountDecimal) in
  let newToBalance :=
    Decimal.toFixed rm 2 (Decimal.plus rm toBalanceDecimal amountDecimal) in
  fromUpdated <- update newFromBalance (w_version fromWallet + 1)
                   (w_id fromWallet) (w_version fromWallet) ;;
  toUpdated <- update newToBalance (w_version toWallet + 1)
                 (w_id toWallet) (w_version toWallet) ;;
  if (fromUpdated =? 0) || (toUpdated =? 0) then
    throw (ConflictException "Wallet was modified by another transaction. Please retry.")
  else
  createLedgerEntries (t_id transactionLog) (w_id fromWallet) (w_id toWallet)
    (amount transferDto) (or_default (currency transferDto) "NGN")
    newFromBalance newToBalance (or_default (description transferDto) "") ;;;
  completedAt <- gets now ;;
  transactionLog_update transactionLog COMPLETED None (Some completedAt) ;;;
  timestamp <- gets now ;;
  ret (mkTransferResponseDto true (t_id transactionLog) COMPLETED
         (mkWalletBalance (w_id fromWallet) newFromBalance)
         (mkWalletBalance (w_id toWallet) newToBalance)
         timestamp)
  end end.

(** The callback over the store of the service. *)
Definition executeTransfer_callback (transactionLog : TransactionLog)
    (transferDto : TransferDto) : M TransferResponseDto :=
  executeTransfer_callback_over walletModel_update transactionLog transferDto.

(** Execute the actual transfer within a database transaction *)
Definition executeTransfer (transactionLog : TransactionLog) (transferDto : TransferDto)
    : M TransferResponseDto :=
  transaction (executeTransfer_callback transactionLog transferDto).

(** The part of [transfer] that follows the idempotency check: from
    [validateTransferRequest] to the [finally] block.  Each [await] is a point
    at which another request may run; this is where the request resumes once
    [checkIdempotency] has answered [null]. *)
Definition transfer_resume (transferDto : TransferDto) : M TransferResponseDto :=
  validateTransferRequest transferDto ;;;
  lockAcquired <- acquireLock (idempotencyKey transferDto) ;;
  if negb lockAcquired then
    throw (ConflictException
      "Another request with the same idempotency key is being processed")
  else
    finally
      ((* [createTransactionLog] throws while [transactionLog] is still null:
          the handler only rethrows *)
       transactionLog <- createTransactionLog (idempotencyKey transferDto)
                           (fromWalletId transferDto) (toWalletId transferDto)
                           (amount transferDto) (or_default (currency transferDto) "NGN")
                           (description transferDto) TRANSFER ;;
       catch
         (result <- executeTransfer transactionLog transferDto ;;
          cacheResult (idempotencyKey transferDto) result ;;;
          ret result)
         (fun error =>
            transactionLog_update transactionLog FAILED (Some (error_message error)) None ;;;
            throw error))
      (releaseLock (idempotencyKey transferDto)).

(** Main transfer method with idempotency, race condition handling, and
    double-entry bookkeeping *)
Definition transfer (transferDto : TransferDto) : M TransferResponseDto :=
  cachedResult <- checkIdempotency (idempotencyKey transferDto) ;;
  match cachedResult with
  | Some cachedResult => ret cachedResult
  | None => transfer_resume transferDto
  end.

(** ** Vocabulary of the statements *)

(** [cents c] is the rational [c / 100]. *)
Definition cents (c : Z) : Q := (inject_Z c * Qpower 10 (-2))%Q.

(** [money s c]: the string [s] is an unsigned numeral with at most two
    decimals whose value is [c] hundredths, such as ["1000.00"], ["1000.0"] or
    ["1000"] for [100000]. *)
Definition money (s : string) (c : Z) : Prop :=
  exists m e,
    Numeral.scan_unsigned s = Some (m, e, EmptyString) /\
    (e = 0 \/ e = -1 \/ e = -2) /\ c = m * 10 ^ (2 + e).

(** Every row of [wallets] is stored under its primary key. *)
Definition wallets_wf (w : World) : Prop :=
  map_Forall (fun k row => w_id row = k) (wallets w).

(** The row locks ([SELECT ... FOR UPDATE]) requested by a run, in order. *)
Fixpoint wallet_locks (evs : list Event) : list string :=
  match evs with
  | WalletFindByPk id true :: rest => id :: wallet_locks rest
  | _ :: rest => wallet_locks rest
  | [] => []
  end.

(** The ledger rows of one transfer. *)
Definition ledger_of (id : uuid) (w : World) : list LedgerEntry :=
  filter (fun e => l_transactionId e = id) (ledger_entries w).

(** [n] successive invocations of [transfer] with the same request. *)
Fixpoint replay (n : nat) (transferDto : TransferDto) (w : World)
    : list (Exception + TransferResponseDto) * World :=
  match n with
  | O => ([], w)
  | S k =>
      let (r, w1) := transfer transferDto w in
      let (rs, w2) := replay k transferDto w1 in
      (r :: rs, w2)
  end.

(** A pair of ledger entries balances: same transaction, same amount, same
    currency, one debit and one credit. *)
Definition balanced (debit credit : LedgerEntry) : Prop :=
  l_transactionId debit = l_transactionId credit /\
  l_amount debit = l_amount credit /\
  l_currency debit = l_currency credit /\
  l_type debit = DEBIT /\ l_type credit = CREDIT.

(** [extends w w']: the trace of [w'] continues the trace of [w]. *)
Definition extends (w w' : World) : Prop :=
  exists evs, trace w' = (trace w ++ evs)%list.

(** A computation is [monotone] when it only ever adds to the trace. *)
Definition monotone {A} (m : M A) : Prop :=
  forall w, extends w (snd (m w)).

(** A store that answers every [update] with the number of rows it affected,
    the call and the answer being recorded in the trace.  What the store
    does to its rows is left open. *)
Definition counts_rows (update : string -> Z -> string -> Z -> M Z) : Prop :=
  forall balance version where_id where_version w,
    exists affected w',
      update balance version where_id where_version w = (inr affected, w') /\
      trace w' = (trace w ++ [WalletUpdate where_id where_version affected])%list.

(** The three guards of [validateTransferRequest]. *)
Definition invalid_request (transferDto : TransferDto) : Prop :=
  String.eqb (fromWalletId transferDto) (toWalletId transferDto) = true \/
  Binary64.leb (parseFloat (amount transferDto)) (Binary64.of_Z 0) = true \/
  Binary64.gtb (parseFloat (amount transferDto)) (Binary64.of_Z 1000000000) = true.

(** The world after an idempotency check that read the cache and looked the
    key up in the log. *)
Definition checked (key : string) (w : World) : World :=
  emit (LogFindOne key) (emit (RedisGet ("idempotency:" ++ key)) w).

(** The world once the lease on [key] is taken, once a result is cached, and
    once the lease is released. *)
Definition locked (key : string) (w : World) : World :=
  emit (RedisSetNX ("lock:" ++ key) true)
    (set_redis_lock (fun m => <[key := ("1", now w + 30)]> m) w).

Definition cached (key : string) (result : TransferResponseDto) (w : World) : World :=
  emit (RedisSetex ("idempotency:" ++ key) IDEMPOTENCY_TTL)
    (set_redis_idempotency (fun m => <[key := (result, now w + IDEMPOTENCY_TTL)]> m) w).

Definition released (key : string) (w : World) : World :=
  emit (RedisDel ("lock:" ++ key)) (set_redis_lock (fun m => delete key m) w).

(** The row that [transactionLogModel.create] inserts, and the world after
    the insertion. *)
Definition pending_row (transferDto : TransferDto) (w : World) : TransactionLog :=
  mkTransactionLog (next_uuid w) (idempotencyKey transferDto) TRANSFER
    (fromWalletId transferDto) (toWalletId transferDto) (amount transferDto)
    (or_default (currency transferDto) "NGN") PENDING (description transferDto)
    None None (now w) (now w).

Definition inserted (transferDto : TransferDto) (w : World) : World :=
  emit (LogCreate (idempotencyKey transferDto) (amount transferDto) true)
    (set_next_uuid (S (next_uuid w))
       (set_logs (fun m => <[idempotencyKey transferDto := pending_row transferDto w]> m) w)).

(** Two worlds hold the same rows in the three tables. *)
Definition same_tables (w w' : World) : Prop :=
  wallets w' = wallets w /\ transaction_logs w' = transaction_logs w /\
  ledger_entries w' = ledger_entries w.

(** *** Whole requests, one after the other *)

(** [fresh_row transferDto w row]: [row] is the row a request inserts in [w],
    up to its status. *)
Definition fresh_row (transferDto : TransferDto) (w : World) (row : TransactionLog) : Prop :=
  t_id row = next_uuid w /\
  t_idempotencyKey row = idempotencyKey transferDto /\
  t_fromWalletId row = fromWalletId transferDto /\
  t_toWalletId row = toWalletId transferDto /\
  t_amount row = amount transferDto /\
  t_currency row = or_default (currency transferDto) "NGN".

(** What one whole run of [transfer] does to the tables: nothing; or a new
    row left FAILED; or a new row COMPLETED together with the two balance
    updates and the two ledger rows. *)
Inductive effect (transferDto : TransferDto) (w w' : World) : Prop :=
| effect_none :
    same_tables w w' -> next_uuid w' = next_uuid w -> effect transferDto w w'
| effect_failed (row : TransactionLog) :
    transaction_logs w !! idempotencyKey transferDto = None ->
    fresh_row transferDto w row -> t_status row = FAILED ->
    wallets w' = wallets w -> ledger_entries w' = ledger_entries w ->
    transaction_logs w' = <[idempotencyKey transferDto := row]> (transaction_logs w) ->
    next_uuid w' = S (next_uuid w) ->
    effect transferDto w w'
| effect_completed (row : TransactionLog) (fromW toW : Wallet) (newFrom newTo : string) :
    transaction_logs w !! idempotencyKey transferDto = None ->
    fresh_row transferDto w row -> t_status row = COMPLETED ->
    fromWalletId transferDto <> toWalletId transferDto ->
    wallets w !! fromWalletId transferDto = Some fromW ->
    wallets w !! toWalletId transferDto = Some toW ->
    wallets w' =
      <[toWalletId transferDto := with_balance toW newTo (w_version toW + 1)]>
        (<[fromWalletId transferDto := with_balance fromW newFrom (w_version fromW + 1)]>
           (wallets w)) ->
    ledger_entries w' =
      (ledger_entries w ++
       [mkLedgerEntry (t_id row) (fromWalletId transferDto) DEBIT (amount transferDto)
          (or_default (currency transferDto) "NGN") newFrom
          (debit_description (or_default (description transferDto) ""));
        mkLedgerEntry (t_id row) (toWalletId transferDto) CREDIT (amount transferDto)
          (or_default (currency transferDto) "NGN") newTo
          (or_default (description transferDto) "")])%list ->
    transaction_logs w' = <[idempotencyKey transferDto := row]> (transaction_logs w) ->
    next_uuid w' = S (next_uuid w) ->
    effect transferDto w w'.

(** Worlds reached from [w0] by whole requests, none of them overlapping
    another, with time passing in between. *)
Inductive reachable (w0 : World) : World -> Prop :=
| reachable_refl : reachable w0 w0
| reachable_transfer (w : World) (transferDto : TransferDto) :
    reachable w0 w -> reachable w0 (snd (transfer transferDto w))
| reachable_advance (w : World) (seconds : Z) :
    reachable w0 w -> reachable w0 (advance seconds w).

(** The double-entry pair of a log row. *)
Definition pair_of (row : TransactionLog) (entries : list LedgerEntry) : Prop :=
  exists debit credit,
    entries = [debit; credit] /\
    l_type debit = DEBIT /\ l_walletId debit = t_fromWalletId row /\
    l_type credit = CREDIT /\ l_walletId credit = t_toWalletId row /\
    l_amount debit = t_amount row /\ l_amount credit = t_amount row /\
    l_currency debit = t_currency row /\ l_currency credit = t_currency row.

Definition ledger_invariant (w : World) : Prop :=
  wallets_wf w /\
  (forall k row, transaction_logs w !! k = Some row ->
     t_idempotencyKey row = k /\ (t_id row < next_uuid w)%nat) /\
  (forall e, In e (ledger_entries w) -> (l_transactionId e < next_uuid w)%nat) /\
  (forall k row, transaction_logs w !! k = Some row ->
     if isCompleted row then pair_of row (ledger_of (t_id row) w)
     else ledger_of (t_id row) w = []).

(** *** Scenarios *)
Module Scenario.

Definition A : Wallet := mkWallet "A" "user-1" USER "1000.00" "NGN" ACTIVE 1.
Definition B : Wallet := mkWallet "B" "user-2" USER "500.00" "NGN" ACTIVE 1.

(** Two funded wallets, empty log and ledger, empty cache. *)
Definition initial : World :=
  mkWorld (<["A" := A]> (<["B" := B]> ∅)) ∅ [] ∅ ∅ 0 0%nat Decimal.ROUND_HALF_EVEN [].

Definition t1 : TransferDto := mkTransferDto "t1" "A" "B" "99.99" None None.
Definition t2 : TransferDto := mkTransferDto "t2" "A" "B" "100.00" None None.
Definition t1_reversed : TransferDto := mkTransferDto "t3" "B" "A" "10.00" None None.
Definition same_wallet : TransferDto := mkTransferDto "t6" "A" "A" "1.00" None None.
Definition too_much : TransferDto := mkTransferDto "t3" "A" "B" "5000.00" None None.
Definition not_a_number : TransferDto := mkTransferDto "t7" "A" "B" "abc" None None.

(** The log row of [t1] as inserted, and the world holding it. *)
Definition t1_row : TransactionLog :=
  mkTransactionLog 0%nat "t1" TRANSFER "A" "B" "99.99" "NGN" PENDING None None None 0 0.

Definition t1_pending : World :=
  set_next_uuid 1%nat (set_logs (fun m => <["t1" := t1_row]> m) initial).

(** [t1] has completed, then [t2] has moved the same wallets, then a day has
    passed. *)
Definition a_day_later : World :=
  advance (IDEMPOTENCY_TTL + 1) (snd (transfer t2 (snd (transfer t1 initial)))).

(** An invalid request that reuses the key of [t1]. *)
Definition invalid_replay : TransferDto := mkTransferDto "t1" "A" "A" "-5" None None.

(** The world after [t1] has completed. *)
Definition after_t1 : World := snd (transfer t1 initial).

(** The store as another transaction has left it for a reader of wallet
    [id]: the row is no longer the one that was read, so that an update of it
    on the version read affects no row.  Other wallets are updated as
    usual. *)
Definition changed_since_read (id : string) (balance : string) (version : Z)
    (where_id : string) (where_version : Z) : M Z :=
  if String.eqb where_id id then
    fun w => (inr 0, emit (WalletUpdate where_id where_version 0) w)
  else walletModel_update balance version where_id where_version.

End Scenario.

(** ** The queries of [WalletService] and the remaining entity helpers *)

(** [TransactionLog.isFailed], [isPending] and [canBeProcessed] *)
Definition isFailed (t : TransactionLog) : bool := bool_decide (t_status t = FAILED).

Definition isPending (t : TransactionLog) : bool := bool_decide (t_status t = PENDING).

Definition canBeProcessed (t : TransactionLog) : bool :=
  bool_decide (t_status t = PENDING) || bool_decide (t_status t = PROCESSING).

(** [walletModel.findAll()]: every row, in no particular order. *)
Definition walletModel_findAll : M (list Wallet) :=
  fun w => (inr ((map_to_list (wallets w)).*2), w).

(** Get all wallets *)
Definition getAllWallets : M (list Wallet) := walletModel_findAll.

(** Get wallet by ID *)
Definition getWallet (walletId : string) : M Wallet :=
  wallet <- walletModel_findByPk walletId false ;;
  match wallet with
  | None => throw (NotFoundException "Wallet not found")
  | Some wallet => ret wallet
  end.

(** The [where] clause of the history query:
    [{ [Op.or]: [{ fromWalletId: walletId }, { toWalletId: walletId }] }]. *)
Definition involves (walletId : string) (t : TransactionLog) : bool :=
  bool_decide (t_fromWalletId t = walletId) || bool_decide (t_toWalletId t = walletId).

(** [order: [['createdAt', 'DESC']]].  Rows with the same creation time come
    out in whatever order the insertion below leaves them; the database
    promises none. *)
Fixpoint insert_createdAt_desc (t : TransactionLog) (l : list TransactionLog)
    : list TransactionLog :=
  match l with
  | [] => [t]
  | x :: rest =>
      if t_createdAt x <? t_createdAt t then t :: l
      else x :: insert_createdAt_desc t rest
  end.

Definition order_createdAt_desc (l : list TransactionLog) : list TransactionLog :=
  foldr insert_createdAt_desc [] l.

(** [transactionLogModel.findAll({ where, order, limit })] *)
Definition transactionLogModel_findAll (where_ : TransactionLog -> bool) (limit : nat)
    : M (list TransactionLog) :=
  fun w =>
    (inr (take limit
            (order_createdAt_desc
               (filter (fun t => where_ t = true) ((map_to_list (transaction_logs w)).*2)))),
     w).

(** Get transaction history for a wallet; the controller leaves [limit] at
    its default of 50. *)
Definition getTransactionHistory (walletId : string) (limit : nat)
    : M (list TransactionLog) :=
  transactionLogModel_findAll (involves walletId) limit.

(** ** [InterestService.isLeapYear]

    [year] is the integer [getFullYear] returns; [%] is the remainder of the
    truncated division. *)
Definition isLeapYear (year : Z) : bool :=
  if Z.rem year 400 =? 0 then true
  else if Z.rem year 100 =? 0 then false
  else if Z.rem year 4 =? 0 then true
  else false.

(** [const daysInYear = isLeapYear ? 366 : 365] *)
Definition daysInYear (year : Z) : Z := if isLeapYear year then 366 else 365.

(** ** More vocabulary *)

(** [stable R m]: every run of [m] takes a world to one related to it by
    [R]. *)
Definition stable {A} (R : World -> World -> Prop) (m : M A) : Prop :=
  forall w, R w (snd (m w)).

(** A wallet row and a later state of it: the identity, the owner, the type,
    the currency and the status are those of before, the version has not
    gone down, and the row is the same unless the version has gone up. *)
Definition wallet_evolves (a b : Wallet) : Prop :=
  w_id b = w_id a /\ w_ownerId b = w_ownerId a /\ w_type b = w_type a /\
  w_currency b = w_currency a /\ w_status b = w_status a /\
  w_version a <= w_version b /\ (w_version b = w_version a -> b = a).

(** The same wallets are there, each one evolved. *)
Definition wallets_evolve (w w' : World) : Prop :=
  forall id, option_Forall2 wallet_evolves (wallets w !! id) (wallets w' !! id).

(** A log row and a later state of it record the same request. *)
Definition log_row_evolves (a b : TransactionLog) : Prop :=
  t_id b = t_id a /\ t_idempotencyKey b = t_idempotencyKey a /\ t_type b = t_type a /\
  t_fromWalletId b = t_fromWalletId a /\ t_toWalletId b = t_toWalletId a /\
  t_amount b = t_amount a /\ t_currency b = t_currency a /\
  t_description b = t_description a /\ t_createdAt b = t_createdAt a.

(** No log row is lost, and each one still records the same request. *)
Definition logs_evolve (w w' : World) : Prop :=
  forall k a, transaction_logs w !! k = Some a ->
    exists b, transaction_logs w' !! k = Some b /\ log_row_evolves a b.

(** The balance of a wallet in hundredths, for a balance written with at most
    two decimals. *)
Definition balance_cents (s : string) : Z :=
  match Numeral.scan_unsigned s with
  | Some (m, e, EmptyString) => m * 10 ^ (2 + e)
  | _ => 0
  end.

(** The sum, in hundredths, of the balances of a list of wallets. *)
Definition total_cents (l : list Wallet) : Z :=
  foldr (fun row acc => balance_cents (w_balance row) + acc) 0 l.

(** Every wallet holds a balance written with at most two decimals. *)
Definition balances_wf (w : World) : Prop :=
  map_Forall (fun _ row => exists c, money (w_balance row) c) (wallets w).

(** Worlds reached by whole requests whose amounts are written with at most
    two decimals, none overlapping another, with time passing in between. *)
Inductive reachable_money (w0 : World) : World -> Prop :=
| reachable_money_refl : reachable_money w0 w0
| reachable_money_transfer (w : World) (transferDto : TransferDto) (c : Z) :
    reachable_money w0 w -> money (amount transferDto) c ->
    reachable_money w0 (snd (transfer transferDto w))
| reachable_money_advance (w : World) (seconds : Z) :
    reachable_money w0 w -> reachable_money w0 (advance seconds w).

(** The ledger rows of one wallet, oldest first. *)
Definition ledger_of_wallet (id : string) (w : World) : list LedgerEntry :=
  filter (fun e => l_walletId e = id) (ledger_entries w).

(** The latest ledger row of every wallet, when there is one, shows the
    balance the wallet holds. *)
Definition ledger_tracks_balances (w : World) : Prop :=
  forall id row e,
    wallets w !! id = Some row -> last (ledger_of_wallet id w) = Some e ->
    l_balanceAfter e = w_balance row.

(** The number of leap years among the [n] years from [year] on. *)
Definition leap_years (year : Z) (n : nat) : nat :=
  length (List.filter isLeapYear (map (fun i => year + Z.of_nat i) (seq 0 n))).

(** The days of the [n] years from [year] on. *)
Definition days_of_years (year : Z) (n : nat) : Z :=
  foldr (fun i acc => daysInYear (year + Z.of_nat i) + acc) 0 (seq 0 n).

(** The ways through [transfer_resume], from the request and the world it
    starts in to its outcome and the world it leaves. *)
Inductive resume_path (transferDto : TransferDto) (w : World)
    : Exception + TransferResponseDto -> World -> Prop :=
| path_invalid (message : string) :
    invalid_request transferDto ->
    resume_path transferDto w (inl (BadRequestException message)) w
| path_lease_held (holder : string) :
    ~ invalid_request transferDto ->
    live (now w) (redis_lock w !! idempotencyKey transferDto) = Some holder ->
    resume_path transferDto w
      (inl (ConflictException
              "Another request with the same idempotency key is being processed"))
      (emit (RedisSetNX ("lock:" ++ idempotencyKey transferDto) false) w)
| path_no_row (error : Exception) (w2 : World) :
    ~ invalid_request transferDto ->
    live (now w) (redis_lock w !! idempotencyKey transferDto) = None ->
    createTransactionLog (idempotencyKey transferDto) (fromWalletId transferDto)
      (toWalletId transferDto) (amount transferDto)
      (or_default (currency transferDto) "NGN") (description transferDto) TRANSFER
      (locked (idempotencyKey transferDto) w) = (inl error, w2) ->
    resume_path transferDto w (inl error) (released (idempotencyKey transferDto) w2)
| path_failed (transactionLog : TransactionLog) (w2 : World) (error : Exception)
    (w3 : World) :
    ~ invalid_request transferDto ->
    live (now w) (redis_lock w !! idempotencyKey transferDto) = None ->
    createTransactionLog (idempotencyKey transferDto) (fromWalletId transferDto)
      (toWalletId transferDto) (amount transferDto)
      (or_default (currency transferDto) "NGN") (description transferDto) TRANSFER
      (locked (idempotencyKey transferDto) w) = (inr transactionLog, w2) ->
    executeTransfer transactionLog transferDto w2 = (inl error, w3) ->
    resume_path transferDto w (inl error)
      (released (idempotencyKey transferDto)
         (emit (LogUpdate (t_id transactionLog) FAILED)
            (set_logs
               (alter (with_status FAILED (Some (error_message error)) None (now w3))
                  (t_idempotencyKey transactionLog))
               w3)))
| path_completed (transactionLog : TransactionLog) (w2 : World)
    (result : TransferResponseDto) (w3 : World) :
    ~ invalid_request transferDto ->
    live (now w) (redis_lock w !! idempotencyKey transferDto) = None ->
    createTransactionLog (idempotencyKey transferDto) (fromWalletId transferDto)
      (toWalletId transferDto) (amount transferDto)
      (or_default (currency transferDto) "NGN") (description transferDto) TRANSFER
      (locked (idempotencyKey transferDto) w) = (inr transactionLog, w2) ->
    executeTransfer transactionLog transferDto w2 = (inr result, w3) ->
    resume_path transferDto w (inr result)
      (released (idempotencyKey transferDto)
         (cached (idempotencyKey transferDto) result w3)).

(** What one run does to the ledger: nothing, wallets included; or one
    debit and one credit that balance, the debit on the row found under the
    source id of the request and the credit on the row found under its
    destination id.  When the run returns a result, the pair carries the
    transaction id of the result and shows its two balances. *)
Definition nothing_or_one_pair (transferDto : TransferDto) (w : World)
    (out : (Exception + TransferResponseDto) * World) : Prop :=
  (wallets (snd out) = wallets w /\ ledger_entries (snd out) = ledger_entries w) \/
  exists debit credit fromW toW,
    ledger_entries (snd out) = (ledger_entries w ++ [debit; credit])%list /\
    balanced debit credit /\
    wallets w !! fromWalletId transferDto = Some fromW /\
    wallets w !! toWalletId transferDto = Some toW /\
    l_walletId debit = w_id fromW /\ l_walletId credit = w_id toW /\
    forall result, fst out = inr result ->
      l_transactionId debit = transactionId result /\
      l_balanceAfter debit = newBalance (fromWallet result) /\
      l_balanceAfter credit = newBalance (toWallet result).



(** A request that finds nothing under its key: no live cached result, no
    row, no live lease. *)
Definition fresh_key (transferDto : TransferDto) (w : World) : Prop :=
  live (now w) (redis_idempotency w !! idempotencyKey transferDto) = None /\
  transaction_logs w !! idempotencyKey transferDto = None /\
  live (now w) (redis_lock w !! idempotencyKey transferDto) = None.

(** *** More scenarios *)
Module Cases.



(** The key of [Scenario.t1] under another body. *)
Definition t1_other_body : TransferDto := mkTransferDto "t1" "B" "A" "5.00" None None.


(** [Scenario.initial] with the lease of ["t1"] held by a request in
    flight. *)
Definition t1_leased : World := snd (acquireLock "t1" Scenario.initial).


(** An amount above the maximum by less than half a unit in the last place
    of the double [10^9]. *)
Definition just_above_max : TransferDto :=
  mkTransferDto "t10" "A" "B" "1000000000.00000001" None None.

(** The result of [Scenario.t1] on [Scenario.initial]. *)
Definition t1_result : TransferResponseDto :=
  mkTransferResponseDto true 0%nat COMPLETED
    (mkWalletBalance "A" "900.01") (mkWalletBalance "B" "599.99") 0.

(** [Scenario.initial] under the rounding mode that [decimal.js] starts
    with. *)
Definition initial_half_up : World :=
  mkWorld (wallets Scenario.initial) ∅ [] ∅ ∅ 0 0%nat Decimal.ROUND_HALF_UP [].

(** An amount with three decimals. *)
Definition half_a_cent_more : TransferDto :=
  mkTransferDto "t11" "A" "B" "1.005" None None.

End Cases.


(** * Facts about binary64 rounding *)
Module Binary64Facts.
Import Binary64.
#[local] Open Scope Q_scope.

Lemma pow2_pos e : 0 < pow2 e.
Proof. apply Qpower_0_lt. reflexivity. Qed.

Lemma pow2_le a b : (a <= b)%Z -> pow2 a <= pow2 b.
Proof. intros H. apply Qpower_le_compat_l; [exact H|discriminate]. Qed.

Lemma pow2_lt a b : (a < b)%Z -> pow2 a < pow2 b.
Proof. intros H. apply Qpower_lt_compat_l; [exact H|reflexivity]. Qed.

Lemma pow2_lt_inv a b : pow2 a < pow2 b -> (a < b)%Z.
Proof. intros H. apply (Qpower_lt_compat_l_inv 2); [exact H|reflexivity]. Qed.

Lemma pow2_add a b : pow2 (a + b) == pow2 a * pow2 b.
Proof. apply Qpower_plus. discriminate. Qed.

Lemma pow2_nonneg_Z n : (0 <= n)%Z -> pow2 n == inject_Z (2 ^ n).
Proof. intros H. unfold pow2. rewrite Zpower_Qpower by exact H. reflexivity. Qed.

Lemma rne_bounds t : (Qfloor t <= rne t <= Qfloor t + 1)%Z.
Proof.
  unfold rne. destruct (Qcompare _ _); [destruct (Z.even _)| |]; lia.
Qed.

Lemma rne_err t : inject_Z (rne t) - (1 # 2) <= t <= inject_Z (rne t) + (1 # 2).
Proof.
  pose proof (Qfloor_le t) as Hl. pose proof (Qlt_floor t) as Hu.
  rewrite inject_Z_plus in Hu. change (inject_Z 1) with 1 in Hu.
  unfold rne. destruct (Qcompare_spec (t - inject_Z (Qfloor t)) (1 # 2)) as [E|E|E].
  - destruct (Z.even _); rewrite ?inject_Z_plus; change (inject_Z 1) with 1; split; lra.
  - split; lra.
  - rewrite inject_Z_plus. change (inject_Z 1) with 1. split; lra.
Qed.

Lemma rne_mono t u : t <= u -> (rne t <= rne u)%Z.
Proof.
  intros H. pose proof (Qfloor_resp_le _ _ H) as Hf.
  destruct (Z.eq_dec (Qfloor t) (Qfloor u)) as [E|N].
  - unfold rne. rewrite <- E.
    destruct (Qcompare_spec (t - inject_Z (Qfloor t)) (1 # 2)) as [A|A|A];
    destruct (Qcompare_spec (u - inject_Z (Qfloor t)) (1 # 2)) as [B|B|B];
    try destruct (Z.even _); try lia; exfalso; lra.
  - pose proof (rne_bounds t). pose proof (rne_bounds u). lia.
Qed.

Lemma rne_Z n : rne (inject_Z n) = n.
Proof.
  unfold rne. rewrite Qfloor_Z.
  destruct (Qcompare_spec (inject_Z n - inject_Z n) (1 # 2)) as [A|A|A]; try reflexivity; exfalso; lra.
Qed.

Lemma rne_le_Z t n : t <= inject_Z n -> (rne t <= n)%Z.
Proof. intros H. rewrite <- (rne_Z n). apply rne_mono, H. Qed.

Lemma rne_ge_Z t n : inject_Z n <= t -> (n <= rne t)%Z.
Proof. intros H. rewrite <- (rne_Z n). apply rne_mono, H. Qed.

Lemma Qnum_pos x : 0 < x -> (0 < Qnum x)%Z.
Proof. destruct x as [n d]. unfold Qlt. simpl. lia. Qed.

Lemma ilog2_rough x : 0 < x ->
  let e0 := (Z.log2 (Qnum x) - Z.log2 (Zpos (Qden x)))%Z in
  pow2 (e0 - 1) <= x /\ x < pow2 (e0 + 1).
Proof.
  intros Hx e0. pose proof (Qnum_pos x Hx) as Hn.
  pose proof (Z.log2_spec _ Hn) as [Ha1 Ha2].
  pose proof (Z.log2_spec (Zpos (Qden x)) ltac:(lia)) as [Hb1 Hb2].
  pose proof (Z.log2_nonneg (Qnum x)) as Ha0.
  pose proof (Z.log2_nonneg (Zpos (Qden x))) as Hb0.
  set (a := Z.log2 (Qnum x)) in *. set (b := Z.log2 (Zpos (Qden x))) in *.
  rewrite Z.pow_succ_r in Ha2, Hb2 by assumption.
  assert (HA : pow2 a == inject_Z (2 ^ a)) by (apply pow2_nonneg_Z; assumption).
  assert (HB : pow2 b == inject_Z (2 ^ b)) by (apply pow2_nonneg_Z; assumption).
  assert (E1 : pow2 (e0 - 1) * (2 * pow2 b) == pow2 a).
  { unfold e0. replace (a - b - 1)%Z with (a + (- b) + (-1))%Z by ring.
    rewrite !pow2_add. unfold pow2. rewrite Qpower_opp.
    change (2 ^ (-1)) with (1 # 2).
    assert (Hnz : ~ 2 ^ b == 0) by (apply Qpower_not_0; discriminate).
    set (PA := 2 ^ a) in *. set (PB := 2 ^ b) in *. field. exact Hnz. }
  assert (E2 : pow2 (e0 + 1) * pow2 b == 2 * pow2 a).
  { unfold e0. replace (a - b + 1)%Z with (a + (- b) + 1)%Z by ring.
    rewrite !pow2_add. unfold pow2. rewrite Qpower_opp.
    change (2 ^ 1) with 2.
    assert (Hnz : ~ 2 ^ b == 0) by (apply Qpower_not_0; discriminate).
    set (PA := 2 ^ a) in *. set (PB := 2 ^ b) in *. field. exact Hnz. }
  assert (Ex : x * inject_Z (Zpos (Qden x)) == inject_Z (Qnum x)).
  { destruct x as [n d]; simpl. rewrite (Qmake_Qdiv n d). field. discriminate. }
  rewrite Zle_Qle in Ha1, Hb1. rewrite Zlt_Qlt in Ha2, Hb2.
  rewrite inject_Z_mult in Ha2, Hb2. change (inject_Z 2) with 2 in *.
  rewrite <- HA in Ha1, Ha2. rewrite <- HB in Hb1, Hb2.
  pose proof (pow2_pos a). pose proof (pow2_pos b).
  pose proof (pow2_pos (e0 - 1)). pose proof (pow2_pos (e0 + 1)).
  set (N := inject_Z (Qnum x)) in *. set (D := inject_Z (Zpos (Qden x))) in *.
  set (PA := pow2 a) in *. set (PB := pow2 b) in *.
  set (L := pow2 (e0 - 1)) in *. set (U := pow2 (e0 + 1)) in *.
  split.
  - apply (Qmult_le_r _ _ D); [lra|]. rewrite Ex.
    apply Qle_trans with (L * (2 * PB)); [|lra].
    apply Qmult_le_l; lra.
  - apply (Qmult_lt_r _ _ D); [lra|]. rewrite Ex.
    apply Qlt_le_trans with (U * PB); [lra|].
    apply Qmult_le_l; lra.
Qed.

Lemma ilog2_spec x : 0 < x -> pow2 (ilog2 x) <= x /\ x < pow2 (ilog2 x + 1).
Proof.
  intros Hx. destruct (ilog2_rough x Hx) as [Hl Hu]. unfold ilog2.
  destruct (Qle_bool _ _) eqn:E.
  - apply Qle_bool_iff in E. split; assumption.
  - split; [assumption|].
    replace (_ - 1 + 1)%Z with (Z.log2 (Qnum x) - Z.log2 (Zpos (Qden x)))%Z by ring.
    apply Qnot_le_lt. intros C. apply Qle_bool_iff in C. congruence.
Qed.

Lemma ilog2_mono x y : 0 < x -> x <= y -> (ilog2 x <= ilog2 y)%Z.
Proof.
  intros Hx Hxy. assert (Hy : 0 < y) by lra.
  destruct (ilog2_spec x Hx) as [A _]. destruct (ilog2_spec y Hy) as [_ B].
  assert (pow2 (ilog2 x) < pow2 (ilog2 y + 1)) by lra.
  apply pow2_lt_inv in H. lia.
Qed.

Lemma ilog2_lt x n : 0 < x -> x < pow2 n -> (ilog2 x < n)%Z.
Proof.
  intros Hx H. destruct (ilog2_spec x Hx) as [A _].
  apply pow2_lt_inv. lra.
Qed.

Lemma scaled_mul x q : x / pow2 q * pow2 q == x.
Proof. field. apply Qpower_not_0. discriminate. Qed.

Lemma round_pos_err x :
  round_pos x - (1 # 2) * pow2 (ulp_exp x) <= x /\
  x <= round_pos x + (1 # 2) * pow2 (ulp_exp x).
Proof.
  unfold round_pos. set (q := ulp_exp x).
  pose proof (rne_err (x / pow2 q)) as [A B].
  pose proof (pow2_pos q) as Hp. pose proof (scaled_mul x q) as E.
  set (t := x / pow2 q) in *. set (P := pow2 q) in *. set (m := inject_Z (rne t)) in *.
  assert (A' : (m - (1 # 2)) * P <= t * P) by (apply Qmult_le_r; assumption).
  assert (B' : t * P <= (m + (1 # 2)) * P) by (apply Qmult_le_r; assumption).
  split; lra.
Qed.

Lemma ulp_exp_mono x y : 0 < x -> x <= y -> (ulp_exp x <= ulp_exp y)%Z.
Proof. intros Hx H. unfold ulp_exp. pose proof (ilog2_mono x y Hx H). lia. Qed.

Lemma round_pos_upper x : 0 < x -> round_pos x <= pow2 (ulp_exp x + 53).
Proof.
  intros Hx. unfold round_pos. set (q := ulp_exp x).
  destruct (ilog2_spec x Hx) as [_ Hu].
  assert (Hq : (ilog2 x + 1 <= q + 53)%Z) by (unfold q, ulp_exp; lia).
  pose proof (pow2_le _ _ Hq) as Hle.
  assert (E : pow2 (q + 53) == pow2 53 * pow2 q) by (rewrite Z.add_comm; apply pow2_add).
  rewrite E in Hle |- *.
  pose proof (pow2_pos q) as Hp.
  assert (Ht : x / pow2 q <= inject_Z (2 ^ 53)).
  { apply Qle_shift_div_r; [assumption|]. rewrite <- pow2_nonneg_Z by lia. lra. }
  apply rne_le_Z in Ht. rewrite Zle_Qle in Ht. rewrite <- pow2_nonneg_Z in Ht by lia.
  apply Qmult_le_r; assumption.
Qed.

Lemma round_pos_lower x : 0 < x -> (-1022 <= ilog2 x)%Z -> pow2 (ilog2 x) <= round_pos x.
Proof.
  intros Hx Hn. unfold round_pos.
  assert (Eq : ulp_exp x = (ilog2 x - 52)%Z) by (unfold ulp_exp; lia).
  rewrite Eq. set (q := (ilog2 x - 52)%Z).
  destruct (ilog2_spec x Hx) as [Hl _].
  assert (E : pow2 (ilog2 x) == pow2 52 * pow2 q).
  { rewrite <- pow2_add. unfold q. replace (52 + (ilog2 x - 52))%Z with (ilog2 x) by ring. reflexivity. }
  rewrite E in Hl |- *.
  pose proof (pow2_pos q) as Hp.
  assert (Ht : inject_Z (2 ^ 52) <= x / pow2 q).
  { apply Qle_shift_div_l; [assumption|]. rewrite <- pow2_nonneg_Z by lia. lra. }
  apply rne_ge_Z in Ht. rewrite Zle_Qle in Ht. rewrite <- pow2_nonneg_Z in Ht by lia.
  apply Qmult_le_r; assumption.
Qed.

Lemma round_pos_mono x y : 0 < x -> x <= y -> round_pos x <= round_pos y.
Proof.
  intros Hx Hxy. assert (Hy : 0 < y) by lra.
  pose proof (ulp_exp_mono x y Hx Hxy) as Hq.
  destruct (Z.eq_dec (ulp_exp x) (ulp_exp y)) as [E|N].
  - unfold round_pos. rewrite E. set (q := ulp_exp y).
    pose proof (pow2_pos q) as Hp.
    apply Qmult_le_r; [assumption|]. rewrite <- Zle_Qle. apply rne_mono.
    apply Qmult_le_r with (z := pow2 q); [assumption|]. rewrite !scaled_mul. exact Hxy.
  - apply Qle_trans with (pow2 (ulp_exp x + 53)); [apply round_pos_upper, Hx|].
    assert (Hn : (-1022 <= ilog2 y)%Z /\ (ulp_exp x + 53 <= ilog2 y)%Z)
      by (unfold ulp_exp in *; lia).
    apply Qle_trans with (pow2 (ilog2 y)); [apply pow2_le; lia|].
    apply round_pos_lower; [assumption|lia].
Qed.

Lemma round_pos_nonneg x : 0 < x -> 0 <= round_pos x.
Proof.
  intros Hx. unfold round_pos. apply Qmult_le_0_compat; [|apply Qlt_le_weak, pow2_pos].
  change 0 with (inject_Z 0). rewrite <- Zle_Qle. apply rne_ge_Z.
  apply Qle_shift_div_l; [apply pow2_pos|]. change (inject_Z 0) with 0. lra.
Qed.

Lemma cents_eq c : cents c == inject_Z c * (1 # 100).
Proof. unfold cents. change (10 ^ (-2)) with (1 # 100). reflexivity. Qed.

Lemma cents_le a b : (a <= b)%Z -> cents a <= cents b.
Proof. intros H. rewrite !cents_eq. rewrite Zle_Qle in H. lra. Qed.

Lemma cents_pos c : (0 < c)%Z -> 0 < cents c.
Proof. intros H. rewrite cents_eq. rewrite Zlt_Qlt in H. change (inject_Z 0) with 0 in H. lra. Qed.

Lemma of_Q_pos x : 0 < x ->
  of_Q x = if Qle_bool (pow2 1024) (round_pos x) then Inf false else Fin (Qred (round_pos x)).
Proof.
  intros H. unfold of_Q. rewrite (proj1 (Qgt_alt x 0) H). reflexivity.
Qed.

Lemma of_Q_neg x : x < 0 ->
  of_Q x = if Qle_bool (pow2 1024) (round_pos (- x)) then Inf true
           else Fin (Qred (- round_pos (- x))).
Proof.
  intros H. unfold of_Q. rewrite (proj1 (Qlt_alt x 0) H). reflexivity.
Qed.

Lemma of_Q_zero x : x == 0 -> of_Q x = Fin 0.
Proof. intros H. unfold of_Q. rewrite (proj1 (Qeq_alt x 0) H). reflexivity. Qed.

(** One hundredth and one thousand million, rounded. *)
Lemma round_pos_cent : 0 < round_pos (cents 1).
Proof. vm_compute. reflexivity. Qed.

Lemma round_pos_max : round_pos (cents 100000000000) == 1000000000.
Proof. vm_compute. reflexivity. Qed.

Lemma round_pos_above_max : 1000000000 < round_pos (cents 100000000001).
Proof. vm_compute. reflexivity. Qed.

Lemma Qle_bool_false x y : y < x -> Qle_bool x y = false.
Proof.
  intros H. destruct (Qle_bool x y) eqn:E; [|reflexivity].
  apply Qle_bool_iff in E. lra.
Qed.

Lemma Qle_bool_true x y : x <= y -> Qle_bool x y = true.
Proof. apply Qle_bool_iff. Qed.

Lemma pow2_1024_big : 1000000000 < pow2 1024.
Proof. vm_compute. reflexivity. Qed.

(** A positive amount of at most 10^9 is read as a finite positive number of
    at most 10^9. *)
Lemma of_Q_cents_small c : (0 < c <= 100000000000)%Z ->
  of_Q (cents c) = Fin (Qred (round_pos (cents c))) /\
  0 < round_pos (cents c) <= 1000000000.
Proof.
  intros [H0 H1]. pose proof (cents_pos c H0) as Hp.
  assert (Hlo : round_pos (cents 1) <= round_pos (cents c)).
  { apply round_pos_mono; [apply cents_pos; lia | apply cents_le; lia]. }
  assert (Hhi : round_pos (cents c) <= round_pos (cents 100000000000)).
  { apply round_pos_mono; [exact Hp | apply cents_le; lia]. }
  pose proof round_pos_cent. pose proof round_pos_max as Hm. pose proof pow2_1024_big.
  rewrite Hm in Hhi.
  split; [|split; lra].
  rewrite of_Q_pos by exact Hp. rewrite Qle_bool_false by lra. reflexivity.
Qed.

Lemma leb_zero_cents c : leb (of_Q (cents c)) (of_Z 0) = (c <=? 0)%Z.
Proof.
  change (of_Z 0) with (Fin 0).
  destruct (Z.leb_spec c 0%Z) as [H|H].
  - destruct (Z.eq_dec c 0%Z) as [->|N]; [reflexivity|].
    assert (Hn : cents c < 0).
    { rewrite cents_eq. assert (c < 0)%Z by lia. rewrite Zlt_Qlt in H0.
      change (inject_Z 0) with 0 in H0. lra. }
    rewrite of_Q_neg by exact Hn.
    destruct (Qle_bool _ _); [reflexivity|]. simpl.
    apply Qle_bool_true. rewrite Qred_correct.
    assert (0 <= round_pos (- cents c)) by (apply round_pos_nonneg; lra). lra.
  - pose proof (cents_pos c H) as Hp. rewrite of_Q_pos by exact Hp.
    destruct (Qle_bool _ _); [reflexivity|]. simpl.
    apply Qle_bool_false. rewrite Qred_correct.
    assert (round_pos (cents 1) <= round_pos (cents c)).
    { apply round_pos_mono; [apply cents_pos; lia | apply cents_le; lia]. }
    pose proof round_pos_cent. lra.
Qed.

Lemma gtb_max_cents c :
  gtb (of_Q (cents c)) (of_Z 1000000000) = (100000000000 <? c)%Z.
Proof.
  change (of_Z 1000000000) with (Fin 1000000000). unfold gtb.
  destruct (Z.ltb_spec 100000000000%Z c) as [H|H].
  - assert (Hp : 0 < cents c) by (apply cents_pos; lia).
    rewrite of_Q_pos by exact Hp.
    destruct (Qle_bool _ _); [reflexivity|]. simpl.
    rewrite Qle_bool_false; [reflexivity|]. rewrite Qred_correct.
    assert (round_pos (cents 100000000001) <= round_pos (cents c)).
    { apply round_pos_mono; [apply cents_pos; lia | apply cents_le; lia]. }
    pose proof round_pos_above_max. lra.
  - destruct (Z.ltb_spec 0%Z c) as [H0|H0].
    + destruct (of_Q_cents_small c ltac:(lia)) as [-> [_ Hle]]. simpl.
      rewrite Qle_bool_true; [reflexivity|]. rewrite Qred_correct. exact Hle.
    + destruct (Z.eq_dec c 0%Z) as [->|N]; [reflexivity|].
      assert (Hn : cents c < 0).
      { rewrite cents_eq. assert (c < 0)%Z by lia. rewrite Zlt_Qlt in H1.
        change (inject_Z 0) with 0 in H1. lra. }
      rewrite of_Q_neg by exact Hn.
      destruct (Qle_bool _ _); [reflexivity|]. simpl.
      rewrite Qle_bool_true; [reflexivity|]. rewrite Qred_correct.
      assert (0 <= round_pos (- cents c)) by (apply round_pos_nonneg; lra). lra.
Qed.

Lemma ulp_exp_small x : 0 < x -> x < pow2 30 -> pow2 (ulp_exp x) <= 1 # 8388608.
Proof.
  intros Hx H. pose proof (ilog2_lt x 30 Hx H) as Hl.
  change (1 # 8388608) with (pow2 (-23)). apply pow2_le. unfold ulp_exp. lia.
Qed.

Lemma cents_lt_pow2_30 c : (c <= 100000000000)%Z -> cents c < pow2 30.
Proof.
  intros H. apply Qle_lt_trans with (cents 100000000000); [apply cents_le, H|].
  vm_compute. reflexivity.
Qed.

(** Two amounts of at most 10^9 that differ by a hundredth or more are read
    as different numbers, in the same order. *)
Lemma round_pos_cents_lt a b : (0 < a < b)%Z -> (b <= 100000000000)%Z ->
  round_pos (cents a) < round_pos (cents b).
Proof.
  intros [Ha Hab] Hb.
  assert (Hpa : 0 < cents a) by (apply cents_pos; lia).
  assert (Hpb : 0 < cents b) by (apply cents_pos; lia).
  pose proof (ulp_exp_small _ Hpa (cents_lt_pow2_30 a ltac:(lia))) as Ua.
  pose proof (ulp_exp_small _ Hpb (cents_lt_pow2_30 b Hb)) as Ub.
  destruct (round_pos_err (cents a)) as [Ea _].
  destruct (round_pos_err (cents b)) as [_ Eb].
  assert (Hd : cents a + (1 # 100) <= cents b).
  { rewrite !cents_eq. assert (a + 1 <= b)%Z by lia. rewrite Zle_Qle in H.
    rewrite inject_Z_plus in H. change (inject_Z 1) with 1 in H. lra. }
  lra.
Qed.

Lemma geb_cents a b : (0 <= a)%Z -> (0 < b <= 100000000000)%Z ->
  geb (of_Q (cents a)) (of_Q (cents b)) = (b <=? a)%Z.
Proof.
  intros Ha Hb. unfold geb.
  destruct (of_Q_cents_small b Hb) as [Eb [Hb0 Hb1]]. rewrite Eb.
  destruct (Z.eq_dec a 0%Z) as [->|Na].
  - change (of_Q (cents 0)) with (Fin 0). simpl.
    rewrite Qle_bool_false by (rewrite Qred_correct; exact Hb0).
    symmetry. apply Z.leb_gt. lia.
  - assert (Hpa : 0 < cents a) by (apply cents_pos; lia).
    assert (Hpb : 0 < cents b) by (apply cents_pos; lia).
    rewrite of_Q_pos by exact Hpa.
    destruct (Z.leb_spec b a) as [H|H].
    + assert (round_pos (cents b) <= round_pos (cents a))
        by (apply round_pos_mono; [exact Hpb | apply cents_le, H]).
      destruct (Qle_bool _ _); [reflexivity|]. simpl.
      apply Qle_bool_true. rewrite !Qred_correct. assumption.
    + pose proof (round_pos_cents_lt a b ltac:(lia) ltac:(lia)) as Hlt.
      pose proof pow2_1024_big.
      rewrite Qle_bool_false by lra. simpl.
      apply Qle_bool_false. rewrite !Qred_correct. exact Hlt.
Qed.


(** Rounding depends on the value only, not on the fraction that denotes
    it. *)
Lemma ilog2_proper x y : 0 < x -> x == y -> ilog2 x = ilog2 y.
Proof.
  intros Hx E. assert (Hy : 0 < y) by lra.
  destruct (ilog2_spec x Hx) as [A B]. destruct (ilog2_spec y Hy) as [C D].
  assert (H1 : pow2 (ilog2 x) < pow2 (ilog2 y + 1)) by lra.
  assert (H2 : pow2 (ilog2 y) < pow2 (ilog2 x + 1)) by lra.
  apply pow2_lt_inv in H1, H2. lia.
Qed.

Lemma rne_proper t u : t == u -> rne t = rne u.
Proof. intros E. apply Z.le_antisymm; apply rne_mono; lra. Qed.

Lemma round_pos_proper x y : 0 < x -> x == y -> round_pos x == round_pos y.
Proof.
  intros Hx E. unfold round_pos, ulp_exp. rewrite (ilog2_proper x y Hx E).
  set (q := (Z.max (ilog2 y) (-1022) - 52)%Z).
  rewrite (rne_proper (x / pow2 q) (y / pow2 q)); [reflexivity|].
  apply Qmult_comp; [exact E|reflexivity].
Qed.

Lemma Qle_bool_ext a b b' : b == b' -> Qle_bool a b = Qle_bool a b'.
Proof.
  intros E. destruct (Qle_bool a b) eqn:H1, (Qle_bool a b') eqn:H2; try reflexivity.
  - apply Qle_bool_iff in H1. assert (H3 : a <= b') by lra.
    apply Qle_bool_iff in H3. congruence.
  - apply Qle_bool_iff in H2. assert (H3 : a <= b) by lra.
    apply Qle_bool_iff in H3. congruence.
Qed.

Lemma of_Q_proper x y : x == y -> of_Q x = of_Q y.
Proof.
  intros E. unfold of_Q. rewrite <- (Qcompare_comp x y E 0 0 (Qeq_refl 0)).
  destruct (Qcompare_spec x 0) as [H|H|H].
  - reflexivity.
  - assert (Hn : 0 < - x) by lra.
    assert (En : - x == - y) by lra.
    pose proof (round_pos_proper _ _ Hn En) as R.
    rewrite (Qle_bool_ext (pow2 1024) _ _ R).
    destruct (Qle_bool _ _); [reflexivity|]. f_equal. apply Qred_complete.
    lra.
  - pose proof (round_pos_proper _ _ H E) as R.
    rewrite (Qle_bool_ext (pow2 1024) _ _ R).
    destruct (Qle_bool _ _); [reflexivity|]. f_equal. apply Qred_complete. exact R.
Qed.

End Binary64Facts.

(** * Facts about numerals, [parseFloat] and [Decimal] *)
Section NumeralFacts.

Import Numeral.

Lemma span_digits_all s : Forall (fun a => is_digit a = true) (fst (span_digits s)).
Proof.
  induction s as [|a r IH]; simpl; [constructor|].
  destruct (is_digit a) eqn:E; [|constructor].
  destruct (span_digits r) as [ds rest]. simpl in *. constructor; assumption.
Qed.

Lemma digit_val_nonneg a : is_digit a = true -> 0 <= digit_val a.
Proof.
  unfold is_digit, digit_val. intros H. apply andb_true_iff in H as [H _].
  apply Z.leb_le in H. lia.
Qed.

Lemma digits_value_nonneg ds :
  Forall (fun a => is_digit a = true) ds -> 0 <= digits_value ds.
Proof.
  unfold digits_value. intros H.
  assert (G : forall acc, 0 <= acc ->
            0 <= fold_left (fun acc d => 10 * acc + digit_val d) ds acc).
  { induction H as [|a l Ha _ IH]; intros acc Hacc; simpl; [exact Hacc|].
    apply IH. pose proof (digit_val_nonneg a Ha). lia. }
  apply G. lia.
Qed.

(** A numeral starts with a digit or with the decimal point. *)
Lemma scan_unsigned_first s x :
  scan_unsigned s = Some x ->
  exists a r, s = String a r /\ (is_digit a = true \/ a = "."%char).
Proof.
  destruct s as [|a r]; [discriminate|]. intros H. exists a, r. split; [reflexivity|].
  destruct (is_digit a) eqn:E; [left; reflexivity|right].
  unfold scan_unsigned in H. simpl in H. rewrite E in H.
  destruct (Ascii.eqb_spec a "."%char) as [->|N]; [reflexivity|].
  exfalso. revert H.
  destruct a as [[|] [|] [|] [|] [|] [|] [|] [|]]; try discriminate; congruence.
Qed.

Lemma first_char_plain a : is_digit a = true \/ a = "."%char ->
  (forall r, skip_ws (String a r) = String a r) /\
  Nat.eqb (nat_of_ascii a) 45 = false /\
  Nat.eqb (nat_of_ascii a) 43 = false /\
  (forall r, is_Infinity (String a r) = false) /\
  (forall r, String.eqb (String a r) "Infinity" = false) /\
  (forall r, String.eqb (String a r) "NaN" = false).
Proof.
  assert (G : forall r, is_ws a = false -> (forall b, is_ws2 a b = false) ->
              (forall b c, is_ws3 a b c = false) -> skip_ws (String a r) = String a r).
  { intros r W W2 W3. cbn [skip_ws]. rewrite W.
    destruct r as [|b r2]; [reflexivity|]. rewrite W2.
    destruct r2 as [|c r3]; [reflexivity|]. rewrite W3. reflexivity. }
  intros [H| ->].
  - destruct a as [[|] [|] [|] [|] [|] [|] [|] [|]]; try discriminate H;
      (split; [intros r; apply G; reflexivity|]); repeat split; reflexivity.
  - split; [intros r; apply G; reflexivity|]. repeat split; reflexivity.
Qed.

Lemma scan_unsigned_plain s x :
  scan_unsigned s = Some x ->
  skip_ws s = s /\ scan_sign s = (false, s) /\ is_Infinity s = false /\
  String.eqb s "Infinity" = false /\ String.eqb s "NaN" = false.
Proof.
  intros H. destruct (scan_unsigned_first s x H) as (a & r & -> & Ha).
  destruct (first_char_plain a Ha) as (W & S1 & S2 & I1 & I2 & I3).
  split; [apply W|].
  split; [unfold scan_sign; rewrite S1, S2; reflexivity|].
  auto.
Qed.

Lemma scan_unsigned_nonneg s m e rest :
  scan_unsigned s = Some (m, e, rest) -> 0 <= m.
Proof.
  unfold scan_unsigned. intros H.
  pose proof (span_digits_all s) as Hip.
  destruct (span_digits s) as [ip r1]. simpl in Hip.
  assert (Hc : forall fp, Forall (fun a => is_digit a = true) fp ->
                 0 <= digits_value (ip ++ fp)).
  { intros fp Hfp. apply digits_value_nonneg, Forall_app. split; assumption. }
  destruct r1 as [|a r].
  - destruct ip; [discriminate|].
    destruct (scan_exponent _) as [ex r3]. injection H as <- _ _. apply Hc. constructor.
  - pose proof (span_digits_all r) as Hfp.
    destruct (span_digits r) as [fp r2]. simpl in Hfp.
    destruct a as [[|] [|] [|] [|] [|] [|] [|] [|]]; cbv beta iota in H;
      destruct ip; try destruct fp; try discriminate H;
      destruct (scan_exponent _) as [ex r3]; injection H as <- _ _; apply Hc;
      first [assumption | constructor].
Qed.

Lemma money_scale2 s c : scan_unsigned s = Some (c, -2, EmptyString) -> money s c.
Proof.
  intros H. exists c, (-2). split; [exact H|]. split; [auto|].
  change (10 ^ (2 + -2)) with 1. lia.
Qed.

Example money_two_decimals : money "1000.00" 100000.
Proof. apply money_scale2. reflexivity. Qed.

Example money_one_decimal : money "99.9" 9990.
Proof. exists 999, (-1). repeat split; auto. Qed.

Example money_no_decimals : money "100" 10000.
Proof. exists 100, 0. repeat split; auto. Qed.

Lemma money_nonneg s c : money s c -> 0 <= c.
Proof.
  intros (m & e & H & He & Hc). subst c. pose proof (scan_unsigned_nonneg _ _ _ _ H).
  destruct He as [-> | [-> | ->]]; cbn; lia.
Qed.

Lemma money_value m e : e = 0 \/ e = -1 \/ e = -2 ->
  (inject_Z m * Qpower 10 e == cents (m * 10 ^ (2 + e)))%Q.
Proof.
  unfold cents. change (Qpower 10 (-2)) with (1 # 100)%Q.
  intros [-> | [-> | ->]].
  - change (Qpower 10 0) with 1%Q. change (10 ^ (2 + 0)) with 100.
    unfold Qeq. cbn [Qnum Qden Qmult inject_Z]. lia.
  - change (Qpower 10 (-1)) with (1 # 10)%Q. change (10 ^ (2 + -1)) with 10.
    unfold Qeq. cbn [Qnum Qden Qmult inject_Z]. lia.
  - change (Qpower 10 (-2)) with (1 # 100)%Q. change (10 ^ (2 + -2)) with 1.
    unfold Qeq. cbn [Qnum Qden Qmult inject_Z]. lia.
Qed.

Lemma money_parseFloat s c : money s c -> parseFloat s = Binary64.of_Q (cents c).
Proof.
  intros (m & e & H & He & Hc). subst c.
  destruct (scan_unsigned_plain s _ H) as (W & S & I & _).
  unfold parseFloat. rewrite W, S, I, H.
  apply Binary64Facts.of_Q_proper, money_value, He.
Qed.

(** The [Decimal] read from such a string has scale 0, 1 or 2. *)
Lemma money_Decimal s c : money s c ->
  exists m sc, Decimal.new s = Some (Decimal.Fin m sc) /\
               (sc = 0 \/ sc = 1 \/ sc = 2) /\ c = m * 10 ^ (2 - sc).
Proof.
  intros (m & e & H & He & Hc). subst c.
  destruct (scan_unsigned_plain s _ H) as (_ & S & _ & I1 & I2).
  exists m, (- e). unfold Decimal.new. rewrite S, I1, I2, H.
  split; [reflexivity|]. split; [lia|]. f_equal. f_equal. lia.
Qed.

(** Validation of a scale-2 amount: the two guards decide [c <= 0] and
    [10^9 < c / 100] exactly. *)
Lemma money_guards s c : money s c ->
  Binary64.leb (parseFloat s) (Binary64.of_Z 0) = (c <=? 0) /\
  Binary64.gtb (parseFloat s) (Binary64.of_Z 1000000000) = (100000000000 <? c).
Proof.
  intros H. rewrite (money_parseFloat s c H). split.
  - apply Binary64Facts.leb_zero_cents.
  - apply Binary64Facts.gtb_max_cents.
Qed.

(** [hasAvailableBalance] on scale-2 strings is the exact comparison, for an
    amount that passed validation. *)
Lemma hasAvailableBalance_exact fromWallet amount cb ca :
  money (w_balance fromWallet) cb -> money amount ca ->
  0 < ca <= 100000000000 ->
  hasAvailableBalance fromWallet amount = (ca <=? cb).
Proof.
  intros Hb Ha Hr. unfold hasAvailableBalance.
  rewrite (money_parseFloat _ _ Hb), (money_parseFloat _ _ Ha).
  apply Binary64Facts.geb_cents; [apply (money_nonneg _ _ Hb)|exact Hr].
Qed.

End NumeralFacts.

(** * Facts about [Decimal]: arithmetic on amounts of money is exact *)
Module DecimalFacts.
Import Decimal.

Lemma count_digits_le fuel : forall n k,
  0 <= n < 10 ^ k -> 1 <= k -> count_digits fuel n <= k.
Proof.
  induction fuel as [|f IH]; intros n k Hn Hk; simpl; [exact Hk|].
  destruct (Z.ltb_spec n 10) as [H|H]; [exact Hk|].
  assert (Hk2 : 2 <= k).
  { destruct (Z.eq_dec k 1) as [->|]; [|lia]. change (10 ^ 1) with 10 in Hn. lia. }
  assert (E : 10 ^ k = 10 * 10 ^ (k - 1)).
  { rewrite <- Z.pow_succ_r by lia. f_equal. lia. }
  assert (n / 10 < 10 ^ (k - 1)) by (apply Z.div_lt_upper_bound; lia).
  assert (0 <= n / 10) by (apply Z.div_pos; lia).
  specialize (IH (n / 10) (k - 1) ltac:(lia) ltac:(lia)). lia.
Qed.

Lemma finalise_small rm c s :
  Z.abs c < 10 ^ precision -> finalise rm (Fin c s) = Fin c s.
Proof.
  intros H. unfold finalise, num_digits.
  assert (L : count_digits (Z.to_nat (Z.log2 (Z.abs c))) (Z.abs c) <= precision).
  { apply count_digits_le; [lia | unfold precision; lia]. }
  apply Z.leb_le in L. rewrite L. reflexivity.
Qed.

(** Evaluate the closed powers of ten and maxima of a goal. *)
Ltac eval_scales :=
  repeat match goal with
         | |- context [Z.max ?a ?b] =>
             let v := eval vm_compute in (Z.max a b) in change (Z.max a b) with v
         end;
  repeat match goal with
         | H : context [10 ^ ?k] |- _ =>
             lazymatch k with
             | precision => fail
             | _ => let v := eval vm_compute in (10 ^ k) in
                    progress change (10 ^ k) with v in *
             end
         | |- context [10 ^ ?k] =>
             let v := eval vm_compute in (10 ^ k) in
             progress change (10 ^ k) with v in *
         end.

Ltac to_two_decimals :=
  eval_scales;
  rewrite finalise_small by (unfold precision in *; lia);
  unfold toFixed;
  repeat match goal with
         | |- context [?a <=? Z.of_nat 2] =>
             let v := eval vm_compute in (a <=? Z.of_nat 2) in
             change (a <=? Z.of_nat 2) with v
         end;
  cbv iota; eval_scales;
  f_equal; first [apply eq_true_iff_eq; rewrite !Z.ltb_lt; lia | f_equal; lia | lia].

(** Difference and sum of two values of scale at most 2, printed with two
    decimals: [c1] and [c2] are the values in hundredths. *)
Lemma toFixed_minus_money rm m1 s1 m2 s2 :
  s1 = 0 \/ s1 = 1 \/ s1 = 2 -> s2 = 0 \/ s2 = 1 \/ s2 = 2 ->
  let c1 := m1 * 10 ^ (2 - s1) in
  let c2 := m2 * 10 ^ (2 - s2) in
  Z.abs (c1 - c2) < 10 ^ precision ->
  toFixed rm 2 (minus rm (Fin m1 s1) (Fin m2 s2))
    = print_fixed 2 (c1 - c2 <? 0) (Z.abs (c1 - c2)).
Proof.
  intros H1 H2 c1 c2 Hb. subst c1 c2. unfold minus, align.
  destruct H1 as [-> | [-> | ->]], H2 as [-> | [-> | ->]]; to_two_decimals.
Qed.

Lemma toFixed_plus_money rm m1 s1 m2 s2 :
  s1 = 0 \/ s1 = 1 \/ s1 = 2 -> s2 = 0 \/ s2 = 1 \/ s2 = 2 ->
  let c1 := m1 * 10 ^ (2 - s1) in
  let c2 := m2 * 10 ^ (2 - s2) in
  Z.abs (c1 + c2) < 10 ^ precision ->
  toFixed rm 2 (plus rm (Fin m1 s1) (Fin m2 s2))
    = print_fixed 2 (c1 + c2 <? 0) (Z.abs (c1 + c2)).
Proof.
  intros H1 H2 c1 c2 Hb. subst c1 c2. unfold plus, align.
  destruct H1 as [-> | [-> | ->]], H2 as [-> | [-> | ->]]; to_two_decimals.
Qed.

End DecimalFacts.

(** * The service, step by step *)

#[local] Open Scope M_scope.

(** Reduce a run as far as the next test on the world. *)
Ltac mred :=
  unfold Decimal_new, walletModel_update, transactionLogModel_create, redis_set_nx in *;
  cbn [bind ret throw gets modify catch finally transaction rollback emit
       set_wallets set_logs set_ledger set_redis_idempotency set_redis_lock
       set_next_uuid advance
       wallets transaction_logs ledger_entries redis_idempotency redis_lock now
       next_uuid decimal_rounding trace fst snd
       walletModel_findByPk walletModel_update transactionLogModel_create
       transactionLogModel_findOne transactionLog_update ledgerEntryModel_create
       redis_get redis_setex redis_set_nx redis_del
       Decimal_new createLedgerEntries cacheResult acquireLock releaseLock
       negb orb andb Z.eqb Pos.eqb] in *.

Lemma bind_apply {A B} (m : M A) (k : A -> M B) (w : World) :
  bind m k w = match m w with
               | (inr a, w') => k a w'
               | (inl e, w') => (inl e, w')
               end.
Proof. reflexivity. Qed.

(** Case analysis on the next test of a run recorded in hypothesis [H]. *)
Ltac mcase H :=
  match type of H with
  | context [match ?x with _ => _ end] =>
      lazymatch x with
      | context [match _ with _ => _ end] => fail
      | _ => idtac
      end;
      destruct x eqn:?; mred; try discriminate H
  end.

(** One step: a case analysis, or entering the next [bind]. *)
Ltac mstep H :=
  first [ mcase H | rewrite bind_apply in H; cbv beta in H; mred ].

(** Closed goals: conjunctions of equations between computed values. *)
Ltac conj_compute :=
  repeat match goal with |- _ /\ _ => split end; vm_compute; reflexivity.

(** All the runs recorded in [H], one goal for each path. *)
Ltac msteps H := repeat mstep H; unfold ret, throw in H.

(** The new events of a run, read off the final trace. *)
Ltac new_events :=
  mred; rewrite <- ?app_assoc; cbn [app]; reflexivity.

Section ExecuteTransfer.

Variables (transactionLog : TransactionLog) (transferDto : TransferDto).

#[local] Abbreviation key := (t_idempotencyKey transactionLog).
#[local] Abbreviation from := (fromWalletId transferDto).
#[local] Abbreviation to := (toWalletId transferDto).

(** What a successful run of the callback did. *)
Lemma executeTransfer_callback_inr w r w' :
  wallets_wf w ->
  executeTransfer_callback transactionLog transferDto w = (inr r, w') ->
  exists fromW toW amountD fromD toD,
    let rm := decimal_rounding w in
    let newFrom := Decimal.toFixed rm 2 (Decimal.minus rm fromD amountD) in
    let newTo := Decimal.toFixed rm 2 (Decimal.plus rm toD amountD) in
    let debit := mkLedgerEntry (t_id transactionLog) from DEBIT (amount transferDto)
                   (or_default (currency transferDto) "NGN") newFrom
                   (debit_description (or_default (description transferDto) "")) in
    let credit := mkLedgerEntry (t_id transactionLog) to CREDIT (amount transferDto)
                    (or_default (currency transferDto) "NGN") newTo
                    (or_default (description transferDto) "") in
    from <> to /\
    wallets w !! from = Some fromW /\ wallets w !! to = Some toW /\
    isActive fromW = true /\ isActive toW = true /\
    hasAvailableBalance fromW (amount transferDto) = true /\
    Decimal.new (amount transferDto) = Some amountD /\
    Decimal.new (w_balance fromW) = Some fromD /\
    Decimal.new (w_balance toW) = Some toD /\
    r = mkTransferResponseDto true (t_id transactionLog) COMPLETED
          (mkWalletBalance from newFrom) (mkWalletBalance to newTo) (now w) /\
    wallets w' = <[to := with_balance toW newTo (w_version toW + 1)]>
                   (<[from := with_balance fromW newFrom (w_version fromW + 1)]> (wallets w)) /\
    ledger_entries w' = (ledger_entries w ++ [debit; credit])%list /\
    transaction_logs w' =
      alter (with_status COMPLETED None (Some (now w)) (now w)) key
        (alter (with_status PROCESSING None None (now w)) key (transaction_logs w)) /\
    redis_idempotency w' = redis_idempotency w /\ redis_lock w' = redis_lock w /\
    now w' = now w /\ next_uuid w' = next_uuid w /\
    decimal_rounding w' = decimal_rounding w /\
    trace w' = (trace w ++
      [LogUpdate (t_id transactionLog) PROCESSING;
       WalletFindByPk from true; WalletFindByPk to true;
       WalletUpdate from (w_version fromW) 1; WalletUpdate to (w_version toW) 1;
       LedgerCreate debit; LedgerCreate credit;
       LogUpdate (t_id transactionLog) COMPLETED])%list.
Proof.
  intros Hwf H. unfold executeTransfer_callback, executeTransfer_callback_over in H. mred.
  msteps H. injection H as <- <-.
  pose proof (Hwf _ _ Heqo) as E0. pose proof (Hwf _ _ Heqo0) as E1.
  cbn beta in E0, E1. rewrite E0, E1 in *.
  rewrite Heqo in Heqo4. injection Heqo4 as <-.
  apply negb_false_iff in Heqb, Heqb0, Heqb1. apply Z.eqb_eq in Heqb3.
  assert (Hne : from <> to).
  { intros E. rewrite E in *. rewrite lookup_insert_eq in Heqo5.
    injection Heqo5 as <-. rewrite Heqo in Heqo0. injection Heqo0 as <-.
    cbn in Heqb3. lia. }
  rewrite lookup_insert_ne in Heqo5 by exact Hne.
  rewrite Heqo0 in Heqo5. injection Heqo5 as <-.
  exists w0, w1, t, t0, t1. cbv zeta.
  repeat (split; [first [assumption | reflexivity | new_events]|]).
  new_events.
Qed.

(** The managed transaction commits what the callback did, and undoes it when
    the callback throws. *)
Lemma executeTransfer_inr w r w' :
  executeTransfer transactionLog transferDto w = (inr r, w') ->
  exists w1,
    executeTransfer_callback transactionLog transferDto (emit TxBegin w) = (inr r, w1) /\
    w' = emit TxCommit w1.
Proof.
  unfold executeTransfer, transaction. intros H.
  destruct (executeTransfer_callback _ _ _) as [[e|a] w1]; [discriminate|].
  injection H as <- <-. exists w1. split; reflexivity.
Qed.

(** The callback leaves the cache, the clock and the identifier source
    alone. *)
Lemma executeTransfer_callback_frame w x w1 :
  executeTransfer_callback transactionLog transferDto w = (x, w1) ->
  redis_idempotency w1 = redis_idempotency w /\ redis_lock w1 = redis_lock w /\
  now w1 = now w /\ next_uuid w1 = next_uuid w.
Proof.
  intros H. unfold executeTransfer_callback, executeTransfer_callback_over in H. mred.
  msteps H; injection H as <- <-; repeat split.
Qed.

Lemma executeTransfer_inl w e w' :
  executeTransfer transactionLog transferDto w = (inl e, w') ->
  wallets w' = wallets w /\ transaction_logs w' = transaction_logs w /\
  ledger_entries w' = ledger_entries w /\
  redis_idempotency w' = redis_idempotency w /\ redis_lock w' = redis_lock w /\
  now w' = now w /\ next_uuid w' = next_uuid w.
Proof.
  unfold executeTransfer, transaction. intros H.
  destruct (executeTransfer_callback _ _ _) as [[e1|a] w1] eqn:E; [|discriminate].
  injection H as <- <-. apply executeTransfer_callback_frame in E as (A & B & C & D).
  cbn [emit rollback wallets transaction_logs ledger_entries redis_idempotency
       redis_lock now next_uuid] in *.
  repeat split; assumption.
Qed.

End ExecuteTransfer.

(** * The trace only grows *)

Create HintDb mono.

Lemma extends_refl w : extends w w.
Proof. exists []. symmetry. apply app_nil_r. Qed.

Lemma extends_trans w1 w2 w3 : extends w1 w2 -> extends w2 w3 -> extends w1 w3.
Proof.
  intros [e1 H1] [e2 H2]. exists (e1 ++ e2)%list. rewrite H2, H1. symmetry. apply app_assoc.
Qed.

Lemma extends_trace w w' : trace w' = trace w -> extends w w'.
Proof. intros H. exists []. rewrite H. symmetry. apply app_nil_r. Qed.

Lemma extends_emit e w w' : trace w' = trace w -> extends w (emit e w').
Proof. intros H. exists [e]. cbn. rewrite H. reflexivity. Qed.

Lemma extends_In e w w' : extends w w' -> In e (trace w) -> In e (trace w').
Proof. intros [evs ->] H. apply in_or_app. left. exact H. Qed.

Lemma monotone_ret {A} (a : A) : monotone (ret a).
Proof. intros w. apply extends_refl. Qed.

Lemma monotone_throw {A} e : monotone (@throw A e).
Proof. intros w. apply extends_refl. Qed.

Lemma monotone_gets {A} (f : World -> A) : monotone (gets f).
Proof. intros w. apply extends_refl. Qed.

Lemma bind_extends_first {A B} (m : M A) (k : A -> M B) w :
  (forall a, monotone (k a)) -> extends (snd (m w)) (snd (bind m k w)).
Proof.
  intros Hk. unfold bind. destruct (m w) as [[e|a] w1]; cbn [snd].
  - apply extends_refl.
  - apply Hk.
Qed.

Lemma monotone_bind {A B} (m : M A) (k : A -> M B) :
  monotone m -> (forall a, monotone (k a)) -> monotone (bind m k).
Proof.
  intros Hm Hk w. eapply extends_trans; [apply Hm|]. apply bind_extends_first, Hk.
Qed.

Lemma catch_extends_first {A} (m : M A) (h : Exception -> M A) w :
  (forall e, monotone (h e)) -> extends (snd (m w)) (snd (catch m h w)).
Proof.
  intros Hh. unfold catch. destruct (m w) as [[e|a] w1]; cbn [snd].
  - apply Hh.
  - apply extends_refl.
Qed.

Lemma monotone_catch {A} (m : M A) (h : Exception -> M A) :
  monotone m -> (forall e, monotone (h e)) -> monotone (catch m h).
Proof.
  intros Hm Hh w. eapply extends_trans; [apply Hm|]. apply catch_extends_first, Hh.
Qed.

Lemma finally_extends_first {A} (m : M A) (fin : M unit) w :
  monotone fin -> extends (snd (m w)) (snd (finally m fin w)).
Proof.
  intros Hf. unfold finally. destruct (m w) as [r w1]. cbn [snd].
  specialize (Hf w1). destruct (fin w1) as [[e|u] w2]; exact Hf.
Qed.

Lemma monotone_finally {A} (m : M A) (fin : M unit) :
  monotone m -> monotone fin -> monotone (finally m fin).
Proof.
  intros Hm Hf w. eapply extends_trans; [apply Hm|]. apply finally_extends_first, Hf.
Qed.

Lemma monotone_transaction {A} (callback : M A) :
  monotone callback -> monotone (transaction callback).
Proof.
  intros Hc w. unfold transaction.
  specialize (Hc (emit TxBegin w)). destruct (callback _) as [[e|a] w1]; cbn [snd] in *.
  - eapply extends_trans; [apply (extends_emit TxBegin w w); reflexivity|].
    eapply extends_trans; [exact Hc|]. apply extends_emit. reflexivity.
  - eapply extends_trans; [apply (extends_emit TxBegin w w); reflexivity|].
    eapply extends_trans; [exact Hc|]. apply extends_emit. reflexivity.
Qed.

#[export] Hint Resolve monotone_ret monotone_throw monotone_gets monotone_bind
  monotone_catch monotone_finally monotone_transaction : mono.

(** The calls to the cache and to the store. *)
Ltac mono_prim :=
  let w := fresh "w" in
  intros w;
  unfold redis_get, redis_setex, redis_set_nx, redis_del, walletModel_findByPk,
    walletModel_update, transactionLogModel_create, transactionLogModel_findOne,
    transactionLog_update, ledgerEntryModel_create, Decimal_new;
  repeat match goal with
         | |- context [match ?x with _ => _ end] => destruct x
         end;
  cbn [snd];
  first [apply extends_refl | apply extends_emit; reflexivity].

Lemma monotone_redis_get k : monotone (redis_get k).
Proof. mono_prim. Qed.
Lemma monotone_redis_setex k ttl r : monotone (redis_setex k ttl r).
Proof. mono_prim. Qed.
Lemma monotone_redis_set_nx k ttl : monotone (redis_set_nx k ttl).
Proof. mono_prim. Qed.
Lemma monotone_redis_del k : monotone (redis_del k).
Proof. mono_prim. Qed.
Lemma monotone_walletModel_findByPk id l : monotone (walletModel_findByPk id l).
Proof. mono_prim. Qed.
Lemma monotone_walletModel_update b v id ev : monotone (walletModel_update b v id ev).
Proof. mono_prim. Qed.
Lemma monotone_transactionLogModel_create k f t a c d ty :
  monotone (transactionLogModel_create k f t a c d ty).
Proof. mono_prim. Qed.
Lemma monotone_transactionLogModel_findOne k : monotone (transactionLogModel_findOne k).
Proof. mono_prim. Qed.
Lemma monotone_transactionLog_update tl st e c : monotone (transactionLog_update tl st e c).
Proof. mono_prim. Qed.
Lemma monotone_ledgerEntryModel_create e : monotone (ledgerEntryModel_create e).
Proof. mono_prim. Qed.
Lemma monotone_Decimal_new s : monotone (Decimal_new s).
Proof. mono_prim. Qed.

#[export] Hint Resolve monotone_redis_get monotone_redis_setex monotone_redis_set_nx
  monotone_redis_del monotone_walletModel_findByPk monotone_walletModel_update
  monotone_transactionLogModel_create monotone_transactionLogModel_findOne
  monotone_transactionLog_update monotone_ledgerEntryModel_create
  monotone_Decimal_new : mono.

(** The methods of the service. *)
Ltac mono :=
  repeat first
    [ progress auto with mono
    | apply monotone_bind; [|intros ?]
    | apply monotone_catch; [|intros ?]
    | apply monotone_finally
    | apply monotone_transaction
    | match goal with
      | |- monotone (match ?x with _ => _ end) => destruct x
      end ].

Lemma monotone_validateTransferRequest dto : monotone (validateTransferRequest dto).
Proof.
  unfold validateTransferRequest.
  destruct (String.eqb _ _); [apply monotone_throw|]. cbv zeta.
  destruct (Binary64.leb _ _); [apply monotone_throw|].
  destruct (Binary64.gtb _ _); [apply monotone_throw|apply monotone_ret].
Qed.

Lemma monotone_getCachedResult t : monotone (getCachedResult t).
Proof. unfold getCachedResult. mono. Qed.

#[export] Hint Resolve monotone_validateTransferRequest monotone_getCachedResult : mono.

Lemma monotone_checkIdempotency k : monotone (checkIdempotency k).
Proof. unfold checkIdempotency. mono. Qed.

Lemma monotone_createTransactionLog k f t a c d ty :
  monotone (createTransactionLog k f t a c d ty).
Proof. unfold createTransactionLog. mono. Qed.

Lemma monotone_createLedgerEntries i f t a c fa ta d :
  monotone (createLedgerEntries i f t a c fa ta d).
Proof. unfold createLedgerEntries. mono. Qed.

#[export] Hint Resolve monotone_checkIdempotency monotone_createTransactionLog
  monotone_createLedgerEntries : mono.

Lemma monotone_executeTransfer tl dto : monotone (executeTransfer tl dto).
Proof.
  unfold executeTransfer, executeTransfer_callback, executeTransfer_callback_over, cacheResult. mono.
Qed.

#[export] Hint Resolve monotone_executeTransfer : mono.

Lemma monotone_transfer_resume dto : monotone (transfer_resume dto).
Proof.
  unfold transfer_resume, acquireLock, releaseLock, cacheResult. mono.
Qed.

#[export] Hint Resolve monotone_transfer_resume : mono.

Lemma monotone_transfer dto : monotone (transfer dto).
Proof. unfold transfer. mono. Qed.

(** * The steps of [transfer] *)

Lemma checkIdempotency_None key w w1 :
  checkIdempotency key w = (inr None, w1) ->
  w1 = checked key w /\
  live (now w) (redis_idempotency w !! key) = None /\
  (transaction_logs w !! key = None \/
   exists row, transaction_logs w !! key = Some row /\ isCompleted row = false).
Proof.
  intros H. unfold checkIdempotency, getCachedResult in H. mred.
  msteps H; injection H as <-; (split; [reflexivity|]); (split; [reflexivity|]); eauto.
Qed.

Lemma checkIdempotency_miss key w :
  live (now w) (redis_idempotency w !! key) = None ->
  transaction_logs w !! key = None ->
  checkIdempotency key w = (inr None, checked key w).
Proof.
  intros Hc Hl. unfold checkIdempotency. rewrite bind_apply. mred. rewrite Hc.
  rewrite bind_apply. mred. rewrite Hl. reflexivity.
Qed.

Lemma checkIdempotency_hit key w result :
  live (now w) (redis_idempotency w !! key) = Some result ->
  checkIdempotency key w = (inr (Some result), emit (RedisGet ("idempotency:" ++ key)) w).
Proof.
  intros Hc. unfold checkIdempotency. rewrite bind_apply. mred. rewrite Hc. reflexivity.
Qed.

Lemma validateTransferRequest_pure transferDto w r w' :
  validateTransferRequest transferDto w = (r, w') -> w' = w.
Proof.
  unfold validateTransferRequest. intros H.
  destruct (String.eqb _ _); [injection H as <- <-; reflexivity|].
  destruct (Binary64.leb _ _); [injection H as <- <-; reflexivity|].
  destruct (Binary64.gtb _ _); injection H as <- <-; reflexivity.
Qed.

Lemma validateTransferRequest_invalid transferDto w :
  invalid_request transferDto ->
  exists message,
    validateTransferRequest transferDto w = (inl (BadRequestException message), w).
Proof.
  unfold invalid_request, validateTransferRequest. intros H.
  destruct (String.eqb _ _); [eexists; reflexivity|].
  destruct (Binary64.leb _ _); [eexists; reflexivity|].
  destruct (Binary64.gtb _ _); [eexists; reflexivity|].
  destruct H as [H|[H|H]]; discriminate H.
Qed.

Lemma validateTransferRequest_valid transferDto w :
  ~ invalid_request transferDto ->
  validateTransferRequest transferDto w = (inr tt, w).
Proof.
  unfold invalid_request, validateTransferRequest. intros H.
  destruct (String.eqb _ _); [tauto|].
  destruct (Binary64.leb _ _); [tauto|].
  destruct (Binary64.gtb _ _); [tauto|]. reflexivity.
Qed.

(** For an amount written with at most two decimals the guards are the exact
    comparisons with 0 and with 10^9. *)
Lemma invalid_request_money transferDto c :
  money (amount transferDto) c ->
  invalid_request transferDto <->
  (fromWalletId transferDto = toWalletId transferDto \/ c <= 0 \/ 100000000000 < c).
Proof.
  intros Hm. destruct (money_guards _ _ Hm) as [G1 G2].
  unfold invalid_request. rewrite G1, G2, String.eqb_eq, Z.leb_le, Z.ltb_lt. tauto.
Qed.

Lemma acquireLock_free key w :
  live (now w) (redis_lock w !! key) = None ->
  acquireLock key w = (inr true, locked key w).
Proof. intros H. unfold acquireLock, redis_set_nx. rewrite H. reflexivity. Qed.

Lemma acquireLock_held key w x :
  live (now w) (redis_lock w !! key) = Some x ->
  acquireLock key w = (inr false, emit (RedisSetNX ("lock:" ++ key) false) w).
Proof. intros H. unfold acquireLock, redis_set_nx. rewrite H. reflexivity. Qed.

(** Whatever follows, the insertion of the log row has been attempted once
    the lease is held. *)
Lemma transfer_resume_locked_inserts transferDto w :
  ~ invalid_request transferDto ->
  live (now w) (redis_lock w !! idempotencyKey transferDto) = None ->
  exists ok,
    In (LogCreate (idempotencyKey transferDto) (amount transferDto) ok)
       (trace (snd (transfer_resume transferDto w))).
Proof.
  intros Hv Hlock. unfold transfer_resume.
  rewrite bind_apply, (validateTransferRequest_valid _ _ Hv).
  rewrite bind_apply, (acquireLock_free _ _ Hlock). cbn [negb].
  match goal with
  | |- exists ok, In _ (trace (snd (finally (bind (createTransactionLog ?k ?f ?t ?a ?c ?d ?ty) ?K) ?fin ?w3))) =>
      assert (Hc : exists ok, In (LogCreate k a ok)
                     (trace (snd (transactionLogModel_create k f t a c d ty w3))));
      [|destruct Hc as [ok Hc]; exists ok;
        refine (extends_In _ _ _ _ Hc);
        eapply extends_trans;
          [apply (catch_extends_first (transactionLogModel_create k f t a c d ty))|];
        [|eapply extends_trans;
          [apply (bind_extends_first (createTransactionLog k f t a c d ty) K)|
           apply finally_extends_first]]]
  end.
  - unfold transactionLogModel_create.
    destruct (transaction_logs _ !! _); eexists; cbn [snd trace emit];
      apply in_or_app; right; left; reflexivity.
  - intros e. cbv beta. mono.
  - intros a. unfold cacheResult. mono.
  - unfold releaseLock. mono.
Qed.

Lemma same_tables_refl w : same_tables w w.
Proof. repeat split. Qed.

Lemma same_tables_trans w1 w2 w3 :
  same_tables w1 w2 -> same_tables w2 w3 -> same_tables w1 w3.
Proof. intros (A & B & C) (D & E & F). repeat split; congruence. Qed.

(** A run of [transfer_resume] that returns a result has validated the
    request, taken the lease, obtained a log row, executed the transfer on
    it, cached the result and released the lease. *)
Lemma transfer_resume_inr transferDto w r w' :
  transfer_resume transferDto w = (inr r, w') ->
  exists transactionLog w2 w3,
    ~ invalid_request transferDto /\
    live (now w) (redis_lock w !! idempotencyKey transferDto) = None /\
    createTransactionLog (idempotencyKey transferDto) (fromWalletId transferDto)
      (toWalletId transferDto) (amount transferDto)
      (or_default (currency transferDto) "NGN") (description transferDto) TRANSFER
      (locked (idempotencyKey transferDto) w) = (inr transactionLog, w2) /\
    executeTransfer transactionLog transferDto w2 = (inr r, w3) /\
    w' = released (idempotencyKey transferDto) (cached (idempotencyKey transferDto) r w3).
Proof.
  unfold transfer_resume. rewrite bind_apply. intros H.
  destruct (validateTransferRequest transferDto w) as [[e|[]] w0] eqn:Ev; [discriminate|].
  pose proof (validateTransferRequest_pure _ _ _ _ Ev) as ->.
  assert (Hv : ~ invalid_request transferDto).
  { intros Hi. destruct (validateTransferRequest_invalid transferDto w Hi) as [m Hm].
    congruence. }
  rewrite bind_apply in H.
  destruct (live (now w) (redis_lock w !! idempotencyKey transferDto)) as [x|] eqn:El.
  { rewrite (acquireLock_held _ _ _ El) in H. discriminate H. }
  rewrite (acquireLock_free _ _ El) in H. cbn [negb] in H.
  unfold finally in H. rewrite bind_apply in H.
  destruct (createTransactionLog _ _ _ _ _ _ _ _) as [[e|transactionLog] w2] eqn:Ec.
  { unfold releaseLock, redis_del in H. discriminate H. }
  unfold catch in H. rewrite bind_apply in H.
  destruct (executeTransfer transactionLog transferDto w2) as [[e|r'] w3] eqn:Ee.
  { unfold releaseLock, redis_del in H. mred. discriminate H. }
  unfold releaseLock, cacheResult in H. mred. injection H as <- <-.
  exists transactionLog, w2, w3. repeat split; auto.
Qed.

(** A live cache entry answers the request at once. *)
Lemma transfer_cached transferDto w result :
  live (now w) (redis_idempotency w !! idempotencyKey transferDto) = Some result ->
  transfer transferDto w
    = (inr result, emit (RedisGet ("idempotency:" ++ idempotencyKey transferDto)) w).
Proof.
  intros H. unfold transfer. rewrite bind_apply, (checkIdempotency_hit _ _ _ H). reflexivity.
Qed.

Lemma replay_cached n transferDto : forall w result,
  live (now w) (redis_idempotency w !! idempotencyKey transferDto) = Some result ->
  fst (replay n transferDto w) = repeat (inr result) n /\
  same_tables w (snd (replay n transferDto w)).
Proof.
  induction n as [|n IH]; intros w result H; cbn [replay].
  - split; [reflexivity|apply same_tables_refl].
  - rewrite (transfer_cached _ _ _ H).
    specialize (IH (emit (RedisGet ("idempotency:" ++ idempotencyKey transferDto)) w)
                  result H).
    destruct (replay n transferDto _) as [rs w2]. cbn [fst snd repeat] in *.
    destruct IH as [-> IH]. split; [reflexivity|exact IH].
Qed.

(** A result synthesized from a log row: nothing is written, and the
    balances reported are the current ones. *)
Lemma getCachedResult_spec row w x w1 :
  getCachedResult row w = (x, w1) ->
  same_tables w w1 /\
  forall result, x = inr result ->
    transactionId result = t_id row /\ status result = t_status row /\
    (w_balance <$> wallets w !! t_fromWalletId row)
      = Some (newBalance (fromWallet result)) /\
    (w_balance <$> wallets w !! t_toWalletId row)
      = Some (newBalance (toWallet result)) /\
    timestamp result = match t_completedAt row with
                       | Some c => c
                       | None => t_updatedAt row
                       end.
Proof.
  intros H. unfold getCachedResult in H. mred.
  msteps H; injection H as <- <-; (split; [repeat split|]);
    intros result [= <-]; cbn; rewrite ?Heqo, ?Heqo0; auto.
Qed.

(** With no live cache entry and a COMPLETED row, [transfer] answers with the
    result synthesized from that row. *)
Lemma transfer_completed_row transferDto w row :
  live (now w) (redis_idempotency w !! idempotencyKey transferDto) = None ->
  transaction_logs w !! idempotencyKey transferDto = Some row ->
  isCompleted row = true ->
  transfer transferDto w
    = getCachedResult row (checked (idempotencyKey transferDto) w).
Proof.
  intros Hc Hl Hd. unfold transfer, checkIdempotency.
  rewrite bind_apply, bind_apply. mred. rewrite Hc. rewrite bind_apply. mred.
  rewrite Hl, Hd. rewrite bind_apply. fold (checked (idempotencyKey transferDto) w).
  destruct (getCachedResult row _) as [[e|result] w1]; reflexivity.
Qed.

(** * A duplicate key whose row is already COMPLETED *)

(** When the insert hits the unique index and the existing row is COMPLETED,
    [createTransactionLog] synthesizes the prior result, discards it, and
    hands the existing row back to its caller as if it had just been
    inserted. *)
Lemma createTransactionLog_duplicate_completed
    key from to amount currency description type w existing result w1 :
  transaction_logs w !! key = Some existing ->
  isCompleted existing = true ->
  getCachedResult existing (emit (LogFindOne key) (emit (LogCreate key amount false) w))
    = (inr result, w1) ->
  createTransactionLog key from to amount currency description type w = (inr existing, w1).
Proof.
  intros Hrow Hdone Hcached. unfold createTransactionLog, catch, transactionLogModel_create.
  rewrite Hrow. rewrite bind_apply. mred. rewrite Hrow, Hdone.
  rewrite bind_apply, Hcached. reflexivity.
Qed.

(** Hence a request that resumes behind a completed one, with the lease
    free again, runs [executeTransfer] on the completed row: the outcome of
    [transfer_resume] is the outcome of that second execution. *)
Lemma transfer_resume_duplicate_completed transferDto w existing result w1 :
  ~ invalid_request transferDto ->
  live (now w) (redis_lock w !! idempotencyKey transferDto) = None ->
  transaction_logs w !! idempotencyKey transferDto = Some existing ->
  isCompleted existing = true ->
  getCachedResult existing
    (emit (LogFindOne (idempotencyKey transferDto))
       (emit (LogCreate (idempotencyKey transferDto) (amount transferDto) false)
          (locked (idempotencyKey transferDto) w))) = (inr result, w1) ->
  transfer_resume transferDto w =
    match executeTransfer existing transferDto w1 with
    | (inr again, w3) =>
        (inr again,
         released (idempotencyKey transferDto)
           (cached (idempotencyKey transferDto) again w3))
    | (inl error, w3) =>
        (inl error,
         released (idempotencyKey transferDto)
           (emit (LogUpdate (t_id existing) FAILED)
              (set_logs
                 (alter (with_status FAILED (Some (error_message error)) None (now w3))
                    (t_idempotencyKey existing))
                 w3)))
    end.
Proof.
  intros Hv Hk Hrow Hdone Hcached. unfold transfer_resume.
  rewrite bind_apply, (validateTransferRequest_valid _ _ Hv).
  rewrite bind_apply, (acquireLock_free _ _ Hk). cbn [negb].
  unfold finally. rewrite bind_apply.
  rewrite (createTransactionLog_duplicate_completed _ _ _ _ _ _ _
             (locked (idempotencyKey transferDto) w) existing result w1 Hrow Hdone Hcached).
  unfold catch. rewrite bind_apply.
  destruct (executeTransfer _ _ _) as [[e|again] w3]; reflexivity.
Qed.

(** C1 (defect in the code).  Two requests carry the key ["t1"].  The second
    one checks the cache and the log before the first has inserted anything,
    and resumes after the first has completed.  Its insert is refused by the
    unique index, the existing row is COMPLETED -- and the transfer is
    executed a second time on that row: both balances move again, and two
    more ledger rows are written under the same transaction id. *)
Theorem duplicate_completed_key_transfers_again :
  let w1 := snd (checkIdempotency "t1" Scenario.initial) in
  let w2 := snd (transfer Scenario.t1 w1) in
  let out := transfer_resume Scenario.t1 w2 in
  fst (checkIdempotency "t1" Scenario.initial) = inr None /\
  (exists existing,
     transaction_logs w2 !! "t1" = Some existing /\ t_status existing = COMPLETED) /\
  In (LogCreate "t1" "99.99" false) (trace (snd out)) /\
  (exists first second,
     fst (transfer Scenario.t1 w1) = inr first /\ fst out = inr second /\
     transactionId second = transactionId first /\
     newBalance (fromWallet first) = "900.01" /\ newBalance (toWallet first) = "599.99" /\
     newBalance (fromWallet second) = "800.02" /\ newBalance (toWallet second) = "699.98") /\
  w_balance <$> wallets w2 !! "A" = Some "900.01" /\
  w_balance <$> wallets (snd out) !! "A" = Some "800.02" /\
  w_balance <$> wallets w2 !! "B" = Some "599.99" /\
  w_balance <$> wallets (snd out) !! "B" = Some "699.98" /\
  length (ledger_entries w2) = 2%nat /\
  length (ledger_entries (snd out)) = 4%nat.
Proof.
  cbv zeta. split; [vm_compute; reflexivity|].
  split; [eexists; conj_compute|].
  split; [vm_compute; tauto|].
  split; [eexists _, _; conj_compute|].
  conj_compute.
Qed.

(** * Replays of a completed transfer *)

(** C2, as stated, fails.  [t1] completes and reports ["900.01"] and
    ["599.99"]; [t2] then moves the same two wallets; a day later the cache
    entry of [t1] has expired, and a replay of [t1] is answered from the log
    row and the current wallet rows: same transaction id, but ["800.01"] and
    ["699.99"]. *)
Lemma replay_after_expiry_differs :
  exists first replayed,
    fst (transfer Scenario.t1 Scenario.initial) = inr first /\
    fst (transfer Scenario.t1 Scenario.a_day_later) = inr replayed /\
    transactionId replayed = transactionId first /\
    newBalance (fromWallet first) = "900.01" /\ newBalance (toWallet first) = "599.99" /\
    newBalance (fromWallet replayed) = "800.01" /\
    newBalance (toWallet replayed) = "699.99" /\
    replayed <> first.
Proof.
  eexists _, _.
  split; [vm_compute; reflexivity|]. split; [vm_compute; reflexivity|].
  split; [reflexivity|]. split; [reflexivity|]. split; [reflexivity|].
  split; [reflexivity|]. split; [reflexivity|]. discriminate.
Qed.

(** C2, amended.  After a first execution that succeeded, every further
    [transfer] with the same request made while the cached result is live
    -- less than [IDEMPOTENCY_TTL] seconds later -- returns exactly the
    result of the first execution (so the same transaction id, timestamp and
    balances) and writes no wallet, log or ledger row, however many times it
    is repeated.  Once no cached result is live, a replay is synthesized from
    the COMPLETED row: it still writes no wallet, log or ledger row and
    carries the id and the status of that row, but the balances it reports
    are those of the wallets at the time of the replay and its timestamp is
    the row's completion time. *)
Theorem transfer_replay
    (transferDto : TransferDto) (w w' : World) (r : TransferResponseDto) :
  transfer_resume transferDto w = (inr r, w') ->
  (forall (d : Z) (n : nat),
     0 <= d < IDEMPOTENCY_TTL ->
     fst (replay n transferDto (advance d w')) = repeat (inr r) n /\
     same_tables w' (snd (replay n transferDto (advance d w')))) /\
  (forall (late : World) (row : TransactionLog),
     live (now late) (redis_idempotency late !! idempotencyKey transferDto) = None ->
     transaction_logs late !! idempotencyKey transferDto = Some row ->
     t_status row = COMPLETED ->
     same_tables late (snd (transfer transferDto late)) /\
     forall replayed, fst (transfer transferDto late) = inr replayed ->
       transactionId replayed = t_id row /\ status replayed = COMPLETED /\
       (w_balance <$> wallets late !! t_fromWalletId row)
         = Some (newBalance (fromWallet replayed)) /\
       (w_balance <$> wallets late !! t_toWalletId row)
         = Some (newBalance (toWallet replayed)) /\
       timestamp replayed = match t_completedAt row with
                            | Some c => c
                            | None => t_updatedAt row
                            end).
Proof.
  intros H. split.
  - intros d n Hd.
    apply transfer_resume_inr in H as (tl & w2 & w3 & _ & _ & _ & _ & ->).
    assert (Hlive : live (now (advance d (released (idempotencyKey transferDto)
                                 (cached (idempotencyKey transferDto) r w3))))
                      (redis_idempotency
                         (advance d (released (idempotencyKey transferDto)
                                       (cached (idempotencyKey transferDto) r w3)))
                         !! idempotencyKey transferDto) = Some r).
    { cbn [advance released cached emit set_redis_lock set_redis_idempotency now
           redis_idempotency].
      rewrite lookup_insert_eq. unfold live.
      destruct (Z.ltb_spec (now w3 + d) (now w3 + IDEMPOTENCY_TTL)); [reflexivity|lia]. }
    destruct (replay_cached n transferDto _ _ Hlive) as [Hr Ht].
    split; [exact Hr|]. exact Ht.
  - intros late row Hc Hl Hs.
    assert (Hd : isCompleted row = true) by (unfold isCompleted; rewrite Hs; reflexivity).
    rewrite (transfer_completed_row _ _ _ Hc Hl Hd).
    destruct (getCachedResult row _) as [x w1] eqn:E.
    apply getCachedResult_spec in E as [Ht Hx]. cbn [fst snd]. split; [exact Ht|].
    intros replayed ->. specialize (Hx replayed eq_refl). rewrite Hs in Hx. exact Hx.
Qed.

(** [t1] on the initial world, replayed three times an hour later. *)
Lemma transfer_replay_witness :
  exists r w',
    transfer_resume Scenario.t1 Scenario.initial = (inr r, w') /\
    fst (replay 3 Scenario.t1 (advance 3600 w')) = [inr r; inr r; inr r] /\
    same_tables w' (snd (replay 3 Scenario.t1 (advance 3600 w'))).
Proof.
  destruct (transfer_resume Scenario.t1 Scenario.initial) as [[e|r] w'] eqn:E;
    [vm_compute in E; discriminate E|].
  exists r, w'. split; [reflexivity|].
  destruct (transfer_replay Scenario.t1 Scenario.initial w' r E) as [Hcached _].
  apply (Hcached 3600 3%nat). unfold IDEMPOTENCY_TTL. lia.
Defined.

(** * Order of the row locks *)

(** C3, as stated, fails: in the transfer of [Scenario.t1_reversed], from
    wallet ["B"] to wallet ["A"], the destination id is the smaller one, and
    yet the source ["B"] is locked first. *)
Lemma lock_order_follows_request_not_id :
  (toWalletId Scenario.t1_reversed <? fromWalletId Scenario.t1_reversed)%string = true /\
  wallet_locks (trace (snd (transfer Scenario.t1_reversed Scenario.initial))) = ["B"; "A"].
Proof. split; vm_compute; reflexivity. Qed.

(** C3, amended: inside the serializable section the source wallet is always
    locked first and the destination wallet, when the run gets that far,
    second -- whatever the order of the two ids. *)
Theorem executeTransfer_locks_source_then_destination
    (transactionLog : TransactionLog) (transferDto : TransferDto) (w : World) :
  exists evs,
    trace (snd (executeTransfer transactionLog transferDto w)) = (trace w ++ evs)%list /\
    (wallet_locks evs = [fromWalletId transferDto] \/
     wallet_locks evs = [fromWalletId transferDto; toWalletId transferDto]).
Proof.
  unfold executeTransfer, transaction.
  destruct (executeTransfer_callback _ _ _) as [r w1] eqn:E.
  unfold executeTransfer_callback, executeTransfer_callback_over in E. mred. msteps E;
    injection E as <- <-; eexists; (split; [new_events|]); cbn [wallet_locks]; auto.
Qed.

(** * Ledger rows of a completed transfer *)

Lemma wallets_wf_initial : wallets_wf Scenario.initial.
Proof.
  unfold wallets_wf, Scenario.initial. cbn [wallets].
  apply map_Forall_insert_2; [reflexivity|].
  apply map_Forall_insert_2; [reflexivity|].
  apply map_Forall_empty.
Qed.

Lemma wallets_wf_tables w w' : wallets w' = wallets w -> wallets_wf w -> wallets_wf w'.
Proof. unfold wallets_wf. intros ->. trivial. Qed.

(** A run of [executeTransfer] that completes appends exactly one pair to the
    ledger: the debit of the source and the credit of the destination, with
    the amount and currency of the request and the new balances. *)
Lemma executeTransfer_appends_one_pair transactionLog transferDto w r w' :
  wallets_wf w ->
  executeTransfer transactionLog transferDto w = (inr r, w') ->
  ledger_entries w' =
    (ledger_entries w ++
     [mkLedgerEntry (t_id transactionLog) (fromWalletId transferDto) DEBIT
        (amount transferDto) (or_default (currency transferDto) "NGN")
        (newBalance (fromWallet r))
        (debit_description (or_default (description transferDto) ""));
      mkLedgerEntry (t_id transactionLog) (toWalletId transferDto) CREDIT
        (amount transferDto) (or_default (currency transferDto) "NGN")
        (newBalance (toWallet r))
        (or_default (description transferDto) "")])%list /\
  (w_balance <$> wallets w' !! fromWalletId transferDto) = Some (newBalance (fromWallet r)) /\
  (w_balance <$> wallets w' !! toWalletId transferDto) = Some (newBalance (toWallet r)).
Proof.
  intros Hwf H. apply executeTransfer_inr in H as (w1 & H & ->).
  apply executeTransfer_callback_inr in H; [|exact Hwf].
  destruct H as (fromW & toW & aD & fD & tD & H). cbv zeta in H.
  destruct H as (Hne & _ & _ & _ & _ & _ & _ & _ & _ & -> & Hw & Hl & _).
  cbn [emit ledger_entries wallets fromWallet toWallet newBalance] in *.
  split; [exact Hl|]. rewrite Hw. split.
  - rewrite lookup_insert_ne by congruence. rewrite lookup_insert_eq. reflexivity.
  - rewrite lookup_insert_eq. reflexivity.
Qed.

(** C4 (same defect as C1).  After the run of C1's scenario the log holds one
    row for key ["t1"], COMPLETED, with transaction id 0 -- and the ledger
    holds four rows with that transaction id, two debits and two credits. *)
Theorem completed_row_with_four_ledger_entries :
  let w1 := snd (checkIdempotency "t1" Scenario.initial) in
  let w2 := snd (transfer Scenario.t1 w1) in
  let w3 := snd (transfer_resume Scenario.t1 w2) in
  (exists row,
     transaction_logs w3 !! "t1" = Some row /\ t_status row = COMPLETED /\ t_id row = 0%nat) /\
  length (ledger_of 0%nat w2) = 2%nat /\
  length (ledger_of 0%nat w3) = 4%nat /\
  length (filter (fun e => l_type e = DEBIT) (ledger_of 0%nat w3)) = 2%nat /\
  length (filter (fun e => l_type e = CREDIT) (ledger_of 0%nat w3)) = 2%nat.
Proof.
  cbv zeta. split; [eexists; conj_compute|]. conj_compute.
Qed.

(** * Insufficient funds *)

Lemma createTransactionLog_fresh transferDto w :
  transaction_logs w !! idempotencyKey transferDto = None ->
  createTransactionLog (idempotencyKey transferDto) (fromWalletId transferDto)
    (toWalletId transferDto) (amount transferDto)
    (or_default (currency transferDto) "NGN") (description transferDto) TRANSFER w
  = (inr (pending_row transferDto w), inserted transferDto w).
Proof.
  intros H. unfold createTransactionLog, catch, transactionLogModel_create.
  rewrite H. reflexivity.
Qed.


(** A fresh request up to the serializable section: the check finds nothing,
    the request is valid, the lease is free and the row is inserted; the
    outcome of [executeTransfer] then decides. *)
Lemma transfer_fresh transferDto w :
  live (now w) (redis_idempotency w !! idempotencyKey transferDto) = None ->
  transaction_logs w !! idempotencyKey transferDto = None ->
  live (now w) (redis_lock w !! idempotencyKey transferDto) = None ->
  ~ invalid_request transferDto ->
  let key := idempotencyKey transferDto in
  let w2 := locked key (checked key w) in
  let row := pending_row transferDto w2 in
  transfer transferDto w =
    match executeTransfer row transferDto (inserted transferDto w2) with
    | (inr result, w3) => (inr result, released key (cached key result w3))
    | (inl error, w3) =>
        (inl error,
         released key
           (emit (LogUpdate (t_id row) FAILED)
              (set_logs
                 (alter (with_status FAILED (Some (error_message error)) None (now w3)) key)
                 w3)))
    end.
Proof.
  intros Hc Hl Hk Hv. cbv zeta. unfold transfer.
  rewrite bind_apply, (checkIdempotency_miss _ _ Hc Hl).
  unfold transfer_resume. rewrite bind_apply, (validateTransferRequest_valid _ _ Hv).
  rewrite bind_apply.
  rewrite (acquireLock_free (idempotencyKey transferDto)
             (checked (idempotencyKey transferDto) w) Hk). cbn [negb].
  unfold finally. rewrite bind_apply.
  rewrite (createTransactionLog_fresh transferDto
             (locked (idempotencyKey transferDto) (checked (idempotencyKey transferDto) w))
             Hl).
  unfold catch. rewrite bind_apply.
  destruct (executeTransfer _ _ _) as [[e|result] w3].
  - reflexivity.
  - reflexivity.
Qed.




(** * Optimistic locking *)

Ltac in_cases H :=
  repeat (destruct H as [H|H]; [try discriminate H|]); try contradiction.

Lemma executeTransfer_callback_over_updates update transactionLog transferDto w x w1 :
  counts_rows update ->
  executeTransfer_callback_over update transactionLog transferDto w = (x, w1) ->
  exists evs,
    trace w1 = (trace w ++ evs)%list /\
    (forall id v n, In (WalletUpdate id v n) evs ->
       exists row,
         (wallets w !! fromWalletId transferDto = Some row \/
          wallets w !! toWalletId transferDto = Some row) /\
         w_id row = id /\ w_version row = v) /\
    ((exists id v, In (WalletUpdate id v 0) evs) ->
     x = inl (ConflictException
                "Wallet was modified by another transaction. Please retry.")).
Proof.
  intros Hu H. unfold executeTransfer_callback_over in H. mred.
  msteps H;
    repeat match goal with
           | Hp : update ?b ?v ?i ?e ?w0 = (_, _) |- _ =>
               let E := fresh "E" in
               let T := fresh "T" in
               destruct (Hu b v i e w0) as (? & ? & E & T);
               rewrite Hp in E; clear Hp;
               first [discriminate E | injection E as ? ?; subst]
           end;
    injection H as <- <-;
    cbn [trace emit set_logs set_ledger];
    repeat match goal with T : trace _ = _ |- _ => rewrite T; clear T end;
    cbn [trace emit set_logs set_ledger];
    rewrite <- ?app_assoc; cbn [app];
    (eexists; split; [reflexivity|]); split.
  all: try (intros id v n Hin; in_cases Hin).
  all: try (intros (id & v & Hin); in_cases Hin; reflexivity).
  all: try (injection Hin as <- <- <-;
            first [ exists w0; split; [left; reflexivity|split; reflexivity]
                  | exists w2; split; [right; reflexivity|split; reflexivity] ]).
  intros (id & v & Hin). exfalso.
  in_cases Hin; injection Hin as _ _ ->; cbn in Heqb2;
    rewrite ?orb_true_r in Heqb2; discriminate Heqb2.
Qed.

(** The store of the service is one of those that count rows. *)
Lemma walletModel_update_counts_rows : counts_rows walletModel_update.
Proof.
  intros balance version where_id where_version w. unfold walletModel_update.
  destruct (wallets w !! where_id) as [row|];
    [destruct (w_version row =? where_version)|];
    eexists _, _; split; reflexivity.
Qed.

(** C6: both wallet updates of the serializable section are guarded by the
    version read under the row lock ([WHERE id = ? AND version = expected],
    writing [expected + 1]).  Whatever the store answers, when either update
    is answered with no row affected the transfer fails with
    [ConflictException] and the transaction is rolled back -- balances,
    ledger and log are those from before; and a transfer that completes has
    raised the version of both wallets, by one each. *)
Theorem executeTransfer_version_conflict
    (transactionLog : TransactionLog) (transferDto : TransferDto) (w : World) :
  (forall update r w',
     counts_rows update ->
     transaction (executeTransfer_callback_over update transactionLog transferDto) w
       = (r, w') ->
     exists evs,
       trace w' = (trace w ++ evs)%list /\
       (forall id v n, In (WalletUpdate id v n) evs ->
          exists row,
            (wallets w !! fromWalletId transferDto = Some row \/
             wallets w !! toWalletId transferDto = Some row) /\
            w_id row = id /\ w_version row = v) /\
       ((exists id v, In (WalletUpdate id v 0) evs) ->
        r = inl (ConflictException
                   "Wallet was modified by another transaction. Please retry.") /\
        wallets w' = wallets w /\ ledger_entries w' = ledger_entries w /\
        transaction_logs w' = transaction_logs w)) /\
  (forall result w',
     wallets_wf w ->
     executeTransfer transactionLog transferDto w = (inr result, w') ->
     exists fromW toW fromW' toW',
       wallets w !! fromWalletId transferDto = Some fromW /\
       wallets w !! toWalletId transferDto = Some toW /\
       wallets w' !! fromWalletId transferDto = Some fromW' /\
       wallets w' !! toWalletId transferDto = Some toW' /\
       w_version fromW' = w_version fromW + 1 /\
       w_version toW' = w_version toW + 1 /\
       w_version fromW < w_version fromW' /\ w_version toW < w_version toW').
Proof.
  split.
  - intros update r w' Hu H. unfold transaction in H.
    destruct (executeTransfer_callback_over _ _ _ _) as [x w1] eqn:E.
    apply executeTransfer_callback_over_updates in E; [|exact Hu].
    destruct E as (evs & Ht & Hv & Hz). cbn [trace emit] in Ht.
    assert (Hin : forall ev id v n,
              In (WalletUpdate id v n) ((TxBegin :: evs) ++ [ev]) ->
              ev = TxCommit \/ ev = TxRollback -> In (WalletUpdate id v n) evs).
    { intros ev id v n Hin Hev. apply in_app_or in Hin as [[Hin|Hin]|Hin];
        [discriminate Hin|exact Hin|].
      destruct Hev as [-> | ->]; in_cases Hin. }
    destruct x as [e|a]; injection H as <- <-.
    + exists ((TxBegin :: evs) ++ [TxRollback])%list. split.
      { cbn [trace emit rollback]. rewrite Ht. rewrite <- !app_assoc. reflexivity. }
      split; [intros id v n Hi; apply (Hv id v n), (Hin TxRollback); auto|].
      intros (id & v & Hi). rewrite Hz by (exists id, v; apply (Hin TxRollback); auto).
      cbn [emit rollback wallets ledger_entries transaction_logs]. auto.
    + exists ((TxBegin :: evs) ++ [TxCommit])%list. split.
      { cbn [trace emit]. rewrite Ht. rewrite <- !app_assoc. reflexivity. }
      split; [intros id v n Hi; apply (Hv id v n), (Hin TxCommit); auto|].
      intros (id & v & Hi).
      discriminate Hz; exists id, v; apply (Hin TxCommit); auto.
  - intros result w' Hwf H.
    apply executeTransfer_inr in H as (w1 & H & ->).
    apply executeTransfer_callback_inr in H; [|exact Hwf].
    destruct H as (fromW & toW & aD & fD & tD & H). cbv zeta in H.
    destruct H as (Hne & Hf & Ht & _ & _ & _ & _ & _ & _ & _ & Hw & _).
    cbn [wallets emit] in *.
    eexists fromW, toW, _, _.
    split; [exact Hf|]. split; [exact Ht|]. rewrite Hw.
    split; [rewrite lookup_insert_ne by congruence; apply lookup_insert_eq|].
    split; [apply lookup_insert_eq|]. cbn [with_balance w_version]. lia.
Qed.

(** [Scenario.t1] on a store in which wallet ["A"] has changed since it was
    read: the update of the source affects no row, that of the destination
    one row, and everything is rolled back.  And the request of
    [Scenario.same_wallet], handed to [executeTransfer] on the store of the
    service: the second update finds the version already raised by the
    first and affects no row. *)
Lemma executeTransfer_version_conflict_witness :
  let out :=
    transaction
      (executeTransfer_callback_over (Scenario.changed_since_read "A")
         Scenario.t1_row Scenario.t1)
      Scenario.t1_pending in
  let out' := executeTransfer Scenario.t1_row Scenario.same_wallet Scenario.t1_pending in
  (In (WalletUpdate "A" 1 0) (trace (snd out)) /\
   In (WalletUpdate "B" 1 1) (trace (snd out)) /\
   fst out = inl (ConflictException
                    "Wallet was modified by another transaction. Please retry.") /\
   wallets (snd out) = wallets Scenario.t1_pending /\
   ledger_entries (snd out) = ledger_entries Scenario.t1_pending) /\
  (In (WalletUpdate "A" 1 1) (trace (snd out')) /\
   In (WalletUpdate "A" 1 0) (trace (snd out')) /\
   fst out' = inl (ConflictException
                     "Wallet was modified by another transaction. Please retry.") /\
   wallets (snd out') = wallets Scenario.t1_pending).
Proof.
  cbv zeta. split.
  - destruct (transaction _ Scenario.t1_pending) as [r w'] eqn:E.
    destruct (executeTransfer_version_conflict Scenario.t1_row Scenario.t1
                Scenario.t1_pending) as [Hguard _].
    destruct (Hguard (Scenario.changed_since_read "A") r w') as (evs & Ht & _ & Hz).
    + intros balance version where_id where_version w.
      unfold Scenario.changed_since_read. destruct (String.eqb where_id "A").
      * eexists _, _. split; reflexivity.
      * apply walletModel_update_counts_rows.
    + exact E.
    + assert (Hin : In (WalletUpdate "A" 1 0) evs /\ In (WalletUpdate "B" 1 1) evs).
      { vm_compute in E. injection E as _ <-. cbn [trace] in Ht.
        change (trace Scenario.t1_pending) with (@nil Event) in Ht. cbn [app] in Ht.
        rewrite <- Ht. cbn. tauto. }
      destruct Hin as [HA HB].
      destruct Hz as (-> & Hw & Hl & _); [exists "A", 1; exact HA|].
      cbn [fst snd]. rewrite Ht.
      split; [apply in_or_app; right; exact HA|].
      split; [apply in_or_app; right; exact HB|]. auto.
  - destruct (executeTransfer Scenario.t1_row Scenario.same_wallet Scenario.t1_pending)
      as [r w'] eqn:E.
    destruct (executeTransfer_version_conflict Scenario.t1_row Scenario.same_wallet
                Scenario.t1_pending) as [Hguard _].
    destruct (Hguard walletModel_update r w' walletModel_update_counts_rows E)
      as (evs & Ht & _ & Hz).
    assert (Hin : In (WalletUpdate "A" 1 1) evs /\ In (WalletUpdate "A" 1 0) evs).
    { vm_compute in E. injection E as _ <-. cbn [trace] in Ht.
      change (trace Scenario.t1_pending) with (@nil Event) in Ht. cbn [app] in Ht.
      rewrite <- Ht. cbn. tauto. }
    destruct Hin as [H1 H0].
    destruct Hz as (-> & Hw & _); [exists "A", 1; exact H0|].
    cbn [fst snd]. rewrite Ht.
    split; [apply in_or_app; right; exact H1|].
    split; [apply in_or_app; right; exact H0|]. auto.
Defined.

(** * Pre-validation *)

(** C7, as stated, fails.  The same-wallet request of [Scenario.same_wallet]
    is rejected only after the result cache has been read and the log has
    been queried; and the invalid request [Scenario.invalid_replay], which
    reuses the key of a completed transfer, is not rejected at all: it is
    answered with the cached result of that transfer. *)
Lemma invalid_request_reaches_the_cache :
  (exists w',
     transfer Scenario.same_wallet Scenario.initial
       = (inl (BadRequestException "Cannot transfer to the same wallet"), w') /\
     trace w' = [RedisGet "idempotency:t6"; LogFindOne "t6"]) /\
  invalid_request Scenario.invalid_replay /\
  fst (transfer Scenario.invalid_replay Scenario.after_t1)
    = fst (transfer Scenario.t1 Scenario.initial) /\
  (exists result, fst (transfer Scenario.invalid_replay Scenario.after_t1) = inr result).
Proof.
  split; [eexists; split; vm_compute; reflexivity|].
  split; [right; left; vm_compute; reflexivity|].
  split; [vm_compute; reflexivity|].
  eexists. vm_compute. reflexivity.
Qed.

(** C7, amended: for every invalid request (source equal to destination,
    amount read as a number that is [<= 0], or [> 1_000_000_000]) for which
    the idempotency check finds no prior result, [transfer] raises
    [BadRequestException] after the cache read and the log lookup of that
    check, and before anything else: no lease is taken, no log row is
    inserted, and the world differs from the initial one by the two trace
    entries of the check only. *)
Theorem transfer_invalid_request (transferDto : TransferDto) (w : World) :
  invalid_request transferDto ->
  fst (checkIdempotency (idempotencyKey transferDto) w) = inr None ->
  exists message,
    transfer transferDto w
      = (inl (BadRequestException message), checked (idempotencyKey transferDto) w).
Proof.
  intros Hinv Hcheck. unfold transfer. rewrite bind_apply.
  destruct (checkIdempotency _ w) as [c w1] eqn:E. cbn in Hcheck. subst c.
  apply checkIdempotency_None in E as (-> & _).
  unfold transfer_resume. rewrite bind_apply.
  destruct (validateTransferRequest_invalid transferDto
              (checked (idempotencyKey transferDto) w) Hinv) as [m Hm].
  rewrite Hm. exists m. reflexivity.
Qed.

Lemma transfer_invalid_request_witness :
  exists message,
    transfer Scenario.same_wallet Scenario.initial
      = (inl (BadRequestException message), checked "t6" Scenario.initial).
Proof.
  apply (transfer_invalid_request Scenario.same_wallet Scenario.initial).
  - left. reflexivity.
  - vm_compute. reflexivity.
Defined.

(** C10: an amount that [parseFloat] reads as [NaN] passes both guards, so
    [validateTransferRequest] raises nothing (the wallets being distinct) and
    the transfer goes on to the insertion of the log row with that amount. *)
Theorem validateTransferRequest_accepts_NaN (transferDto : TransferDto) (w : World) :
  parseFloat (amount transferDto) = Binary64.NaN ->
  fromWalletId transferDto <> toWalletId transferDto ->
  Binary64.leb (parseFloat (amount transferDto)) (Binary64.of_Z 0) = false /\
  Binary64.gtb (parseFloat (amount transferDto)) (Binary64.of_Z 1000000000) = false /\
  validateTransferRequest transferDto w = (inr tt, w) /\
  (fst (checkIdempotency (idempotencyKey transferDto) w) = inr None ->
   live (now w) (redis_lock w !! idempotencyKey transferDto) = None ->
   exists ok,
     In (LogCreate (idempotencyKey transferDto) (amount transferDto) ok)
        (trace (snd (transfer transferDto w)))).
Proof.
  intros Hnan Hne.
  assert (G1 : Binary64.leb (parseFloat (amount transferDto)) (Binary64.of_Z 0) = false)
    by (rewrite Hnan; reflexivity).
  assert (G2 : Binary64.gtb (parseFloat (amount transferDto))
                 (Binary64.of_Z 1000000000) = false)
    by (rewrite Hnan; reflexivity).
  assert (Hv : forall w0, validateTransferRequest transferDto w0 = (inr tt, w0)).
  { intros w0. apply validateTransferRequest_valid. unfold invalid_request.
    rewrite G1, G2. apply String.eqb_neq in Hne. rewrite Hne.
    intros [H|[H|H]]; discriminate H. }
  repeat (split; [auto|]).
  intros Hcheck Hlock. unfold transfer. rewrite bind_apply.
  destruct (checkIdempotency _ w) as [c w1] eqn:E. cbn in Hcheck. subst c.
  apply checkIdempotency_None in E as (-> & _).
  apply transfer_resume_locked_inserts.
  - unfold invalid_request. rewrite G1, G2. apply String.eqb_neq in Hne. rewrite Hne.
    intros [H|[H|H]]; discriminate H.
  - exact Hlock.
Qed.

Lemma validateTransferRequest_accepts_NaN_witness :
  validateTransferRequest Scenario.not_a_number Scenario.initial
    = (inr tt, Scenario.initial) /\
  exists ok, In (LogCreate "t7" "abc" ok)
               (trace (snd (transfer Scenario.not_a_number Scenario.initial))).
Proof.
  destruct (validateTransferRequest_accepts_NaN Scenario.not_a_number Scenario.initial)
    as (_ & _ & Hv & Hrun).
  - vm_compute. reflexivity.
  - discriminate.
  - split; [exact Hv|]. apply Hrun; vm_compute; reflexivity.
Defined.

(** * The ledger append *)

(** C8, as stated, fails: the ledger append has no rejecting path at all; on
    no input does it return without inserting. *)
Lemma createLedgerEntries_never_rejects :
  ~ exists transactionId from to amount currency fromAfter toAfter description w e,
      fst (createLedgerEntries transactionId from to amount currency fromAfter toAfter
             description w) = inl e.
Proof.
  intros (transactionId & from & to & amount & currency & fa & ta & d & w & e & H).
  unfold createLedgerEntries in H. mred. discriminate H.
Qed.

(** C8, amended: the ledger append performs no check; it always issues
    exactly two inserts, a debit and then a credit, both built from the one
    transaction id, the one amount and the one currency it is given, so the
    pair it inserts balances by construction. *)
Theorem createLedgerEntries_balanced_by_construction
    (transactionId : uuid) (from to amount currency fromAfter toAfter description : string)
    (w : World) :
  exists debit credit w',
    createLedgerEntries transactionId from to amount currency fromAfter toAfter
      description w = (inr tt, w') /\
    balanced debit credit /\
    l_transactionId debit = transactionId /\ l_amount debit = amount /\
    l_currency debit = currency /\
    l_walletId debit = from /\ l_walletId credit = to /\
    l_balanceAfter debit = fromAfter /\ l_balanceAfter credit = toAfter /\
    ledger_entries w' = (ledger_entries w ++ [debit; credit])%list /\
    trace w' = (trace w ++ [LedgerCreate debit; LedgerCreate credit])%list /\
    wallets w' = wallets w /\ transaction_logs w' = transaction_logs w.
Proof.
  exists (mkLedgerEntry transactionId from DEBIT amount currency fromAfter
            (debit_description description)),
         (mkLedgerEntry transactionId to CREDIT amount currency toAfter description).
  eexists. unfold createLedgerEntries. mred.
  split; [reflexivity|]. unfold balanced. cbn.
  rewrite <- !app_assoc. cbn [app]. repeat split; reflexivity.
Qed.

(** * New balances *)

(** C9: the new balances are the exact difference and the exact sum, printed
    with two decimals.  For balances and an amount written with at most two decimals
    ([cb], [cd] and [ca] hundredths), within the 20 significant digits of
    the [DECIMAL(20, 2)] columns, a completed transfer reports
    [(cb - ca) / 100] for the source and [(cd + ca) / 100] for the
    destination; no binary floating point enters the computation. *)
Theorem executeTransfer_exact_balances
    (transactionLog : TransactionLog) (transferDto : TransferDto) (w w' : World)
    (r : TransferResponseDto) (fromW toW : Wallet) (cb cd ca : Z) :
  wallets_wf w ->
  wallets w !! fromWalletId transferDto = Some fromW ->
  wallets w !! toWalletId transferDto = Some toW ->
  money (w_balance fromW) cb -> money (w_balance toW) cd ->
  money (amount transferDto) ca ->
  cb < 10 ^ 20 -> cd + ca < 10 ^ 20 ->
  executeTransfer transactionLog transferDto w = (inr r, w') ->
  newBalance (fromWallet r)
    = Decimal.print_fixed 2 (cb - ca <? 0) (Z.abs (cb - ca)) /\
  newBalance (toWallet r) = Decimal.print_fixed 2 false (cd + ca).
Proof.
  intros Hwf Hf Ht Mb Md Ma Bb Bd H.
  apply executeTransfer_inr in H as (w1 & H & ->).
  apply executeTransfer_callback_inr in H; [|exact Hwf].
  destruct H as (fromW' & toW' & aD & fD & tD & H). cbv zeta in H.
  destruct H as (_ & Hf' & Ht' & _ & _ & _ & Ea & Ef & Et & -> & _).
  cbn [wallets emit] in Hf', Ht'. rewrite Hf in Hf'. rewrite Ht in Ht'.
  injection Hf' as <-. injection Ht' as <-.
  pose proof (money_nonneg _ _ Mb). pose proof (money_nonneg _ _ Md).
  pose proof (money_nonneg _ _ Ma).
  destruct (money_Decimal _ _ Ma) as (ma & sa & Ea' & Hsa & ->).
  destruct (money_Decimal _ _ Mb) as (mb & sb & Ef' & Hsb & ->).
  destruct (money_Decimal _ _ Md) as (md & sd & Et' & Hsd & ->).
  rewrite Ea' in Ea. rewrite Ef' in Ef. rewrite Et' in Et.
  injection Ea as <-. injection Ef as <-. injection Et as <-.
  cbn [fromWallet toWallet newBalance].
  rewrite (DecimalFacts.toFixed_minus_money _ mb sb ma sa Hsb Hsa)
    by (cbv zeta; unfold Decimal.precision; lia).
  rewrite (DecimalFacts.toFixed_plus_money _ md sd ma sa Hsd Hsa)
    by (cbv zeta; unfold Decimal.precision; lia).
  split; [reflexivity|]. cbv zeta.
  replace (md * 10 ^ (2 - sd) + ma * 10 ^ (2 - sa) <? 0) with false
    by (symmetry; apply Z.ltb_ge; lia).
  rewrite Z.abs_eq by lia. reflexivity.
Qed.

(** The scenario of the specification: ["99.99"] from ["1000.00"] to
    ["500.00"] gives ["900.01"] and ["599.99"]. *)
Lemma executeTransfer_exact_balances_witness :
  exists r w',
    executeTransfer Scenario.t1_row Scenario.t1 Scenario.t1_pending = (inr r, w') /\
    newBalance (fromWallet r) = "900.01" /\ newBalance (toWallet r) = "599.99" /\
    fst (transfer Scenario.t1 Scenario.initial) = inr r.
Proof.
  destruct (executeTransfer Scenario.t1_row Scenario.t1 Scenario.t1_pending)
    as [[e|r] w'] eqn:E; [vm_compute in E; discriminate E|].
  exists r, w'. split; [reflexivity|].
  destruct (executeTransfer_exact_balances Scenario.t1_row Scenario.t1
              Scenario.t1_pending w' r Scenario.A Scenario.B 100000 50000 9999)
    as [Hf Ht].
  - apply (wallets_wf_tables Scenario.initial); [reflexivity|apply wallets_wf_initial].
  - reflexivity.
  - reflexivity.
  - apply money_scale2. reflexivity.
  - apply money_scale2. reflexivity.
  - apply money_scale2. reflexivity.
  - reflexivity.
  - reflexivity.
  - exact E.
  - split; [exact Hf|]. split; [exact Ht|].
    vm_compute in E. injection E as <- _. vm_compute. reflexivity.
Defined.

(** * Requests that do not overlap

    The defect of C1 needs two requests with one key to overlap.  When every
    request runs from its idempotency check to its end before the next one
    starts, a COMPLETED row always has exactly its two ledger rows. *)

Lemma checkIdempotency_tables key w x w1 :
  checkIdempotency key w = (x, w1) ->
  same_tables w w1 /\ next_uuid w1 = next_uuid w.
Proof.
  intros H. unfold checkIdempotency, getCachedResult in H. mred.
  msteps H; injection H as <- <-; repeat split.
Qed.

Lemma createTransactionLog_in_progress transferDto w existing :
  transaction_logs w !! idempotencyKey transferDto = Some existing ->
  isCompleted existing = false ->
  exists w1,
    createTransactionLog (idempotencyKey transferDto) (fromWalletId transferDto)
      (toWalletId transferDto) (amount transferDto)
      (or_default (currency transferDto) "NGN") (description transferDto) TRANSFER w
    = (inl (ConflictException
              "Transaction with this idempotency key is already being processed"), w1) /\
    same_tables w w1 /\ next_uuid w1 = next_uuid w.
Proof.
  intros Hrow Hd. unfold createTransactionLog, catch, transactionLogModel_create.
  rewrite Hrow. rewrite bind_apply. mred. rewrite Hrow, Hd.
  eexists. split; [reflexivity|]. repeat split.
Qed.

Lemma transfer_effect transferDto w :
  wallets_wf w -> effect transferDto w (snd (transfer transferDto w)).
Proof.
  intros Hwf. unfold transfer. rewrite bind_apply.
  destruct (checkIdempotency _ w) as [[e|[result|]] w1] eqn:Ec.
  1, 2: apply checkIdempotency_tables in Ec as [Ht Hn]; apply effect_none; assumption.
  apply checkIdempotency_None in Ec as (-> & Hc & Hrow).
  destruct (validateTransferRequest transferDto (checked (idempotencyKey transferDto) w))
    as [[e|[]] w0] eqn:Ev.
  { unfold transfer_resume. rewrite bind_apply, Ev.
    apply validateTransferRequest_pure in Ev as ->. apply effect_none; repeat split. }
  assert (Hv : ~ invalid_request transferDto).
  { intros Hi. destruct (validateTransferRequest_invalid transferDto
                           (checked (idempotencyKey transferDto) w) Hi) as [m Hm].
    congruence. }
  apply validateTransferRequest_pure in Ev as ->.
  destruct (live (now w) (redis_lock w !! idempotencyKey transferDto)) as [x|] eqn:Ek.
  { unfold transfer_resume. rewrite bind_apply, (validateTransferRequest_valid _ _ Hv).
    rewrite bind_apply.
    rewrite (acquireLock_held (idempotencyKey transferDto)
               (checked (idempotencyKey transferDto) w) x Ek).
    apply effect_none; repeat split. }
  destruct Hrow as [Hrow|(existing & Hrow & Hd)].
  - pose proof (transfer_fresh transferDto w Hc Hrow Ek Hv) as Hrun. cbv zeta in Hrun.
    unfold transfer in Hrun. rewrite bind_apply in Hrun.
    rewrite (checkIdempotency_miss _ _ Hc Hrow) in Hrun. rewrite Hrun. clear Hrun.
    set (w2 := locked (idempotencyKey transferDto) (checked (idempotencyKey transferDto) w)).
    destruct (executeTransfer (pending_row transferDto w2) transferDto
                (inserted transferDto w2)) as [[e|result] w3] eqn:Ee.
    + apply executeTransfer_inl in Ee as (Hw3 & Hl3 & Hg3 & _ & _ & _ & Hn3).
      eapply effect_failed with
        (row := with_status FAILED (Some (error_message e)) None (now w3)
                  (pending_row transferDto w2)).
      * exact Hrow.
      * repeat split.
      * reflexivity.
      * cbn [snd released emit set_redis_lock set_logs wallets]. exact Hw3.
      * cbn [snd released emit set_redis_lock set_logs ledger_entries]. exact Hg3.
      * cbn [snd released emit set_redis_lock set_logs transaction_logs]. rewrite Hl3.
        cbn [inserted emit set_next_uuid set_logs transaction_logs].
        apply alter_insert_eq.
      * cbn [snd released emit set_redis_lock set_logs next_uuid]. rewrite Hn3.
        reflexivity.
    + apply executeTransfer_inr in Ee as (w4 & Ee & ->).
      apply executeTransfer_callback_inr in Ee;
        [|apply (wallets_wf_tables w); [reflexivity|exact Hwf]].
      destruct Ee as (fromW & toW & aD & fD & tD & Ee). cbv zeta in Ee.
      destruct Ee as (Hne & Hf & Ht & _ & _ & _ & _ & _ & _ & -> & Hw4 & Hg4 & Hl4
                      & _ & _ & _ & Hn4 & _).
      cbn [wallets ledger_entries transaction_logs next_uuid now emit inserted
           set_next_uuid set_logs] in Hf, Ht, Hw4, Hg4, Hl4, Hn4.
      eapply effect_completed with
        (row := with_status COMPLETED None (Some (now w2)) (now w2)
                  (with_status PROCESSING None None (now w2)
                     (pending_row transferDto w2)))
        (fromW := fromW) (toW := toW).
      * exact Hrow.
      * repeat split.
      * reflexivity.
      * exact Hne.
      * exact Hf.
      * exact Ht.
      * cbn [snd released cached emit set_redis_lock set_redis_idempotency wallets].
        exact Hw4.
      * cbn [snd released cached emit set_redis_lock set_redis_idempotency ledger_entries].
        exact Hg4.
      * cbn [snd released cached emit set_redis_lock set_redis_idempotency
             transaction_logs].
        rewrite Hl4. cbn [pending_row t_idempotencyKey].
        rewrite alter_insert_eq, alter_insert_eq. reflexivity.
      * cbn [snd released cached emit set_redis_lock set_redis_idempotency next_uuid].
        rewrite Hn4. reflexivity.
  - unfold transfer_resume. rewrite bind_apply, (validateTransferRequest_valid _ _ Hv).
    rewrite bind_apply.
    rewrite (acquireLock_free (idempotencyKey transferDto)
               (checked (idempotencyKey transferDto) w) Ek). cbn [negb].
    unfold finally. rewrite bind_apply.
    destruct (createTransactionLog_in_progress transferDto
                (locked (idempotencyKey transferDto)
                   (checked (idempotencyKey transferDto) w)) existing Hrow Hd)
      as (w1 & -> & Ht & Hn).
    unfold releaseLock, redis_del. cbn [snd].
    apply effect_none; [|exact Hn]. exact Ht.
Qed.

Lemma ledger_of_eq id w w' :
  ledger_entries w' = ledger_entries w -> ledger_of id w' = ledger_of id w.
Proof. unfold ledger_of. intros ->. reflexivity. Qed.

Lemma filter_none id (l : list LedgerEntry) :
  (forall e, In e l -> l_transactionId e <> id) ->
  filter (fun e => l_transactionId e = id) l = [].
Proof.
  induction l as [|e l IH]; intros H; [reflexivity|].
  rewrite filter_cons_False by (apply H; left; reflexivity).
  apply IH. intros e' He'. apply H. right. exact He'.
Qed.

Lemma ledger_of_app id w w' l :
  ledger_entries w' = (ledger_entries w ++ l)%list ->
  ledger_of id w' = (ledger_of id w ++ filter (fun e => l_transactionId e = id) l)%list.
Proof. unfold ledger_of. intros ->. apply filter_app. Qed.

Lemma effect_preserves transferDto w w' :
  effect transferDto w w' -> ledger_invariant w -> ledger_invariant w'.
Proof.
  intros He (Hwf & Hlog & Hled & Hpair).
  destruct He as [(Hw & Hl & Hg) Hn
                 | row Hnone Hrow Hst Hw Hg Hl Hn
                 | row fromW toW newFrom newTo Hnone Hrow Hst Hne Hf Ht Hw Hg Hl Hn].
  - unfold ledger_invariant, wallets_wf. rewrite Hw, Hl, Hg, Hn.
    split; [exact Hwf|]. split; [exact Hlog|]. split; [exact Hled|].
    intros k row Hk. rewrite (ledger_of_eq _ w w' Hg). apply (Hpair _ _ Hk).
  - destruct Hrow as (Hid & Hkey & _).
    unfold ledger_invariant, wallets_wf. rewrite Hw, Hl, Hg, Hn.
    split; [exact Hwf|]. split; [|split].
    + intros k row0 Hk. rewrite lookup_insert in Hk. case_decide as Hd.
      * injection Hk as <-. subst k. split; [exact Hkey|lia].
      * destruct (Hlog k row0 Hk). split; [assumption|lia].
    + intros e He. specialize (Hled e He). lia.
    + intros k row0 Hk. rewrite (ledger_of_eq _ w w' Hg).
      rewrite lookup_insert in Hk. case_decide as Hd.
      * injection Hk as <-. unfold isCompleted. rewrite Hst.
        rewrite bool_decide_eq_false_2 by discriminate.
        apply filter_none. intros e He. specialize (Hled e He). lia.
      * apply (Hpair _ _ Hk).
  - destruct Hrow as (Hid & Hkey & Hfrom & Hto & Hamt & Hcur).
    unfold ledger_invariant, wallets_wf. rewrite Hw, Hl, Hn.
    split; [|split; [|split]].
    + apply map_Forall_insert_2; [apply (Hwf _ _ Ht)|].
      apply map_Forall_insert_2; [apply (Hwf _ _ Hf)|exact Hwf].
    + intros k row0 Hk. rewrite lookup_insert in Hk. case_decide as Hd.
      * injection Hk as <-. subst k. split; [exact Hkey|lia].
      * destruct (Hlog k row0 Hk). split; [assumption|lia].
    + intros e He. rewrite Hg in He. apply in_app_or in He as [He|He].
      * specialize (Hled e He). lia.
      * destruct He as [<-|[<-|[]]]; cbn [l_transactionId]; lia.
    + intros k row0 Hk. rewrite (ledger_of_app _ w w' _ Hg).
      rewrite lookup_insert in Hk. case_decide as Hd.
      * injection Hk as <-. unfold isCompleted. rewrite Hst.
        rewrite bool_decide_eq_true_2 by reflexivity.
        unfold ledger_of at 1. rewrite filter_none
          by (intros e He; specialize (Hled e He); lia).
        rewrite filter_cons_True by reflexivity.
        rewrite filter_cons_True by reflexivity. rewrite filter_nil.
        eexists _, _. split; [reflexivity|]. cbn. repeat split; congruence.
      * destruct (Hlog k row0 Hk) as [_ Hlt].
        rewrite filter_cons_False by (cbn [l_transactionId]; lia).
        rewrite filter_cons_False by (cbn [l_transactionId]; lia).
        rewrite filter_nil, app_nil_r. apply (Hpair _ _ Hk).
Qed.

Lemma advance_preserves seconds w : ledger_invariant w -> ledger_invariant (advance seconds w).
Proof. intros H. exact H. Qed.

Lemma ledger_invariant_initial : ledger_invariant Scenario.initial.
Proof.
  split; [apply wallets_wf_initial|].
  split; [intros k row H; cbn in H; rewrite lookup_empty in H; discriminate|].
  split; [intros e []|].
  intros k row H. cbn in H. rewrite lookup_empty in H. discriminate.
Qed.

(** Without overlapping requests the invariant of the ledger is kept: every
    COMPLETED row has exactly two ledger rows, the debit of its source and
    the credit of its destination, for its amount and in its currency; every
    other row has none. *)
Theorem sequential_ledger_invariant w0 w :
  ledger_invariant w0 -> reachable w0 w -> ledger_invariant w.
Proof.
  intros H0 Hr. induction Hr as [|w dto Hr IH|w d Hr IH].
  - exact H0.
  - destruct IH as (Hwf & Hrest).
    apply (effect_preserves dto w); [apply transfer_effect, Hwf|split; assumption].
  - apply advance_preserves, IH.
Qed.

(** X22: A COMPLETED row reached without overlapping requests has exactly two
    ledger rows: the debit of its source and the credit of its destination,
    in that order, both for the amount and in the currency of the row. *)
Corollary sequential_completed_rows_have_one_pair w0 w k row :
  ledger_invariant w0 -> reachable w0 w ->
  transaction_logs w !! k = Some row -> t_status row = COMPLETED ->
  pair_of row (ledger_of (t_id row) w).
Proof.
  intros H0 Hr Hk Hs. destruct (sequential_ledger_invariant w0 w H0 Hr) as (_ & _ & _ & Hp).
  specialize (Hp k row Hk). unfold isCompleted in Hp.
  rewrite Hs, bool_decide_eq_true_2 in Hp by reflexivity. exact Hp.
Qed.

(** * The ways through a request *)

Lemma transfer_resume_path transferDto w :
  resume_path transferDto w (fst (transfer_resume transferDto w))
    (snd (transfer_resume transferDto w)).
Proof.
  unfold transfer_resume. rewrite bind_apply.
  destruct (validateTransferRequest transferDto w) as [[e|[]] w0] eqn:Ev.
  { pose proof (validateTransferRequest_pure _ _ _ _ Ev) as ->.
    assert (Hi : invalid_request transferDto).
    { unfold invalid_request. unfold validateTransferRequest in Ev.
      destruct (String.eqb _ _); [auto|].
      destruct (Binary64.leb _ _); [auto|].
      destruct (Binary64.gtb _ _); [auto|discriminate Ev]. }
    destruct (validateTransferRequest_invalid transferDto w Hi) as [m Hm].
    rewrite Hm in Ev. injection Ev as <-. cbn [fst snd].
    apply path_invalid, Hi. }
  pose proof (validateTransferRequest_pure _ _ _ _ Ev) as ->.
  assert (Hv : ~ invalid_request transferDto).
  { intros Hi. destruct (validateTransferRequest_invalid transferDto w Hi) as [m Hm].
    congruence. }
  rewrite bind_apply.
  destruct (live (now w) (redis_lock w !! idempotencyKey transferDto)) as [x|] eqn:El.
  { rewrite (acquireLock_held _ _ _ El). cbn [negb fst snd throw].
    apply (path_lease_held _ _ x Hv El). }
  rewrite (acquireLock_free _ _ El). cbn [negb].
  unfold finally. rewrite bind_apply.
  destruct (createTransactionLog _ _ _ _ _ _ _ _) as [[e|transactionLog] w2] eqn:Ec.
  { unfold releaseLock, redis_del. cbn [fst snd].
    apply (path_no_row _ _ e w2 Hv El Ec). }
  unfold catch. rewrite bind_apply.
  destruct (executeTransfer transactionLog transferDto w2) as [[e|r] w3] eqn:Ee.
  - unfold releaseLock. mred. apply (path_failed _ _ transactionLog w2 e w3 Hv El Ec Ee).
  - unfold releaseLock, cacheResult. mred.
    apply (path_completed _ _ transactionLog w2 r w3 Hv El Ec Ee).
Qed.

(** The row [createTransactionLog] hands back is the one it has just
    inserted, or the COMPLETED row that was there; in the first case alone
    the tables have changed. *)
Lemma createTransactionLog_cases transferDto w x w2 :
  createTransactionLog (idempotencyKey transferDto) (fromWalletId transferDto)
    (toWalletId transferDto) (amount transferDto)
    (or_default (currency transferDto) "NGN") (description transferDto) TRANSFER w
  = (x, w2) ->
  redis_idempotency w2 = redis_idempotency w /\ redis_lock w2 = redis_lock w /\
  now w2 = now w /\
  ((transaction_logs w !! idempotencyKey transferDto = None /\
    x = inr (pending_row transferDto w) /\ w2 = inserted transferDto w) \/
   (exists existing,
      transaction_logs w !! idempotencyKey transferDto = Some existing /\
      same_tables w w2 /\ next_uuid w2 = next_uuid w /\
      (x = inr existing /\ isCompleted existing = true \/ exists e, x = inl e))).
Proof.
  intros H. destruct (transaction_logs w !! idempotencyKey transferDto) as [existing|] eqn:E.
  - unfold createTransactionLog, catch, transactionLogModel_create, getCachedResult in H.
    rewrite E in H. mred. rewrite E in H.
    msteps H; injection H as <- <-; (split; [reflexivity|]); (split; [reflexivity|]);
      (split; [reflexivity|]); right; exists existing; (split; [reflexivity|]);
      (split; [repeat split|]); (split; [reflexivity|]); eauto.
  - rewrite (createTransactionLog_fresh _ _ E) in H. injection H as <- <-.
    repeat split. left. auto.
Qed.

(** * What every run keeps

    A relation between the world before and the world after that is
    transitive, that holds between worlds with the same tables, and that the
    four writes to the tables respect, is respected by every method of the
    service. *)
Section Stable.

Variable R : World -> World -> Prop.
Hypothesis R_trans : forall w1 w2 w3, R w1 w2 -> R w2 w3 -> R w1 w3.
Hypothesis R_tables : forall w w', same_tables w w' -> R w w'.

Lemma stable_ret {A} (a : A) : stable R (ret a).
Proof. intros w. apply R_tables, same_tables_refl. Qed.

Lemma stable_throw {A} e : stable R (@throw A e).
Proof. intros w. apply R_tables, same_tables_refl. Qed.

Lemma stable_gets {A} (f : World -> A) : stable R (gets f).
Proof. intros w. apply R_tables, same_tables_refl. Qed.

Lemma stable_bind {A B} (m : M A) (k : A -> M B) :
  stable R m -> (forall a, stable R (k a)) -> stable R (bind m k).
Proof.
  intros Hm Hk w. unfold bind. specialize (Hm w).
  destruct (m w) as [[e|a] w1]; cbn [snd] in *; [exact Hm|].
  eapply R_trans; [exact Hm|apply Hk].
Qed.

Lemma stable_catch {A} (m : M A) (h : Exception -> M A) :
  stable R m -> (forall e, stable R (h e)) -> stable R (catch m h).
Proof.
  intros Hm Hh w. unfold catch. specialize (Hm w).
  destruct (m w) as [[e|a] w1]; cbn [snd] in *; [|exact Hm].
  eapply R_trans; [exact Hm|apply Hh].
Qed.

Lemma stable_finally {A} (m : M A) (fin : M unit) :
  stable R m -> stable R fin -> stable R (finally m fin).
Proof.
  intros Hm Hf w. unfold finally. specialize (Hm w).
  destruct (m w) as [r w1]. cbn [snd] in Hm. specialize (Hf w1).
  destruct (fin w1) as [[e|u] w2]; cbn [snd] in *; eapply R_trans; eassumption.
Qed.

Lemma stable_transaction {A} (callback : M A) :
  stable R callback -> stable R (transaction callback).
Proof.
  intros Hc w. unfold transaction. specialize (Hc (emit TxBegin w)).
  destruct (callback _) as [[e|a] w1]; cbn [snd] in *.
  - apply R_tables. repeat split.
  - eapply R_trans; [apply (R_tables w (emit TxBegin w)); repeat split|].
    eapply R_trans; [exact Hc|]. apply R_tables. repeat split.
Qed.

(** Reads, and writes to the cache. *)
Ltac stable_read :=
  let w := fresh "w" in
  intros w;
  unfold redis_get, redis_setex, redis_set_nx, redis_del, walletModel_findByPk,
    transactionLogModel_findOne, Decimal_new, ret, throw;
  repeat match goal with
         | |- context [match ?x with _ => _ end] => destruct x
         end;
  cbn [snd]; apply R_tables; repeat split.

Lemma stable_redis_get k : stable R (redis_get k).
Proof. stable_read. Qed.
Lemma stable_redis_setex k ttl r : stable R (redis_setex k ttl r).
Proof. stable_read. Qed.
Lemma stable_redis_set_nx k ttl : stable R (redis_set_nx k ttl).
Proof. stable_read. Qed.
Lemma stable_redis_del k : stable R (redis_del k).
Proof. stable_read. Qed.
Lemma stable_walletModel_findByPk id l : stable R (walletModel_findByPk id l).
Proof. stable_read. Qed.
Lemma stable_transactionLogModel_findOne k : stable R (transactionLogModel_findOne k).
Proof. stable_read. Qed.
Lemma stable_Decimal_new s : stable R (Decimal_new s).
Proof. stable_read. Qed.

Lemma stable_validateTransferRequest dto : stable R (validateTransferRequest dto).
Proof.
  intros w. destruct (validateTransferRequest dto w) as [r w'] eqn:E.
  apply validateTransferRequest_pure in E as ->. apply R_tables, same_tables_refl.
Qed.

(** The four writes to the tables. *)
Hypothesis R_wallet_update :
  forall balance id expected, stable R (walletModel_update balance (expected + 1) id expected).
Hypothesis R_log_create :
  forall k f t a c d ty, stable R (transactionLogModel_create k f t a c d ty).
Hypothesis R_log_update :
  forall tl st e c, stable R (transactionLog_update tl st e c).
Hypothesis R_ledger_create : forall e, stable R (ledgerEntryModel_create e).

Ltac stab :=
  repeat first
    [ apply stable_ret | apply stable_throw | apply stable_gets
    | apply stable_redis_get | apply stable_redis_setex | apply stable_redis_set_nx
    | apply stable_redis_del | apply stable_walletModel_findByPk
    | apply stable_transactionLogModel_findOne | apply stable_Decimal_new
    | apply stable_validateTransferRequest
    | apply R_wallet_update | apply R_log_create | apply R_log_update
    | apply R_ledger_create
    | apply stable_bind; [|intros ?]
    | apply stable_catch; [|intros ?]
    | apply stable_finally
    | apply stable_transaction
    | match goal with
      | |- stable R (match ?x with _ => _ end) => destruct x
      | |- stable R (if ?x then _ else _) => destruct x
      end ].

Lemma stable_getCachedResult t : stable R (getCachedResult t).
Proof. unfold getCachedResult. stab. Qed.

Lemma stable_checkIdempotency k : stable R (checkIdempotency k).
Proof. unfold checkIdempotency. stab. Qed.

Lemma stable_createTransactionLog k f t a c d ty :
  stable R (createTransactionLog k f t a c d ty).
Proof. unfold createTransactionLog. stab. Qed.

Lemma stable_executeTransfer tl dto : stable R (executeTransfer tl dto).
Proof.
  unfold executeTransfer, executeTransfer_callback, executeTransfer_callback_over, createLedgerEntries. stab.
Qed.

Lemma stable_transfer_resume dto : stable R (transfer_resume dto).
Proof.
  unfold transfer_resume, acquireLock, releaseLock, cacheResult.
  apply stable_bind; [apply stable_validateTransferRequest|intros _].
  apply stable_bind; [apply stable_redis_set_nx|intros ok].
  destruct (negb ok); [apply stable_throw|].
  apply stable_finally; [|apply stable_redis_del].
  apply stable_bind; [apply stable_createTransactionLog|intros tl].
  apply stable_catch.
  - apply stable_bind; [apply stable_executeTransfer|intros r].
    apply stable_bind; [apply stable_redis_setex|intros _; apply stable_ret].
  - intros e. apply stable_bind; [apply R_log_update|intros _; apply stable_throw].
Qed.

Lemma stable_transfer dto : stable R (transfer dto).
Proof.
  unfold transfer. apply stable_bind; [apply stable_checkIdempotency|intros r].
  destruct r; [apply stable_ret|apply stable_transfer_resume].
Qed.

End Stable.

(** * What a request never does *)

Lemma wallet_evolves_refl a : wallet_evolves a a.
Proof. repeat split; lia. Qed.

Lemma wallet_evolves_trans a b c :
  wallet_evolves a b -> wallet_evolves b c -> wallet_evolves a c.
Proof.
  intros (A1 & A2 & A3 & A4 & A5 & A6 & A7) (B1 & B2 & B3 & B4 & B5 & B6 & B7).
  repeat split; try congruence; try lia.
  intros E. assert (Eb : w_version b = w_version a) by lia.
  rewrite (B7 ltac:(lia)). apply A7, Eb.
Qed.

Lemma wallets_evolve_same w w' : wallets w' = wallets w -> wallets_evolve w w'.
Proof.
  intros E id. rewrite E. destruct (wallets w !! id); constructor.
  apply wallet_evolves_refl.
Qed.

Lemma wallets_evolve_trans w1 w2 w3 :
  wallets_evolve w1 w2 -> wallets_evolve w2 w3 -> wallets_evolve w1 w3.
Proof.
  intros H12 H23 id. specialize (H12 id). specialize (H23 id).
  destruct H12 as [a b Hab|]; inversion H23 as [b' c Hbc|]; subst; constructor.
  eapply wallet_evolves_trans; eassumption.
Qed.

Lemma wallets_evolve_update balance id expected :
  stable wallets_evolve (walletModel_update balance (expected + 1) id expected).
Proof.
  intros w. unfold walletModel_update.
  destruct (wallets w !! id) as [row|] eqn:E; [|apply wallets_evolve_same; reflexivity].
  destruct (Z.eqb_spec (w_version row) expected) as [Hv|Hv];
    [|apply wallets_evolve_same; reflexivity].
  cbn [snd]. intros id'. cbn [wallets emit set_wallets].
  destruct (decide (id' = id)) as [->|Hne].
  - rewrite lookup_insert_eq, E. constructor.
    unfold wallet_evolves, with_balance. cbn. repeat split; lia.
  - rewrite lookup_insert_ne by congruence.
    destruct (wallets w !! id'); constructor. apply wallet_evolves_refl.
Qed.

Lemma log_row_evolves_refl a : log_row_evolves a a.
Proof. repeat split. Qed.

Lemma log_row_evolves_trans a b c :
  log_row_evolves a b -> log_row_evolves b c -> log_row_evolves a c.
Proof.
  intros (A1 & A2 & A3 & A4 & A5 & A6 & A7 & A8 & A9) (B1 & B2 & B3 & B4 & B5 & B6 & B7 & B8 & B9).
  repeat split; congruence.
Qed.

Lemma logs_evolve_same w w' : transaction_logs w' = transaction_logs w -> logs_evolve w w'.
Proof. intros E k a Hk. rewrite E. exists a. split; [exact Hk|apply log_row_evolves_refl]. Qed.

Lemma logs_evolve_trans w1 w2 w3 :
  logs_evolve w1 w2 -> logs_evolve w2 w3 -> logs_evolve w1 w3.
Proof.
  intros H12 H23 k a Hk. destruct (H12 k a Hk) as (b & Hb & Hab).
  destruct (H23 k b Hb) as (c & Hc & Hbc). exists c. split; [exact Hc|].
  eapply log_row_evolves_trans; eassumption.
Qed.

Lemma logs_evolve_create k f t a c d ty :
  stable logs_evolve (transactionLogModel_create k f t a c d ty).
Proof.
  intros w. unfold transactionLogModel_create.
  destruct (transaction_logs w !! k) as [row|] eqn:E; [apply logs_evolve_same; reflexivity|].
  cbn [snd]. intros k' r Hk'. cbn [transaction_logs emit set_next_uuid set_logs].
  assert (k' <> k) by congruence.
  rewrite lookup_insert_ne by congruence. exists r. split; [exact Hk'|].
  apply log_row_evolves_refl.
Qed.

Lemma logs_evolve_update tl st e c : stable logs_evolve (transactionLog_update tl st e c).
Proof.
  intros w k a Hk. cbn [snd transactionLog_update transaction_logs emit set_logs].
  destruct (decide (k = t_idempotencyKey tl)) as [->|Hne].
  - rewrite lookup_alter_eq, Hk. cbn. eexists. split; [reflexivity|]. repeat split.
  - rewrite lookup_alter_ne by congruence. exists a. split; [exact Hk|].
    apply log_row_evolves_refl.
Qed.

(** X5: No run creates or removes a wallet, or changes the identity, the owner,
    the type, the currency or the status of one; no run lowers a version, and
    a balance changes only together with a higher version.  This holds for a
    request run from its start and for one that resumes after its idempotency
    check, in whatever state the tables are. *)
Theorem transfer_keeps_wallet_rows (transferDto : TransferDto) (w : World) :
  wallets_evolve w (snd (transfer transferDto w)) /\
  wallets_evolve w (snd (transfer_resume transferDto w)).
Proof.
  assert (Ht : forall w w', same_tables w w' -> wallets_evolve w w').
  { intros w1 w2 (E & _). apply wallets_evolve_same, E. }
  assert (Hs : forall A (m : M A), (forall w, wallets (snd (m w)) = wallets w) ->
                 stable wallets_evolve m).
  { intros A m H w1. apply wallets_evolve_same, H. }
  split.
  - apply (stable_transfer wallets_evolve wallets_evolve_trans Ht
             wallets_evolve_update); intros; apply Hs; intros w1.
    + unfold transactionLogModel_create. destruct (_ !! _); reflexivity.
    + reflexivity.
    + reflexivity.
  - apply (stable_transfer_resume wallets_evolve wallets_evolve_trans Ht
             wallets_evolve_update); intros; apply Hs; intros w1.
    + unfold transactionLogModel_create. destruct (_ !! _); reflexivity.
    + reflexivity.
    + reflexivity.
Qed.

(** X6: No run removes a row of the transaction log or changes the request a row
    records: its id, idempotency key, type, wallets, amount, currency,
    description and creation time stay; only the status, the error message
    and the two later timestamps are ever rewritten. *)
Theorem transfer_keeps_log_rows (transferDto : TransferDto) (w : World) :
  logs_evolve w (snd (transfer transferDto w)) /\
  logs_evolve w (snd (transfer_resume transferDto w)).
Proof.
  assert (Ht : forall w w', same_tables w w' -> logs_evolve w w').
  { intros w1 w2 (_ & E & _). apply logs_evolve_same, E. }
  assert (Hs : forall A (m : M A),
                 (forall w, transaction_logs (snd (m w)) = transaction_logs w) ->
                 stable logs_evolve m).
  { intros A m H w1. apply logs_evolve_same, H. }
  assert (Hu : forall balance id expected,
                 stable logs_evolve (walletModel_update balance (expected + 1) id expected)).
  { intros. apply Hs. intros w1. unfold walletModel_update.
    destruct (_ !! _) as [row|]; [destruct (_ =? _)|]; reflexivity. }
  split.
  - apply (stable_transfer logs_evolve logs_evolve_trans Ht Hu logs_evolve_create
             logs_evolve_update).
    intros e. apply Hs. reflexivity.
  - apply (stable_transfer_resume logs_evolve logs_evolve_trans Ht Hu logs_evolve_create
             logs_evolve_update).
    intros e. apply Hs. reflexivity.
Qed.

(** * The ledger only grows, by one pair at a time *)

(** A completed run of the callback, read without any assumption on the
    tables: the pair it appended, and the row it rewrote. *)
Lemma executeTransfer_callback_pair transactionLog transferDto w r w' :
  executeTransfer_callback transactionLog transferDto w = (inr r, w') ->
  exists debit credit,
    ledger_entries w' = (ledger_entries w ++ [debit; credit])%list /\
    balanced debit credit /\
    l_transactionId debit = t_id transactionLog /\
    l_amount debit = amount transferDto /\
    l_walletId debit = wb_id (fromWallet r) /\
    l_walletId credit = wb_id (toWallet r) /\
    l_balanceAfter debit = newBalance (fromWallet r) /\
    l_balanceAfter credit = newBalance (toWallet r) /\
    transactionId r = t_id transactionLog /\ status r = COMPLETED /\
    transaction_logs w' =
      alter (with_status COMPLETED None (Some (now w)) (now w))
        (t_idempotencyKey transactionLog)
        (alter (with_status PROCESSING None None (now w))
           (t_idempotencyKey transactionLog) (transaction_logs w)).
Proof.
  intros H. unfold executeTransfer_callback, executeTransfer_callback_over in H. mred.
  msteps H. injection H as <- <-.
  eexists _, _. split; [mred; rewrite <- ?app_assoc; reflexivity|].
  repeat split.
Qed.

(** The rows a completed run has read, whose ids its result names. *)
Lemma executeTransfer_callback_rows transactionLog transferDto w r w' :
  executeTransfer_callback transactionLog transferDto w = (inr r, w') ->
  exists fromW toW,
    wallets w !! fromWalletId transferDto = Some fromW /\
    wallets w !! toWalletId transferDto = Some toW /\
    wb_id (fromWallet r) = w_id fromW /\ wb_id (toWallet r) = w_id toW.
Proof.
  intros H. unfold executeTransfer_callback, executeTransfer_callback_over in H. mred.
  msteps H. injection H as <- <-. eexists _, _. repeat split.
Qed.

Lemma resume_path_ledger (transferDto : TransferDto) (w : World)
    (out : (Exception + TransferResponseDto) * World) :
  resume_path transferDto w (fst out) (snd out) ->
  nothing_or_one_pair transferDto w out.
Proof.
  destruct out as [x w']. unfold nothing_or_one_pair. cbn [fst snd].
  intros [m Hi|holder Hv Hl|e w2 Hv Hl Hc|tl w2 e w3 Hv Hl Hc He|tl w2 r w3 Hv Hl Hc He].
  - left. split; reflexivity.
  - left. split; reflexivity.
  - left. apply createTransactionLog_cases in Hc as (_ & _ & _ & [(_ & Hx & _)|Hc]);
      [discriminate Hx|].
    destruct Hc as (existing & _ & (Hw & _ & Hg) & _). split; assumption.
  - left. apply executeTransfer_inl in He as (Hw3 & _ & Hg3 & _).
    cbn [released emit set_redis_lock set_logs wallets ledger_entries].
    rewrite Hw3, Hg3.
    apply createTransactionLog_cases in Hc as (_ & _ & _ & [(_ & _ & ->)|Hc]);
      [split; reflexivity|].
    destruct Hc as (existing & _ & (Hw & _ & Hg) & _). split; assumption.
  - right. apply executeTransfer_inr in He as (w4 & He & ->).
    pose proof (executeTransfer_callback_rows _ _ _ _ _ He)
      as (fromW & toW & Hf & Ht & Hfi & Hti).
    apply executeTransfer_callback_pair in He
      as (debit & credit & Hg & Hb & Hid & Ha & Hfw & Htw & Hfb & Htb & Hr & _).
    exists debit, credit, fromW, toW.
    cbn [released cached emit set_redis_lock set_redis_idempotency ledger_entries].
    rewrite Hg. cbn [emit ledger_entries wallets] in *.
    assert (Eg : ledger_entries w2 = ledger_entries w /\ wallets w2 = wallets w).
    { apply createTransactionLog_cases in Hc as (_ & _ & _ & [(_ & _ & ->)|Hc]);
        [split; reflexivity|].
      destruct Hc as (existing & _ & (Hw2 & _ & Hg2) & _). split; assumption. }
    destruct Eg as [Eg Ew]. rewrite Eg. rewrite Ew in Hf, Ht.
    split; [reflexivity|]. split; [exact Hb|].
    split; [exact Hf|]. split; [exact Ht|].
    split; [congruence|]. split; [congruence|].
    intros result [= <-]. repeat split; congruence.
Qed.

(** X4: Whatever the request and the state of the tables, a run of [transfer]
    either leaves the wallets and the ledger as they were, or has appended
    exactly one debit and one credit that balance each other -- one
    transaction id, one amount, one currency -- the debit on the source
    wallet and the credit on the destination wallet; and when the run
    returns a result, the pair carries the transaction id of the result and
    shows as [balanceAfter] the two balances it reports.  The same holds for
    a request that resumes after its idempotency check. *)
Theorem transfer_appends_nothing_or_one_pair (transferDto : TransferDto) (w : World) :
  nothing_or_one_pair transferDto w (transfer transferDto w) /\
  nothing_or_one_pair transferDto w (transfer_resume transferDto w).
Proof.
  split; [|apply resume_path_ledger, transfer_resume_path].
  unfold transfer. rewrite bind_apply.
  destruct (checkIdempotency _ w) as [[e|[result|]] w1] eqn:Ec.
  1, 2: apply checkIdempotency_tables in Ec as [(Hw & _ & Hg) _]; left; split; assumption.
  apply checkIdempotency_None in Ec as (-> & _).
  apply (resume_path_ledger transferDto (checked (idempotencyKey transferDto) w)),
    transfer_resume_path.
Qed.

(** * Leases and cached results *)

Lemma executeTransfer_frame transactionLog transferDto w x w' :
  executeTransfer transactionLog transferDto w = (x, w') ->
  redis_idempotency w' = redis_idempotency w /\ redis_lock w' = redis_lock w /\
  now w' = now w /\ next_uuid w' = next_uuid w.
Proof.
  intros H. destruct x as [e|r].
  - apply executeTransfer_inl in H as (_ & _ & _ & A & B & C & D). auto.
  - apply executeTransfer_inr in H as (w1 & H & ->).
    apply executeTransfer_callback_frame in H as (A & B & C & D). auto.
Qed.

Lemma checkIdempotency_frame key w x w1 :
  checkIdempotency key w = (x, w1) ->
  redis_idempotency w1 = redis_idempotency w /\ redis_lock w1 = redis_lock w /\
  now w1 = now w.
Proof.
  intros H. unfold checkIdempotency, getCachedResult in H. mred.
  msteps H; injection H as <- <-; repeat split.
Qed.

(** What a run from [transfer_resume] on does to the cache: the lease is
    taken and dropped, or not touched; the result is stored, or nothing
    is. *)
Lemma resume_path_cache transferDto w x w' :
  resume_path transferDto w x w' ->
  now w' = now w /\
  (redis_lock w' = redis_lock w \/
   live (now w) (redis_lock w !! idempotencyKey transferDto) = None /\
   redis_lock w' = delete (idempotencyKey transferDto)
                     (<[idempotencyKey transferDto := ("1", now w + 30)]> (redis_lock w))) /\
  (redis_idempotency w' = redis_idempotency w \/
   exists result,
     x = inr result /\
     redis_idempotency w' =
       <[idempotencyKey transferDto := (result, now w + IDEMPOTENCY_TTL)]>
         (redis_idempotency w)).
Proof.
  intros [m Hi|holder Hv Hl|e w2 Hv Hl Hc|tl w2 e w3 Hv Hl Hc He|tl w2 r w3 Hv Hl Hc He].
  - auto.
  - auto.
  - apply createTransactionLog_cases in Hc as (A & B & C & _).
    cbn [released emit set_redis_lock now redis_lock redis_idempotency].
    rewrite A, B, C. cbn. auto.
  - apply createTransactionLog_cases in Hc as (A & B & C & _).
    apply executeTransfer_frame in He as (A3 & B3 & C3 & _).
    cbn [released emit set_redis_lock set_logs now redis_lock redis_idempotency].
    rewrite A3, B3, C3, A, B, C. cbn. auto.
  - apply createTransactionLog_cases in Hc as (A & B & C & _).
    apply executeTransfer_frame in He as (A3 & B3 & C3 & _).
    cbn [released cached emit set_redis_lock set_redis_idempotency now redis_lock
         redis_idempotency].
    rewrite A3, B3, C3, A, B, C. cbn.
    split; [reflexivity|]. split; [right; auto|]. right. exists r. auto.
Qed.

Lemma resume_path_leases transferDto w x w' :
  resume_path transferDto w x w' ->
  now w' = now w /\
  (forall k, live (now w') (redis_lock w' !! k) = live (now w) (redis_lock w !! k)) /\
  (forall k, k <> idempotencyKey transferDto ->
     redis_lock w' !! k = redis_lock w !! k /\
     redis_idempotency w' !! k = redis_idempotency w !! k) /\
  (redis_idempotency w' !! idempotencyKey transferDto
     = redis_idempotency w !! idempotencyKey transferDto \/
   exists result,
     x = inr result /\
     redis_idempotency w' !! idempotencyKey transferDto
       = Some (result, now w + IDEMPOTENCY_TTL)).
Proof.
  intros H. apply resume_path_cache in H as (Hn & Hl & Hc).
  split; [exact Hn|]. rewrite Hn. split; [|split].
  - intros k. destruct Hl as [-> | [Hfree ->]]; [reflexivity|].
    destruct (decide (k = idempotencyKey transferDto)) as [->|Hne].
    + rewrite lookup_delete_eq, Hfree. reflexivity.
    + rewrite lookup_delete_ne, lookup_insert_ne by congruence. reflexivity.
  - intros k Hne. split.
    + destruct Hl as [-> | [_ ->]]; [reflexivity|].
      rewrite lookup_delete_ne, lookup_insert_ne by congruence. reflexivity.
    + destruct Hc as [-> | (r & _ & ->)]; [reflexivity|].
      rewrite lookup_insert_ne by congruence. reflexivity.
  - destruct Hc as [-> | (r & -> & ->)]; [left; reflexivity|].
    right. exists r. split; [reflexivity|apply lookup_insert_eq].
Qed.

Lemma transfer_leases (transferDto : TransferDto) (w : World) :
  let out := transfer transferDto w in
  let w' := snd out in
  now w' = now w /\
  (forall k, live (now w') (redis_lock w' !! k) = live (now w) (redis_lock w !! k)) /\
  (forall k, k <> idempotencyKey transferDto ->
     redis_lock w' !! k = redis_lock w !! k /\
     redis_idempotency w' !! k = redis_idempotency w !! k) /\
  (redis_idempotency w' !! idempotencyKey transferDto
     = redis_idempotency w !! idempotencyKey transferDto \/
   exists result,
     fst out = inr result /\
     redis_idempotency w' !! idempotencyKey transferDto
       = Some (result, now w + IDEMPOTENCY_TTL)).
Proof.
  cbv zeta. unfold transfer. rewrite bind_apply.
  destruct (checkIdempotency _ w) as [[e|[result|]] w1] eqn:Ec.
  1, 2: apply checkIdempotency_frame in Ec as (A & B & C); cbn [fst snd ret];
        rewrite A, B, C; auto.
  apply checkIdempotency_None in Ec as (-> & _).
  pose proof (transfer_resume_path transferDto (checked (idempotencyKey transferDto) w)) as H.
  apply resume_path_leases in H as (H0 & H1 & H2 & H3).
  split; [exact H0|]. split; [exact H1|]. split; [exact H2|exact H3].
Qed.

(** X7: A run of [transfer] leaves every lease as it found it: the lease of its
    own key, if it took it, is dropped again before the run ends, whatever
    the outcome, and a lease that another holder has is neither taken nor
    dropped.  The leases and cached results of all other keys are not
    touched, and under its own key the run stores nothing, or the result it
    returns, to expire [IDEMPOTENCY_TTL] seconds later. *)
Theorem transfer_leaves_leases_as_found (transferDto : TransferDto) (w : World) :
  let out := transfer transferDto w in
  let w' := snd out in
  (forall k, live (now w') (redis_lock w' !! k) = live (now w) (redis_lock w !! k)) /\
  (forall k, k <> idempotencyKey transferDto ->
     redis_lock w' !! k = redis_lock w !! k /\
     redis_idempotency w' !! k = redis_idempotency w !! k) /\
  (redis_idempotency w' !! idempotencyKey transferDto
     = redis_idempotency w !! idempotencyKey transferDto \/
   exists result,
     fst out = inr result /\
     redis_idempotency w' !! idempotencyKey transferDto
       = Some (result, now w + IDEMPOTENCY_TTL)).
Proof. exact (proj2 (transfer_leases transferDto w)). Qed.

(** * The transfer that goes through *)



(** The new balances of a completed run between wallets that hold amounts of
    money. *)
Lemma money_new_balances rm fromW toW amount aD fD tD cb cd ca :
  money (w_balance fromW) cb -> money (w_balance toW) cd -> money amount ca ->
  Decimal.new amount = Some aD ->
  Decimal.new (w_balance fromW) = Some fD ->
  Decimal.new (w_balance toW) = Some tD ->
  ca <= cb -> cb < 10 ^ 20 -> cd + ca < 10 ^ 20 ->
  Decimal.toFixed rm 2 (Decimal.minus rm fD aD) = Decimal.print_fixed 2 false (cb - ca) /\
  Decimal.toFixed rm 2 (Decimal.plus rm tD aD) = Decimal.print_fixed 2 false (cd + ca).
Proof.
  intros Mb Md Ma Ea Ef Et Hle Bb Bd.
  pose proof (money_nonneg _ _ Mb). pose proof (money_nonneg _ _ Md).
  pose proof (money_nonneg _ _ Ma).
  destruct (money_Decimal _ _ Ma) as (ma & sa & Ea' & Hsa & ->).
  destruct (money_Decimal _ _ Mb) as (mb & sb & Ef' & Hsb & ->).
  destruct (money_Decimal _ _ Md) as (md & sd & Et' & Hsd & ->).
  rewrite Ea' in Ea. rewrite Ef' in Ef. rewrite Et' in Et.
  injection Ea as <-. injection Ef as <-. injection Et as <-.
  rewrite (DecimalFacts.toFixed_minus_money _ mb sb ma sa Hsb Hsa)
    by (cbv zeta; unfold Decimal.precision; lia).
  rewrite (DecimalFacts.toFixed_plus_money _ md sd ma sa Hsd Hsa)
    by (cbv zeta; unfold Decimal.precision; lia).
  cbv zeta. split.
  - replace (mb * 10 ^ (2 - sb) - ma * 10 ^ (2 - sa) <? 0) with false
      by (symmetry; apply Z.ltb_ge; lia).
    rewrite Z.abs_eq by lia. reflexivity.
  - replace (md * 10 ^ (2 - sd) + ma * 10 ^ (2 - sa) <? 0) with false
      by (symmetry; apply Z.ltb_ge; lia).
    rewrite Z.abs_eq by lia. reflexivity.
Qed.




(** X16: [getWallet] after a transfer that was executed: the balances read are
    the balances that the result reports. *)
Theorem transfer_then_getWallet
    (transferDto : TransferDto) (w w' : World) (result : TransferResponseDto) :
  wallets_wf w ->
  live (now w) (redis_idempotency w !! idempotencyKey transferDto) = None ->
  transaction_logs w !! idempotencyKey transferDto = None ->
  transfer transferDto w = (inr result, w') ->
  exists fromW toW,
    fst (getWallet (fromWalletId transferDto) w') = inr fromW /\
    fst (getWallet (toWalletId transferDto) w') = inr toW /\
    w_id fromW = wb_id (fromWallet result) /\
    w_balance fromW = newBalance (fromWallet result) /\
    w_id toW = wb_id (toWallet result) /\
    w_balance toW = newBalance (toWallet result).
Proof.
  intros Hwf Hc Hl H. unfold transfer in H. rewrite bind_apply in H.
  rewrite (checkIdempotency_miss _ _ Hc Hl) in H.
  apply transfer_resume_inr in H as (tl & w2 & w3 & Hv & Hk & Hcr & He & ->).
  rewrite (createTransactionLog_fresh transferDto
               (locked (idempotencyKey transferDto) (checked (idempotencyKey transferDto) w)) Hl) in Hcr. injection Hcr as <- <-.
  apply executeTransfer_inr in He as (w4 & He & ->).
  apply executeTransfer_callback_inr in He;
    [|apply (wallets_wf_tables w); [reflexivity|exact Hwf]].
  destruct He as (fromW & toW & aD & fD & tD & He). cbv zeta in He.
  destruct He as (Hne & Hf & Ht & _ & _ & _ & _ & _ & _ & -> & Hw4 & _).
  eexists _, _. unfold getWallet. rewrite !bind_apply.
  cbn [walletModel_findByPk released cached emit set_redis_lock set_redis_idempotency
       wallets fst snd].
  rewrite Hw4. rewrite lookup_insert_eq.
  rewrite lookup_insert_ne by congruence. rewrite lookup_insert_eq.
  cbn in Hf, Ht. cbn. repeat split; [apply (Hwf _ _ Hf)|apply (Hwf _ _ Ht)].
Qed.

Lemma transfer_then_getWallet_witness :
  exists fromW toW,
    fst (getWallet "A" Scenario.after_t1) = inr fromW /\
    fst (getWallet "B" Scenario.after_t1) = inr toW /\
    w_balance fromW = "900.01" /\ w_balance toW = "599.99".
Proof.
  destruct (transfer Scenario.t1 Scenario.initial) as [[e|r] w'] eqn:E;
    [vm_compute in E; discriminate E|].
  destruct (transfer_then_getWallet Scenario.t1 Scenario.initial w' r)
    as (fromW & toW & Hf & Ht & _ & Bf & _ & Bt).
  - apply wallets_wf_initial.
  - reflexivity.
  - reflexivity.
  - exact E.
  - exists fromW, toW. unfold Scenario.after_t1. rewrite E. cbn [snd].
    split; [exact Hf|]. split; [exact Ht|].
    rewrite Bf, Bt. vm_compute in E. injection E as <- _. split; reflexivity.
Defined.

(** X15: A key that had no row: the row the run leaves under it, if any, is
    COMPLETED when the run returned a result and FAILED, with the message of
    the error, when it raised; it is never left PENDING or PROCESSING. *)
Theorem transfer_leaves_no_row_in_flight
    (transferDto : TransferDto) (w : World) (row : TransactionLog) :
  transaction_logs w !! idempotencyKey transferDto = None ->
  transaction_logs (snd (transfer transferDto w)) !! idempotencyKey transferDto
    = Some row ->
  canBeProcessed row = false /\
  ((exists result,
      fst (transfer transferDto w) = inr result /\ transactionId result = t_id row /\
      isCompleted row = true) \/
   (exists error,
      fst (transfer transferDto w) = inl error /\ isFailed row = true /\
      t_errorMessage row = Some (error_message error))).
Proof.
  intros Hl. unfold transfer. rewrite bind_apply.
  destruct (checkIdempotency _ w) as [[e|[result|]] w1] eqn:Ec.
  1, 2: apply checkIdempotency_tables in Ec as [(_ & Hl1 & _) _]; cbn [fst snd ret];
        rewrite Hl1, Hl; discriminate.
  apply checkIdempotency_None in Ec as (-> & _).
  pose proof (transfer_resume_path transferDto (checked (idempotencyKey transferDto) w)) as H.
  destruct (transfer_resume transferDto _) as [x w']. cbn [fst snd] in *.
  destruct H as [m Hi|holder Hv Hk|e w2 Hv Hk Hc|tl w2 e w3 Hv Hk Hc He
                |tl w2 r w3 Hv Hk Hc He].
  - cbn [transaction_logs checked emit]. rewrite Hl. discriminate.
  - cbn [transaction_logs checked emit]. rewrite Hl. discriminate.
  - rewrite (createTransactionLog_fresh transferDto
               (locked (idempotencyKey transferDto) (checked (idempotencyKey transferDto) w)) Hl) in Hc. discriminate Hc.
  - rewrite (createTransactionLog_fresh transferDto
               (locked (idempotencyKey transferDto) (checked (idempotencyKey transferDto) w)) Hl) in Hc. injection Hc as <- <-.
    apply executeTransfer_inl in He as (_ & Hl3 & _).
    cbn [released emit set_redis_lock set_logs transaction_logs]. rewrite Hl3.
    cbn [pending_row t_idempotencyKey inserted emit set_next_uuid set_logs
         transaction_logs].
    rewrite lookup_alter_eq, lookup_insert_eq. intros [= <-].
    split; [reflexivity|]. right. exists e. repeat split.
  - rewrite (createTransactionLog_fresh transferDto
               (locked (idempotencyKey transferDto) (checked (idempotencyKey transferDto) w)) Hl) in Hc. injection Hc as <- <-.
    apply executeTransfer_inr in He as (w4 & He & ->).
    apply executeTransfer_callback_pair in He as (_ & _ & _ & _ & _ & _ & _ & _ & _ & _
                                                 & Hid & _ & Hl4).
    cbn [released cached emit set_redis_lock set_redis_idempotency transaction_logs].
    rewrite Hl4.
    cbn [pending_row t_idempotencyKey inserted emit set_next_uuid set_logs
         transaction_logs].
    rewrite !lookup_alter_eq, lookup_insert_eq. intros [= <-].
    split; [reflexivity|]. left. exists r. repeat split. exact Hid.
Qed.

Lemma transfer_leaves_no_row_in_flight_witness :
  exists row,
    transaction_logs (snd (transfer Scenario.too_much Scenario.initial)) !! "t3" = Some row /\
    canBeProcessed row = false /\ isFailed row = true.
Proof.
  destruct (transaction_logs (snd (transfer Scenario.too_much Scenario.initial)) !! "t3")
    as [row|] eqn:E; [|vm_compute in E; discriminate E].
  exists row. split; [reflexivity|].
  destruct (transfer_leaves_no_row_in_flight Scenario.too_much Scenario.initial row)
    as (Hp & [(r & Hr & _)|(e & _ & Hf & _)]).
  - reflexivity.
  - exact E.
  - vm_compute in Hr. discriminate Hr.
  - split; assumption.
Defined.

(** * The order of the calls *)

(** X8: The calls of a transfer that is executed and returns, in order: the
    cache and the log are consulted; the lease is taken; the row is inserted
    before any wallet is touched; inside one transaction the row is marked
    PROCESSING, the source and then the destination are locked, the two
    balances are updated under their version predicates, the debit and then
    the credit are written and the row is marked COMPLETED; the transaction
    commits; only then is the result cached, and the lease is released
    last. *)
Theorem transfer_calls_in_order
    (transferDto : TransferDto) (w w' : World) (result : TransferResponseDto) :
  wallets_wf w -> fresh_key transferDto w ->
  transfer transferDto w = (inr result, w') ->
  exists fromW toW debit credit,
    wallets w !! fromWalletId transferDto = Some fromW /\
    wallets w !! toWalletId transferDto = Some toW /\
    l_type debit = DEBIT /\ l_type credit = CREDIT /\
    trace w' =
      (trace w ++
       [RedisGet ("idempotency:" ++ idempotencyKey transferDto);
        LogFindOne (idempotencyKey transferDto);
        RedisSetNX ("lock:" ++ idempotencyKey transferDto) true;
        LogCreate (idempotencyKey transferDto) (amount transferDto) true;
        TxBegin;
        LogUpdate (transactionId result) PROCESSING;
        WalletFindByPk (fromWalletId transferDto) true;
        WalletFindByPk (toWalletId transferDto) true;
        WalletUpdate (fromWalletId transferDto) (w_version fromW) 1;
        WalletUpdate (toWalletId transferDto) (w_version toW) 1;
        LedgerCreate debit;
        LedgerCreate credit;
        LogUpdate (transactionId result) COMPLETED;
        TxCommit;
        RedisSetex ("idempotency:" ++ idempotencyKey transferDto) IDEMPOTENCY_TTL;
        RedisDel ("lock:" ++ idempotencyKey transferDto)])%list.
Proof.
  intros Hwf (Hc & Hl & Hk) H. unfold transfer in H. rewrite bind_apply in H.
  rewrite (checkIdempotency_miss _ _ Hc Hl) in H.
  apply transfer_resume_inr in H as (tl & w2 & w3 & Hv & _ & Hcr & He & ->).
  rewrite (createTransactionLog_fresh transferDto
             (locked (idempotencyKey transferDto) (checked (idempotencyKey transferDto) w))
             Hl) in Hcr.
  injection Hcr as <- <-.
  apply executeTransfer_inr in He as (w4 & He & ->).
  apply executeTransfer_callback_inr in He;
    [|apply (wallets_wf_tables w); [reflexivity|exact Hwf]].
  destruct He as (fromW & toW & aD & fD & tD & He). cbv zeta in He.
  destruct He as (_ & Hf & Ht & _ & _ & _ & _ & _ & _ & -> & _ & _ & _ & _ & _ & _ & _ & _
                  & Htr).
  eexists fromW, toW, _, _. split; [exact Hf|]. split; [exact Ht|].
  split; [|split]; [| |cbn [released cached emit set_redis_lock set_redis_idempotency trace];
                       rewrite Htr;
                       cbn [trace emit inserted set_next_uuid set_logs locked checked
                            set_redis_lock pending_row t_id transactionId];
                       rewrite <- !app_assoc; cbn [app]; reflexivity].
  - reflexivity.
  - reflexivity.
Qed.

Lemma transfer_calls_in_order_witness :
  exists debit credit,
    trace Scenario.after_t1 =
      [RedisGet "idempotency:t1"; LogFindOne "t1"; RedisSetNX "lock:t1" true;
       LogCreate "t1" "99.99" true; TxBegin; LogUpdate 0%nat PROCESSING;
       WalletFindByPk "A" true; WalletFindByPk "B" true;
       WalletUpdate "A" 1 1; WalletUpdate "B" 1 1;
       LedgerCreate debit; LedgerCreate credit; LogUpdate 0%nat COMPLETED; TxCommit;
       RedisSetex "idempotency:t1" 86400; RedisDel "lock:t1"].
Proof.
  destruct (transfer Scenario.t1 Scenario.initial) as [[e|r] w'] eqn:E;
    [vm_compute in E; discriminate E|].
  destruct (transfer_calls_in_order Scenario.t1 Scenario.initial w' r)
    as (fromW & toW & debit & credit & Hf & Ht & _ & _ & Htr).
  - apply wallets_wf_initial.
  - repeat split.
  - exact E.
  - exists debit, credit. unfold Scenario.after_t1. rewrite E. cbn [snd]. rewrite Htr.
    injection Hf as <-. injection Ht as <-.
    vm_compute in E. injection E as <- _. reflexivity.
Defined.

(** * The errors of a request *)










(** X11: While another request holds the lease of the key, a request that finds
    no result to replay is turned away with [ConflictException] straight
    after the attempt to take the lease: it inserts no row, opens no
    transaction and leaves the lease to its holder. *)
Theorem transfer_lease_held (transferDto : TransferDto) (w : World) (holder : string) :
  live (now w) (redis_idempotency w !! idempotencyKey transferDto) = None ->
  (forall row, transaction_logs w !! idempotencyKey transferDto = Some row ->
     isCompleted row = false) ->
  ~ invalid_request transferDto ->
  live (now w) (redis_lock w !! idempotencyKey transferDto) = Some holder ->
  transfer transferDto w
    = (inl (ConflictException
              "Another request with the same idempotency key is being processed"),
       emit (RedisSetNX ("lock:" ++ idempotencyKey transferDto) false)
         (checked (idempotencyKey transferDto) w)).
Proof.
  intros Hc Hrow Hv Hk. unfold transfer. rewrite bind_apply.
  assert (Hn : checkIdempotency (idempotencyKey transferDto) w
               = (inr None, checked (idempotencyKey transferDto) w)).
  { destruct (transaction_logs w !! idempotencyKey transferDto) as [row|] eqn:E.
    - unfold checkIdempotency. rewrite bind_apply. mred. rewrite Hc.
      rewrite bind_apply. mred. rewrite E, (Hrow row eq_refl). reflexivity.
    - apply checkIdempotency_miss; assumption. }
  rewrite Hn. unfold transfer_resume.
  rewrite bind_apply, (validateTransferRequest_valid _ _ Hv). rewrite bind_apply.
  rewrite (acquireLock_held (idempotencyKey transferDto)
             (checked (idempotencyKey transferDto) w) holder Hk).
  reflexivity.
Qed.

Lemma transfer_lease_held_witness :
  fst (transfer Scenario.t1 Cases.t1_leased)
    = inl (ConflictException
             "Another request with the same idempotency key is being processed") /\
  transaction_logs (snd (transfer Scenario.t1 Cases.t1_leased)) = ∅.
Proof.
  rewrite (transfer_lease_held Scenario.t1 Cases.t1_leased "1").
  - split; reflexivity.
  - reflexivity.
  - intros row H. vm_compute in H. discriminate H.
  - intros [H|[H|H]]; vm_compute in H; discriminate H.
  - reflexivity.
Defined.




(** X13: A replay is recognised by the key alone.  Once a result is cached under
    a key, or the row of the key is COMPLETED, two requests with that key are
    answered alike, whatever wallets and amount each of them names: the
    answer is that of the idempotency check, and the body of the request is
    neither validated nor compared with the recorded one. *)
Theorem transfer_replay_ignores_body (transferDto other : TransferDto) (w : World) :
  idempotencyKey other = idempotencyKey transferDto ->
  (exists result,
     live (now w) (redis_idempotency w !! idempotencyKey transferDto) = Some result) \/
  (exists row,
     transaction_logs w !! idempotencyKey transferDto = Some row /\
     isCompleted row = true) ->
  transfer other w = transfer transferDto w /\
  same_tables w (snd (transfer transferDto w)).
Proof.
  intros Hkey H.
  destruct (live (now w) (redis_idempotency w !! idempotencyKey transferDto))
    as [result|] eqn:Hc.
  - rewrite (transfer_cached transferDto w result Hc).
    rewrite (transfer_cached other w result) by (rewrite Hkey; exact Hc).
    rewrite Hkey. split; [reflexivity|repeat split].
  - destruct H as [(result & H)|(row & Hrow & Hd)]; [discriminate H|].
    rewrite (transfer_completed_row transferDto w row Hc Hrow Hd).
    rewrite (transfer_completed_row other w row) by (rewrite ?Hkey; assumption).
    rewrite Hkey. split; [reflexivity|].
    destruct (getCachedResult row _) as [x w1] eqn:E.
    apply getCachedResult_spec in E as [Ht _]. exact Ht.
Qed.

Lemma transfer_replay_ignores_body_witness :
  fst (transfer Cases.t1_other_body Scenario.after_t1)
    = fst (transfer Scenario.t1 Scenario.after_t1) /\
  wallets (snd (transfer Cases.t1_other_body Scenario.after_t1))
    = wallets Scenario.after_t1.
Proof.
  destruct (transfer_replay_ignores_body Scenario.t1 Cases.t1_other_body Scenario.after_t1)
    as [He (Hw & _)].
  - reflexivity.
  - left. eexists. vm_compute. reflexivity.
  - rewrite He. split; [reflexivity|exact Hw].
Defined.

(** X14: A replay answered from the transaction log needs the two wallets of the
    recorded transfer.  With no live cached result and a COMPLETED row under
    the key, the request is answered with a result exactly when the source
    and the destination that the row names -- not those of the request --
    both exist and are ACTIVE; otherwise it raises, and in either case no
    table is written. *)
Theorem replay_needs_both_wallets_active
    (transferDto : TransferDto) (w : World) (row : TransactionLog) :
  live (now w) (redis_idempotency w !! idempotencyKey transferDto) = None ->
  transaction_logs w !! idempotencyKey transferDto = Some row ->
  isCompleted row = true ->
  ((exists result, fst (transfer transferDto w) = inr result) <->
   (exists fromW toW,
      wallets w !! t_fromWalletId row = Some fromW /\
      wallets w !! t_toWalletId row = Some toW /\
      isActive fromW = true /\ isActive toW = true)) /\
  same_tables w (snd (transfer transferDto w)).
Proof.
  intros Hc Hrow Hd. rewrite (transfer_completed_row transferDto w row Hc Hrow Hd).
  split.
  - unfold getCachedResult, checked. mred.
    destruct (wallets w !! t_fromWalletId row) as [fromW|];
      destruct (wallets w !! t_toWalletId row) as [toW|]; mred.
    + destruct (isActive fromW) eqn:Af; mred.
      * destruct (isActive toW) eqn:At; mred.
        -- split; [intros _; exists fromW, toW; auto|intros _; eexists; reflexivity].
        -- split; [intros (r & Hr); discriminate Hr|].
           intros (f & t & [= <-] & [= <-] & _ & At'). congruence.
      * split; [intros (r & Hr); discriminate Hr|].
        intros (f & t & [= <-] & _ & Af' & _). congruence.
    + split; [intros (r & Hr); discriminate Hr|]. intros (f & t & _ & Ht & _). discriminate Ht.
    + split; [intros (r & Hr); discriminate Hr|]. intros (f & t & Hf & _). discriminate Hf.
    + split; [intros (r & Hr); discriminate Hr|]. intros (f & t & Hf & _). discriminate Hf.
  - destruct (getCachedResult row _) as [x w1] eqn:E.
    apply getCachedResult_spec in E as [Ht _]. exact Ht.
Qed.

(** [t1] replayed a day after it completed. *)
Lemma replay_needs_both_wallets_active_witness :
  exists result, fst (transfer Scenario.t1 Scenario.a_day_later) = inr result.
Proof.
  destruct (transaction_logs Scenario.a_day_later !! "t1") as [row|] eqn:E;
    [|vm_compute in E; discriminate E].
  apply (replay_needs_both_wallets_active Scenario.t1 Scenario.a_day_later row).
  - vm_compute. reflexivity.
  - exact E.
  - vm_compute in E. injection E as <-. reflexivity.
  - vm_compute in E. injection E as <-. eexists _, _.
    split; [vm_compute; reflexivity|]. split; [vm_compute; reflexivity|].
    split; reflexivity.
Defined.

(** * The cache: results and leases *)

(** X18: A cached result is read back, as it was stored, for [IDEMPOTENCY_TTL]
    seconds, and the idempotency check then answers from the cache alone.
    After that the entry is dead: the check goes on to the transaction log,
    and with no row there it answers that the request is new. *)
Theorem cacheResult_then_checkIdempotency
    (key : string) (result : TransferResponseDto) (w : World) (seconds : Z) :
  let stored := advance seconds (snd (cacheResult key result w)) in
  (0 <= seconds < IDEMPOTENCY_TTL ->
   checkIdempotency key stored
     = (inr (Some result), emit (RedisGet ("idempotency:" ++ key)) stored)) /\
  (IDEMPOTENCY_TTL < seconds -> transaction_logs w !! key = None ->
   checkIdempotency key stored = (inr None, checked key stored)).
Proof.
  cbv zeta. split.
  - intros Hs. apply checkIdempotency_hit.
    cbn [cacheResult redis_setex snd advance emit set_redis_idempotency now
         redis_idempotency].
    rewrite lookup_insert_eq. unfold live.
    destruct (Z.ltb_spec (now w + seconds) (now w + IDEMPOTENCY_TTL)); [reflexivity|lia].
  - intros Hs Hl. apply checkIdempotency_miss; [|exact Hl].
    cbn [cacheResult redis_setex snd advance emit set_redis_idempotency now
         redis_idempotency].
    rewrite lookup_insert_eq. unfold live.
    destruct (Z.ltb_spec (now w + seconds) (now w + IDEMPOTENCY_TTL)); [lia|reflexivity].
Qed.

(** X19: A lease lasts 30 seconds.  Once [acquireLock] has answered [true], a
    second call for the same key answers [false] for the next 30 seconds and
    [true] after them, the lease having lapsed by itself; and after
    [releaseLock] the next call answers [true] at once, in whatever state the
    lease was and whoever had taken it. *)
Theorem acquireLock_excludes_for_30_seconds (key : string) (w : World) (seconds : Z) :
  let held := snd (acquireLock key w) in
  fst (acquireLock key w) = inr true ->
  (0 <= seconds < 30 -> fst (acquireLock key (advance seconds held)) = inr false) /\
  (30 < seconds -> fst (acquireLock key (advance seconds held)) = inr true) /\
  (forall any, fst (acquireLock key (snd (releaseLock key any))) = inr true).
Proof.
  cbv zeta. unfold acquireLock, releaseLock, redis_set_nx, redis_del.
  destruct (live (now w) (redis_lock w !! key)) eqn:E; [discriminate|].
  intros _. cbn [snd advance emit set_redis_lock now redis_lock].
  rewrite lookup_insert_eq. unfold live. split; [|split].
  - intros Hs.
    destruct (Z.ltb_spec (now w + seconds) (now w + 30)); [reflexivity|lia].
  - intros Hs.
    destruct (Z.ltb_spec (now w + seconds) (now w + 30)); [lia|reflexivity].
  - intros any. cbn [snd emit set_redis_lock now redis_lock].
    rewrite lookup_delete_eq. reflexivity.
Qed.

Lemma acquireLock_excludes_for_30_seconds_witness :
  fst (acquireLock "t1" (advance 29 Cases.t1_leased)) = inr false /\
  fst (acquireLock "t1" (advance 31 Cases.t1_leased)) = inr true.
Proof.
  split.
  - apply (acquireLock_excludes_for_30_seconds "t1" Scenario.initial 29); [reflexivity|lia].
  - apply (acquireLock_excludes_for_30_seconds "t1" Scenario.initial 31); [reflexivity|lia].
Defined.

Lemma cacheResult_then_checkIdempotency_witness :
  fst (checkIdempotency "t1"
         (advance 86399 (snd (cacheResult "t1" Cases.t1_result Scenario.initial))))
    = inr (Some Cases.t1_result) /\
  fst (checkIdempotency "t1"
         (advance 86401 (snd (cacheResult "t1" Cases.t1_result Scenario.initial))))
    = inr None.
Proof.
  split.
  - rewrite (proj1 (cacheResult_then_checkIdempotency "t1" Cases.t1_result
                      Scenario.initial 86399));
      [reflexivity|].
    unfold IDEMPOTENCY_TTL. lia.
  - rewrite (proj2 (cacheResult_then_checkIdempotency "t1" Cases.t1_result
                      Scenario.initial 86401));
      [reflexivity| |reflexivity].
    unfold IDEMPOTENCY_TTL. lia.
Defined.

(** * Balances written are balances read *)
Section PrintParse.

Import Numeral Decimal.

#[local] Abbreviation step := (fun acc d => 10 * acc + digit_val d).

Lemma digit_char_spec d : 0 <= d <= 9 ->
  is_digit (digit_char d) = true /\ digit_val (digit_char d) = d.
Proof.
  intros H.
  assert (E : d = 0 \/ d = 1 \/ d = 2 \/ d = 3 \/ d = 4 \/ d = 5 \/ d = 6 \/ d = 7
              \/ d = 8 \/ d = 9) by lia.
  repeat (destruct E as [->|E]; [split; reflexivity|]). subst d. split; reflexivity.
Qed.

Lemma mod10_digit n : 0 <= n mod 10 <= 9.
Proof. pose proof (Z.mod_pos_bound n 10). lia. Qed.

Lemma span_digits_cons a r :
  is_digit a = true ->
  span_digits (String a r) = (a :: fst (span_digits r), snd (span_digits r)).
Proof. intros H. simpl. rewrite H. destruct (span_digits r). reflexivity. Qed.

(** The digits that [print_digits] puts in front of [acc]: they are read back
    as digits and, with enough fuel, their value is [n]. *)
Lemma span_print_digits fuel : forall n acc,
  0 <= n ->
  exists ds,
    span_digits (print_digits fuel n acc)
      = ((ds ++ fst (span_digits acc))%list, snd (span_digits acc)) /\
    ds <> [] /\
    (n < 2 ^ (Z.of_nat fuel + 1) ->
     forall a tail,
       fold_left step (ds ++ tail)%list a
         = fold_left step tail (a * 10 ^ Z.of_nat (length ds) + n)).
Proof.
  induction fuel as [|f IH]; intros n acc Hn.
  - exists [digit_char (n mod 10)]. cbn [print_digits].
    destruct (digit_char_spec (n mod 10) (mod10_digit n)) as [Hd Hv].
    split; [apply span_digits_cons, Hd|]. split; [discriminate|].
    intros Hb a tail. cbn [fold_left app length]. rewrite Hv.
    change (2 ^ (Z.of_nat 0 + 1)) with 2 in Hb.
    rewrite Z.mod_small by lia. f_equal. change (10 ^ Z.of_nat 1) with 10. lia.
  - cbn [print_digits].
    destruct (digit_char_spec (n mod 10) (mod10_digit n)) as [Hd Hv].
    destruct (Z.ltb_spec n 10) as [Hlt|Hge].
    + exists [digit_char (n mod 10)].
      split; [apply span_digits_cons, Hd|]. split; [discriminate|].
      intros _ a tail. cbn [fold_left app length]. rewrite Hv.
      rewrite Z.mod_small by lia. f_equal. change (10 ^ Z.of_nat 1) with 10. lia.
    + assert (Hq : 0 <= n / 10) by (apply Z.div_pos; lia).
      destruct (IH (n / 10) (String (digit_char (n mod 10)) acc) Hq) as (ds & Hs & Hne & Hval).
      rewrite (span_digits_cons _ _ Hd) in Hs. cbn [fst snd] in Hs.
      exists (ds ++ [digit_char (n mod 10)])%list.
      split; [rewrite Hs, <- app_assoc; reflexivity|].
      split; [destruct ds; discriminate|].
      intros Hb a tail. rewrite <- app_assoc. rewrite Hval.
      * cbn [fold_left app]. rewrite Hv. f_equal.
        rewrite length_app. cbn [length].
        rewrite Nat2Z.inj_add, Z.pow_add_r by lia. change (10 ^ Z.of_nat 1) with 10.
        pose proof (Z.div_mod n 10 ltac:(lia)). lia.
      * replace (Z.of_nat (S f) + 1) with (Z.of_nat f + 1 + 1) in Hb by lia.
        rewrite Z.pow_add_r in Hb by lia. change (2 ^ 1) with 2 in Hb.
        apply Z.div_lt_upper_bound; lia.
Qed.

Lemma print_digits_app fuel : forall n acc s,
  (print_digits fuel n acc ++ s)%string = print_digits fuel n (acc ++ s)%string.
Proof.
  induction fuel as [|f IH]; intros n acc s; cbn [print_digits]; [reflexivity|].
  destruct (n <? 10); [reflexivity|]. rewrite IH. reflexivity.
Qed.

Lemma log2_fuel n : 0 <= n -> n < 2 ^ (Z.of_nat (Z.to_nat (Z.log2 n)) + 1).
Proof.
  intros H. rewrite Z2Nat.id by apply Z.log2_nonneg.
  destruct (Z.eq_dec n 0) as [->|Hn]; [reflexivity|].
  pose proof (Z.log2_spec n ltac:(lia)) as [_ Hu].
  replace (Z.log2 n + 1) with (Z.succ (Z.log2 n)) by lia. exact Hu.
Qed.

(** A balance printed with two decimals reads back as the same number of
    hundredths. *)
Lemma scan_unsigned_print_fixed c :
  0 <= c -> scan_unsigned (print_fixed 2 false c) = Some (c, -2, EmptyString).
Proof.
  intros Hc. unfold print_fixed, print_Z. cbn [print_frac].
  change (10 ^ Z.of_nat 2) with 100.
  set (q := c / 100). set (n := c mod 100).
  assert (Hq : 0 <= q) by (apply Z.div_pos; lia).
  assert (Hn : 0 <= n < 100) by (apply Z.mod_pos_bound; lia).
  rewrite print_digits_app.
  match goal with
  | |- context [String.append EmptyString (String.append ?p ?x)] =>
      change (String.append EmptyString (String.append p x)) with (String "."%char x)
  end.
  destruct (digit_char_spec (n mod 10) (mod10_digit n)) as [Hd0 Hv0].
  destruct (digit_char_spec ((n / 10) mod 10) (mod10_digit (n / 10))) as [Hd1 Hv1].
  set (d0 := digit_char (n mod 10)) in *. set (d1 := digit_char (n / 10 mod 10)) in *.
  destruct (span_print_digits (Z.to_nat (Z.log2 q)) q
              (String "." (String d1 (String d0 EmptyString))) Hq) as (ds & Hs & Hne & Hval).
  specialize (Hval (log2_fuel q Hq)).
  change (span_digits (String "." (String d1 (String d0 EmptyString))))
    with (@nil ascii, String "." (String d1 (String d0 EmptyString))) in Hs.
  cbn [fst snd] in Hs. rewrite app_nil_r in Hs.
  unfold scan_unsigned. rewrite Hs.
  assert (Hf : span_digits (String d1 (String d0 EmptyString)) = ([d1; d0], EmptyString)).
  { rewrite (span_digits_cons _ _ Hd1), (span_digits_cons _ _ Hd0). reflexivity. }
  rewrite Hf.
  destruct ds as [|a ds]; [contradiction|].
  cbn [scan_exponent length]. unfold digits_value.
  rewrite (Hval 0 [d1; d0]). cbn [fold_left]. rewrite Hv0, Hv1.
  f_equal. f_equal. f_equal.
  rewrite (Z.mod_small (n / 10)) by (split; [apply Z.div_pos; lia|apply Z.div_lt_upper_bound; lia]).
  pose proof (Z.div_mod n 10 ltac:(lia)).
  pose proof (Z.div_mod c 100 ltac:(lia)). subst q n. lia.
Qed.

Lemma money_print_fixed c : 0 <= c -> money (print_fixed 2 false c) c.
Proof. intros H. apply money_scale2, scan_unsigned_print_fixed, H. Qed.

End PrintParse.

(** * What a run does to the wallets *)

(** Either nothing, or the two updates of a completed transfer. *)
Lemma transfer_wallets_cases transferDto w :
  wallets_wf w ->
  wallets (snd (transfer transferDto w)) = wallets w \/
  exists fromW toW aD fD tD rm,
    ~ invalid_request transferDto /\
    fromWalletId transferDto <> toWalletId transferDto /\
    wallets w !! fromWalletId transferDto = Some fromW /\
    wallets w !! toWalletId transferDto = Some toW /\
    hasAvailableBalance fromW (amount transferDto) = true /\
    Decimal.new (amount transferDto) = Some aD /\
    Decimal.new (w_balance fromW) = Some fD /\
    Decimal.new (w_balance toW) = Some tD /\
    wallets (snd (transfer transferDto w)) =
      <[toWalletId transferDto :=
          with_balance toW (Decimal.toFixed rm 2 (Decimal.plus rm tD aD))
            (w_version toW + 1)]>
        (<[fromWalletId transferDto :=
             with_balance fromW (Decimal.toFixed rm 2 (Decimal.minus rm fD aD))
               (w_version fromW + 1)]>
           (wallets w)).
Proof.
  intros Hwf. unfold transfer. rewrite bind_apply.
  destruct (checkIdempotency _ w) as [[e|[result|]] w1] eqn:Ec.
  1, 2: apply checkIdempotency_tables in Ec as [(Hw & _) _]; left; exact Hw.
  apply checkIdempotency_None in Ec as (-> & _).
  pose proof (transfer_resume_path transferDto (checked (idempotencyKey transferDto) w)) as H.
  destruct (transfer_resume transferDto _) as [x w']. cbn [fst snd] in *.
  destruct H as [m Hi|holder Hv Hk|e w2 Hv Hk Hc|tl w2 e w3 Hv Hk Hc He
                |tl w2 r w3 Hv Hk Hc He].
  - left. reflexivity.
  - left. reflexivity.
  - left. apply createTransactionLog_cases in Hc as (_ & _ & _ & [(_ & Hx & _)|Hc]);
      [discriminate Hx|].
    destruct Hc as (existing & _ & (Hw & _) & _). exact Hw.
  - left. apply executeTransfer_inl in He as (Hw3 & _).
    cbn [released emit set_redis_lock set_logs wallets]. rewrite Hw3.
    apply createTransactionLog_cases in Hc as (_ & _ & _ & [(_ & _ & ->)|Hc]);
      [reflexivity|].
    destruct Hc as (existing & _ & (Hw & _) & _). exact Hw.
  - right.
    assert (Ew : wallets w2 = wallets w).
    { apply createTransactionLog_cases in Hc as (_ & _ & _ & [(_ & _ & ->)|Hc]);
        [reflexivity|].
      destruct Hc as (existing & _ & (Hw & _) & _). exact Hw. }
    apply executeTransfer_inr in He as (w4 & He & ->).
    apply executeTransfer_callback_inr in He; [|apply (wallets_wf_tables w); assumption].
    destruct He as (fromW & toW & aD & fD & tD & He). cbv zeta in He.
    destruct He as (Hne & Hf & Ht & _ & _ & Hb & Ea & Ef & Et & _ & Hw4 & _).
    cbn [wallets emit] in Hf, Ht, Hw4. rewrite Ew in Hf, Ht, Hw4.
    exists fromW, toW, aD, fD, tD, (decimal_rounding (emit TxBegin w2)).
    repeat (split; [assumption|]).
    cbn [released cached emit set_redis_lock set_redis_idempotency wallets]. exact Hw4.
Qed.

Lemma money_balance_cents s c : money s c -> balance_cents s = c.
Proof. intros (m & e & H & _ & ->). unfold balance_cents. rewrite H. reflexivity. Qed.

Lemma money_amount_bounds transferDto ca :
  money (amount transferDto) ca -> ~ invalid_request transferDto ->
  0 < ca <= 100000000000.
Proof.
  intros Ma Hv. pose proof (invalid_request_money transferDto ca Ma) as Hi.
  destruct (Z.le_gt_cases ca 0); [exfalso; apply Hv, Hi; auto|].
  destruct (Z.lt_ge_cases 100000000000 ca); [exfalso; apply Hv, Hi; auto|]. lia.
Qed.

(** * A transfer and its reverse *)



(** * Amounts with three decimals *)
Section ThreeDecimals.

Import Decimal.

(** A balance of [c1] hundredths less, or more, an amount of [m]
    thousandths, printed with two decimals: the exact result in thousandths
    is rounded to hundredths. *)
Lemma toFixed_minus_thousandths rm m1 s1 m :
  s1 = 0 \/ s1 = 1 \/ s1 = 2 ->
  let c1 := m1 * 10 ^ (2 - s1) in
  Z.abs (10 * c1 - m) < 10 ^ precision ->
  toFixed rm 2 (minus rm (Fin m1 s1) (Fin m 3))
    = print_fixed 2 (10 * c1 - m <? 0) (Z.abs (round_div rm (10 * c1 - m) 10)).
Proof.
  intros H1 c1 Hb. subst c1. unfold minus, align.
  destruct H1 as [-> | [-> | ->]]; DecimalFacts.eval_scales;
    (rewrite DecimalFacts.finalise_small by (unfold precision in *; lia));
    unfold toFixed; cbn [Z.of_nat Pos.of_succ_nat Pos.succ Z.leb Z.compare Pos.compare
                         Pos.compare_cont];
    DecimalFacts.eval_scales;
    (f_equal; [apply eq_true_iff_eq; rewrite !Z.ltb_lt; lia|do 2 f_equal; lia]).
Qed.

Lemma toFixed_plus_thousandths rm m1 s1 m :
  s1 = 0 \/ s1 = 1 \/ s1 = 2 ->
  let c1 := m1 * 10 ^ (2 - s1) in
  Z.abs (10 * c1 + m) < 10 ^ precision ->
  toFixed rm 2 (plus rm (Fin m1 s1) (Fin m 3))
    = print_fixed 2 (10 * c1 + m <? 0) (Z.abs (round_div rm (10 * c1 + m) 10)).
Proof.
  intros H1 c1 Hb. subst c1. unfold plus, align.
  destruct H1 as [-> | [-> | ->]]; DecimalFacts.eval_scales;
    (rewrite DecimalFacts.finalise_small by (unfold precision in *; lia));
    unfold toFixed; cbn [Z.of_nat Pos.of_succ_nat Pos.succ Z.leb Z.compare Pos.compare
                         Pos.compare_cont];
    DecimalFacts.eval_scales;
    (f_equal; [apply eq_true_iff_eq; rewrite !Z.ltb_lt; lia|do 2 f_equal; lia]).
Qed.

(** Half a hundredth is rounded away from zero under [ROUND_HALF_UP]. *)
Lemma round_div_half_up c : 0 <= c -> c mod 10 = 5 ->
  round_div ROUND_HALF_UP c 10 = c / 10 + 1.
Proof.
  intros Hc Hm. unfold round_div. rewrite Z.abs_eq by lia. rewrite Hm.
  change (2 * 5 ?= 10) with Eq. cbv iota.
  assert (0 < c) by (destruct (Z.eq_dec c 0) as [->|]; [discriminate Hm|lia]).
  rewrite Z.sgn_pos by lia. lia.
Qed.

Lemma round_div_nonneg rm c : 0 <= c -> 0 <= round_div rm c 10.
Proof.
  intros Hc. unfold round_div. rewrite Z.abs_eq by lia.
  pose proof (Z.div_pos c 10 Hc ltac:(lia)).
  destruct (Z.eq_dec c 0) as [->|Hn].
  - cbn. lia.
  - rewrite Z.sgn_pos by lia.
    destruct (2 * (c mod 10) ?= 10); [destruct rm; [|destruct (Z.odd _)]| |]; lia.
Qed.

End ThreeDecimals.

(** X25: Nothing in the service holds an amount to two decimals, and with a
    third decimal the two balances are rounded each on its own.  When a
    transfer of [m] thousandths between wallets holding [cb] and [cd]
    hundredths is executed, the source is left with [10 cb - m] thousandths
    and the destination with [10 cd + m] thousandths, each rounded to
    hundredths in the rounding mode of [decimal.js]; under ROUND_HALF_UP, the
    mode it starts with, an amount that ends in half a hundredth is debited
    rounded down and credited rounded up, and the two wallets hold one
    hundredth more than before. *)
Theorem transfer_rounds_each_balance
    (transferDto : TransferDto) (w w' : World) (result : TransferResponseDto)
    (fromW toW : Wallet) (cb cd m : Z) :
  wallets_wf w ->
  wallets w !! fromWalletId transferDto = Some fromW ->
  wallets w !! toWalletId transferDto = Some toW ->
  money (w_balance fromW) cb -> money (w_balance toW) cd ->
  Numeral.scan_unsigned (amount transferDto) = Some (m, -3, EmptyString) ->
  m <= 10 * cb -> 10 * cb < 10 ^ 20 -> 10 * cd + m < 10 ^ 20 ->
  live (now w) (redis_idempotency w !! idempotencyKey transferDto) = None ->
  transaction_logs w !! idempotencyKey transferDto = None ->
  transfer transferDto w = (inr result, w') ->
  let rm := decimal_rounding w in
  newBalance (fromWallet result)
    = Decimal.print_fixed 2 false (Decimal.round_div rm (10 * cb - m) 10) /\
  newBalance (toWallet result)
    = Decimal.print_fixed 2 false (Decimal.round_div rm (10 * cd + m) 10) /\
  (rm = Decimal.ROUND_HALF_UP -> m mod 10 = 5 ->
   Decimal.round_div rm (10 * cb - m) 10 + Decimal.round_div rm (10 * cd + m) 10
     = cb + cd + 1).
Proof.
  intros Hwf Hf Ht Mb Md Ha Hle Bb Bd Hc Hl H. cbv zeta.
  unfold transfer in H. rewrite bind_apply in H.
  rewrite (checkIdempotency_miss _ _ Hc Hl) in H.
  apply transfer_resume_inr in H as (tl & w2 & w3 & Hv & Hk & Hcr & He & ->).
  rewrite (createTransactionLog_fresh transferDto
             (locked (idempotencyKey transferDto) (checked (idempotencyKey transferDto) w))
             Hl) in Hcr.
  injection Hcr as <- <-.
  apply executeTransfer_inr in He as (w4 & He & ->).
  apply executeTransfer_callback_inr in He;
    [|apply (wallets_wf_tables w); [reflexivity|exact Hwf]].
  destruct He as (fromW' & toW' & aD & fD & tD & He). cbv zeta in He.
  destruct He as (_ & Hf' & Ht' & _ & _ & _ & Ea & Ef & Et & -> & _).
  cbn [wallets emit inserted set_next_uuid set_logs locked checked set_redis_lock
       decimal_rounding] in *.
  rewrite Hf in Hf'. rewrite Ht in Ht'. injection Hf' as <-. injection Ht' as <-.
  pose proof (money_nonneg _ _ Mb) as Nb. pose proof (money_nonneg _ _ Md) as Nd.
  pose proof (scan_unsigned_nonneg _ _ _ _ Ha) as Nm.
  destruct (money_Decimal _ _ Mb) as (mb & sb & Ef' & Hsb & ->).
  destruct (money_Decimal _ _ Md) as (md & sd & Et' & Hsd & ->).
  assert (Ea' : Decimal.new (amount transferDto) = Some (Decimal.Fin m 3)).
  { destruct (scan_unsigned_plain _ _ Ha) as (_ & S & _ & I1 & I2).
    unfold Decimal.new. rewrite S, I1, I2, Ha. reflexivity. }
  rewrite Ea' in Ea. rewrite Ef' in Ef. rewrite Et' in Et.
  injection Ea as <-. injection Ef as <-. injection Et as <-.
  cbn [fromWallet toWallet newBalance].
  rewrite (toFixed_minus_thousandths _ mb sb m Hsb)
    by (cbv zeta; unfold Decimal.precision; lia).
  rewrite (toFixed_plus_thousandths _ md sd m Hsd)
    by (cbv zeta; unfold Decimal.precision; lia).
  cbv zeta.
  set (cb := mb * 10 ^ (2 - sb)) in *. set (cd := md * 10 ^ (2 - sd)) in *.
  pose proof (round_div_nonneg (decimal_rounding w) (10 * cb - m) ltac:(lia)).
  pose proof (round_div_nonneg (decimal_rounding w) (10 * cd + m) ltac:(lia)).
  replace (10 * cb - m <? 0) with false by (symmetry; apply Z.ltb_ge; lia).
  replace (10 * cd + m <? 0) with false by (symmetry; apply Z.ltb_ge; lia).
  rewrite !Z.abs_eq by lia.
  split; [reflexivity|]. split; [reflexivity|].
  intros -> Hm.
  rewrite round_div_half_up; [|lia|].
  - rewrite round_div_half_up; [|lia|].
    + pose proof (Z.div_mod m 10 ltac:(lia)).
      pose proof (Z.div_mod (10 * cb - m) 10 ltac:(lia)) as D1.
      pose proof (Z.div_mod (10 * cd + m) 10 ltac:(lia)) as D2.
      assert (M1 : (10 * cb - m) mod 10 = 5).
      { replace (10 * cb - m) with (5 + (cb - m / 10 - 1) * 10) by lia.
        rewrite Z.mod_add by lia. reflexivity. }
      assert (M2 : (10 * cd + m) mod 10 = 5).
      { replace (10 * cd + m) with (5 + (cd + m / 10) * 10) by lia.
        rewrite Z.mod_add by lia. reflexivity. }
      lia.
    + pose proof (Z.div_mod m 10 ltac:(lia)).
      replace (10 * cd + m) with (5 + (cd + m / 10) * 10) by lia.
      rewrite Z.mod_add by lia. reflexivity.
  - pose proof (Z.div_mod m 10 ltac:(lia)).
    replace (10 * cb - m) with (5 + (cb - m / 10 - 1) * 10) by lia.
    rewrite Z.mod_add by lia. reflexivity.
Qed.

(** ["1.005"] from ["1000.00"] to ["500.00"]: ["999.00"] and ["501.01"]. *)
Lemma transfer_rounds_each_balance_witness :
  exists result,
    fst (transfer Cases.half_a_cent_more Cases.initial_half_up) = inr result /\
    newBalance (fromWallet result) = "999.00" /\
    newBalance (toWallet result) = "501.01".
Proof.
  destruct (transfer Cases.half_a_cent_more Cases.initial_half_up) as [[e|r] w'] eqn:E;
    [vm_compute in E; discriminate E|].
  exists r. split; [reflexivity|].
  destruct (transfer_rounds_each_balance Cases.half_a_cent_more Cases.initial_half_up
              w' r Scenario.A Scenario.B 100000 50000 1005) as (Hf & Ht & _).
  - apply (wallets_wf_tables Scenario.initial); [reflexivity|apply wallets_wf_initial].
  - reflexivity.
  - reflexivity.
  - apply money_scale2. reflexivity.
  - apply money_scale2. reflexivity.
  - reflexivity.
  - lia.
  - lia.
  - lia.
  - reflexivity.
  - reflexivity.
  - exact E.
  - rewrite Hf, Ht. split; vm_compute; reflexivity.
Defined.

(** * The money in the wallets *)
Section Conservation.

#[local] Abbreviation cents_of row := (balance_cents (w_balance row)).
#[local] Abbreviation rows m := ((map_to_list m).*2).

Lemma total_cents_perm l l' : l ≡ₚ l' -> total_cents l = total_cents l'.
Proof.
  induction 1 as [|x l l' _ IH|x y l|l1 l2 l3 _ IH1 _ IH2]; cbn [total_cents foldr] in *;
    [reflexivity|unfold total_cents in IH; lia|lia|congruence].
Qed.

Lemma total_cents_nonneg l :
  Forall (fun row : Wallet => 0 <= cents_of row) l -> 0 <= total_cents l.
Proof.
  induction 1 as [|x l Hx _ IH]; cbn [total_cents foldr] in *; [lia|].
  unfold total_cents in IH. lia.
Qed.

Lemma total_delete (m : gmap string Wallet) i x :
  m !! i = Some x ->
  total_cents (rows m) = cents_of x + total_cents (rows (delete i m)).
Proof.
  intros H. rewrite <- (total_cents_perm _ _ (fmap_Permutation snd _ _ (map_to_list_delete m i x H))).
  reflexivity.
Qed.

Lemma total_insert_fresh (m : gmap string Wallet) i x :
  m !! i = None ->
  total_cents (rows (<[i := x]> m)) = cents_of x + total_cents (rows m).
Proof.
  intros H. rewrite (total_cents_perm _ _ (fmap_Permutation snd _ _ (map_to_list_insert m i x H))).
  reflexivity.
Qed.

Lemma total_update (m : gmap string Wallet) i x y :
  m !! i = Some x ->
  total_cents (rows (<[i := y]> m)) = total_cents (rows m) - cents_of x + cents_of y.
Proof.
  intros H. rewrite <- insert_delete_eq.
  rewrite total_insert_fresh by apply lookup_delete_eq.
  rewrite (total_delete m i x H). lia.
Qed.

Lemma rows_nonneg (m : gmap string Wallet) :
  map_Forall (fun _ row => exists c, money (w_balance row) c) m ->
  Forall (fun row : Wallet => 0 <= cents_of row) (rows m).
Proof.
  intros H. apply Forall_forall. intros row Hin.
  apply list_elem_of_fmap in Hin as ([k row'] & -> & Hin).
  apply elem_of_map_to_list in Hin. destruct (H k row' Hin) as (c & Hc).
  cbn. rewrite (money_balance_cents _ _ Hc). apply (money_nonneg _ _ Hc).
Qed.

(** Two wallets hold no more than all the wallets together. *)
Lemma total_two (m : gmap string Wallet) i j x y :
  map_Forall (fun _ row => exists c, money (w_balance row) c) m ->
  i <> j -> m !! i = Some x -> m !! j = Some y ->
  cents_of x + cents_of y <= total_cents (rows m).
Proof.
  intros Hm Hne Hi Hj. rewrite (total_delete m i x Hi).
  rewrite (total_delete (delete i m) j y) by (rewrite lookup_delete_ne by congruence; exact Hj).
  assert (0 <= total_cents (rows (delete j (delete i m)))); [|lia].
  apply total_cents_nonneg, rows_nonneg.
  intros k row Hk. apply lookup_delete_Some in Hk as (_ & Hk).
  apply lookup_delete_Some in Hk as (_ & Hk). apply (Hm k row Hk).
Qed.

(** One request for an amount of money, run on wallets that hold amounts of
    money: the wallets stay well formed and hold the same total. *)
Lemma transfer_money_step transferDto w ca :
  wallets_wf w -> balances_wf w ->
  total_cents (rows (wallets w)) < 10 ^ 20 ->
  money (amount transferDto) ca ->
  let w' := snd (transfer transferDto w) in
  wallets_wf w' /\ balances_wf w' /\
  total_cents (rows (wallets w')) = total_cents (rows (wallets w)).
Proof.
  intros Hwf Hbal Htot Ma. cbv zeta.
  destruct (transfer_wallets_cases transferDto w Hwf) as [Hw|H].
  { unfold wallets_wf, balances_wf. rewrite Hw. auto. }
  destruct H as (fromW & toW & aD & fD & tD & rm & Hv & Hne & Hf & Ht & Hb & Ea & Ef & Et & Hw).
  destruct (Hbal _ _ Hf) as (cb & Mb). destruct (Hbal _ _ Ht) as (cd & Md).
  pose proof (money_amount_bounds _ _ Ma Hv) as Hr.
  rewrite (hasAvailableBalance_exact fromW (amount transferDto) cb ca Mb Ma Hr) in Hb.
  apply Z.leb_le in Hb.
  pose proof (money_nonneg _ _ Mb). pose proof (money_nonneg _ _ Md).
  pose proof (total_two (wallets w) _ _ fromW toW Hbal Hne Hf Ht) as H2.
  cbn beta in H2.
  rewrite (money_balance_cents _ _ Mb), (money_balance_cents _ _ Md) in H2.
  destruct (money_new_balances rm fromW toW (amount transferDto) aD fD tD cb cd ca
              Mb Md Ma Ea Ef Et Hb ltac:(lia) ltac:(lia)) as [Nf Nt].
  rewrite Nf, Nt in Hw. unfold wallets_wf, balances_wf. rewrite Hw.
  split; [|split].
  - apply map_Forall_insert_2; [apply (Hwf _ _ Ht)|].
    apply map_Forall_insert_2; [apply (Hwf _ _ Hf)|exact Hwf].
  - apply map_Forall_insert_2; [exists (cd + ca); apply money_print_fixed; lia|].
    apply map_Forall_insert_2; [exists (cb - ca); apply money_print_fixed; lia|exact Hbal].
  - rewrite (total_update _ _ toW) by (rewrite lookup_insert_ne by congruence; exact Ht).
    rewrite (total_update _ _ fromW) by exact Hf.
    cbn [with_balance w_balance].
    rewrite (money_balance_cents _ _ (money_print_fixed (cd + ca) ltac:(lia))).
    rewrite (money_balance_cents _ _ (money_print_fixed (cb - ca) ltac:(lia))).
    rewrite (money_balance_cents _ _ Mb), (money_balance_cents _ _ Md). lia.
Qed.

Lemma reachable_money_invariant w0 w :
  wallets_wf w0 -> balances_wf w0 ->
  total_cents (rows (wallets w0)) < 10 ^ 20 ->
  reachable_money w0 w ->
  wallets_wf w /\ balances_wf w /\
  total_cents (rows (wallets w)) = total_cents (rows (wallets w0)).
Proof.
  intros Hwf Hbal Htot Hr. induction Hr as [|w dto c Hr IH Ma|w d Hr IH].
  - auto.
  - destruct IH as (Hwf1 & Hbal1 & Ht1).
    destruct (transfer_money_step dto w c Hwf1 Hbal1 ltac:(lia) Ma) as (A & B & C).
    cbv zeta in *. split; [exact A|]. split; [exact B|]. lia.
  - exact IH.
Qed.

End Conservation.

(** X2: Money is neither made nor lost.  Start from wallets that each hold an
    amount written with at most two decimals, for a total below [10^18];
    then, after any number of requests for amounts written with at most two
    decimals, run one after the other with time passing in between, whether
    they go through, fail or are replays, the balances that [getAllWallets]
    lists add up to what they added up to at the start. *)
Theorem transfers_conserve_money (w0 w : World) (before after : list Wallet) :
  wallets_wf w0 -> balances_wf w0 ->
  fst (getAllWallets w0) = inr before -> total_cents before < 10 ^ 20 ->
  reachable_money w0 w ->
  fst (getAllWallets w) = inr after ->
  total_cents after = total_cents before.
Proof.
  intros Hwf Hbal [= <-] Htot Hr [= <-].
  apply (reachable_money_invariant w0 w Hwf Hbal Htot Hr).
Qed.

(** X3: No overdraft.  Under the same conditions every wallet still holds an
    amount written without a sign and with at most two decimals: no request,
    in any sequence, takes a balance below zero. *)
Theorem transfers_never_overdraw (w0 w : World) (before : list Wallet) :
  wallets_wf w0 -> balances_wf w0 ->
  fst (getAllWallets w0) = inr before -> total_cents before < 10 ^ 20 ->
  reachable_money w0 w ->
  forall id row, wallets w !! id = Some row ->
    exists c, money (w_balance row) c /\ 0 <= c /\ balance_cents (w_balance row) = c.
Proof.
  intros Hwf Hbal [= <-] Htot Hr id row Hrow.
  destruct (reachable_money_invariant w0 w Hwf Hbal Htot Hr) as (_ & Hb & _).
  destruct (Hb id row Hrow) as (c & Hc). exists c.
  split; [exact Hc|]. split; [apply (money_nonneg _ _ Hc)|apply money_balance_cents, Hc].
Qed.

Lemma reachable_money_two_transfers :
  reachable_money Scenario.initial
    (snd (transfer Scenario.t2 (snd (transfer Scenario.t1 Scenario.initial)))).
Proof.
  apply (reachable_money_transfer _ _ Scenario.t2 10000);
    [|apply money_scale2; reflexivity].
  apply (reachable_money_transfer _ _ Scenario.t1 9999);
    [|apply money_scale2; reflexivity].
  apply reachable_money_refl.
Qed.

Lemma balances_wf_initial : balances_wf Scenario.initial.
Proof.
  intros k row H. cbn in H. apply lookup_insert_Some in H as [[_ <-]|[_ H]].
  - exists 100000. apply money_scale2. reflexivity.
  - apply lookup_insert_Some in H as [[_ <-]|[_ H]].
    + exists 50000. apply money_scale2. reflexivity.
    + rewrite lookup_empty in H. discriminate H.
Qed.

(** 1000.00 and 500.00 at the start; 800.01 and 699.99 after [t1] and
    [t2]. *)
Lemma transfers_conserve_money_witness :
  total_cents
    ((map_to_list
        (wallets (snd (transfer Scenario.t2 (snd (transfer Scenario.t1 Scenario.initial)))))).*2)
  = 150000.
Proof.
  rewrite (transfers_conserve_money Scenario.initial
             (snd (transfer Scenario.t2 (snd (transfer Scenario.t1 Scenario.initial))))
             ((map_to_list (wallets Scenario.initial)).*2) _
             wallets_wf_initial balances_wf_initial eq_refl).
  - vm_compute. reflexivity.
  - vm_compute. reflexivity.
  - apply reachable_money_two_transfers.
  - reflexivity.
Defined.

Lemma transfers_never_overdraw_witness :
  exists row c,
    wallets (snd (transfer Scenario.t2 (snd (transfer Scenario.t1 Scenario.initial)))) !! "A"
      = Some row /\
    money (w_balance row) c /\ 0 <= c.
Proof.
  destruct (wallets (snd (transfer Scenario.t2 (snd (transfer Scenario.t1 Scenario.initial))))
              !! "A") as [row|] eqn:E; [|vm_compute in E; discriminate E].
  destruct (transfers_never_overdraw Scenario.initial
              (snd (transfer Scenario.t2 (snd (transfer Scenario.t1 Scenario.initial))))
              ((map_to_list (wallets Scenario.initial)).*2)
              wallets_wf_initial balances_wf_initial eq_refl) with (id := "A") (row := row)
    as (c & Hm & Hc & _).
  - vm_compute. reflexivity.
  - apply reachable_money_two_transfers.
  - exact E.
  - exists row, c. auto.
Defined.

(** * The ledger and the balances agree *)

Lemma ledger_of_wallet_app id w w' l :
  ledger_entries w' = (ledger_entries w ++ l)%list ->
  ledger_of_wallet id w'
    = (ledger_of_wallet id w ++ filter (fun e => l_walletId e = id) l)%list.
Proof. unfold ledger_of_wallet. intros ->. apply filter_app. Qed.

Lemma effect_tracks transferDto w w' :
  effect transferDto w w' ->
  wallets_wf w /\ ledger_tracks_balances w ->
  wallets_wf w' /\ ledger_tracks_balances w'.
Proof.
  intros He (Hwf & Htr).
  destruct He as [(Hw & Hl & Hg) Hn
                 | row Hnone Hrow Hst Hw Hg Hl Hn
                 | row fromW toW newFrom newTo Hnone Hrow Hst Hne Hf Ht Hw Hg Hl Hn].
  - unfold wallets_wf, ledger_tracks_balances, ledger_of_wallet. rewrite Hw, Hg. auto.
  - unfold wallets_wf, ledger_tracks_balances, ledger_of_wallet. rewrite Hw, Hg. auto.
  - split.
    { unfold wallets_wf. rewrite Hw.
      apply map_Forall_insert_2; [apply (Hwf _ _ Ht)|].
      apply map_Forall_insert_2; [apply (Hwf _ _ Hf)|exact Hwf]. }
    intros id r e Hr He. rewrite (ledger_of_wallet_app id w w' _ Hg) in He.
    rewrite Hw in Hr.
    destruct (decide (id = toWalletId transferDto)) as [->|Nt].
    + rewrite lookup_insert_eq in Hr. injection Hr as <-.
      rewrite filter_cons_False in He by (cbn [l_walletId]; congruence).
      rewrite filter_cons_True in He by reflexivity.
      rewrite filter_nil, last_snoc in He. injection He as <-. reflexivity.
    + rewrite lookup_insert_ne in Hr by congruence.
      destruct (decide (id = fromWalletId transferDto)) as [->|Nf].
      * rewrite lookup_insert_eq in Hr. injection Hr as <-.
        rewrite filter_cons_True in He by reflexivity.
        rewrite filter_cons_False in He by (cbn [l_walletId]; congruence).
        rewrite filter_nil, last_snoc in He. injection He as <-. reflexivity.
      * rewrite lookup_insert_ne in Hr by congruence.
        rewrite filter_cons_False in He by (cbn [l_walletId]; congruence).
        rewrite filter_cons_False in He by (cbn [l_walletId]; congruence).
        rewrite filter_nil, app_nil_r in He. apply (Htr id r e Hr He).
Qed.

(** X21: The audit trail agrees with the balances.  If, for every wallet that has
    ledger rows, the latest of them shows the balance the wallet holds, then
    this is still so after any number of requests run one after the other,
    whatever their bodies and outcomes. *)
Theorem sequential_ledger_tracks_balances (w0 w : World) :
  wallets_wf w0 -> ledger_tracks_balances w0 -> reachable w0 w ->
  ledger_tracks_balances w.
Proof.
  intros Hwf Htr Hr.
  assert (H : wallets_wf w /\ ledger_tracks_balances w); [|apply H].
  induction Hr as [|w dto Hr IH|w d Hr IH].
  - auto.
  - apply (effect_tracks dto w); [apply transfer_effect, IH|exact IH].
  - exact IH.
Qed.

Lemma reachable_after_t1 : reachable Scenario.initial Scenario.after_t1.
Proof. apply (reachable_transfer _ _ Scenario.t1), reachable_refl. Qed.

Lemma sequential_ledger_tracks_balances_witness :
  ledger_tracks_balances Scenario.after_t1.
Proof.
  apply (sequential_ledger_tracks_balances Scenario.initial Scenario.after_t1).
  - apply wallets_wf_initial.
  - intros id row e _ H. discriminate H.
  - apply reachable_after_t1.
Defined.

(** The row of [t1] and its pair, after [t1] alone. *)
Lemma sequential_completed_rows_have_one_pair_witness :
  exists row,
    transaction_logs Scenario.after_t1 !! "t1" = Some row /\
    pair_of row (ledger_of (t_id row) Scenario.after_t1).
Proof.
  destruct (transaction_logs Scenario.after_t1 !! "t1") as [row|] eqn:E;
    [|vm_compute in E; discriminate E].
  exists row. split; [reflexivity|].
  apply (sequential_completed_rows_have_one_pair Scenario.initial Scenario.after_t1 "t1" row).
  - apply ledger_invariant_initial.
  - apply reachable_after_t1.
  - exact E.
  - vm_compute in E. injection E as <-. reflexivity.
Defined.

(** * Versions count ledger rows *)

Lemma effect_counts transferDto w w' :
  effect transferDto w w' -> wallets_wf w ->
  wallets_wf w' /\
  forall id row', wallets w' !! id = Some row' ->
    exists row, wallets w !! id = Some row /\
      w_version row' - w_version row
        = Z.of_nat (length (ledger_of_wallet id w')) - Z.of_nat (length (ledger_of_wallet id w)).
Proof.
  intros He Hwf.
  destruct He as [(Hw & Hl & Hg) Hn
                 | row Hnone Hrow Hst Hw Hg Hl Hn
                 | row fromW toW newFrom newTo Hnone Hrow Hst Hne Hf Ht Hw Hg Hl Hn].
  - unfold wallets_wf, ledger_of_wallet. rewrite Hw, Hg. split; [exact Hwf|].
    intros id r Hr. exists r. split; [exact Hr|lia].
  - unfold wallets_wf, ledger_of_wallet. rewrite Hw, Hg. split; [exact Hwf|].
    intros id r Hr. exists r. split; [exact Hr|lia].
  - split.
    { unfold wallets_wf. rewrite Hw.
      apply map_Forall_insert_2; [apply (Hwf _ _ Ht)|].
      apply map_Forall_insert_2; [apply (Hwf _ _ Hf)|exact Hwf]. }
    intros id r Hr. rewrite (ledger_of_wallet_app id w w' _ Hg), length_app.
    rewrite Hw in Hr.
    destruct (decide (id = toWalletId transferDto)) as [->|Nt].
    + rewrite lookup_insert_eq in Hr. injection Hr as <-. exists toW. split; [exact Ht|].
      rewrite filter_cons_False by (cbn [l_walletId]; congruence).
      rewrite filter_cons_True by reflexivity. rewrite filter_nil.
      cbn [with_balance w_version length]. lia.
    + rewrite lookup_insert_ne in Hr by congruence.
      destruct (decide (id = fromWalletId transferDto)) as [->|Nf].
      * rewrite lookup_insert_eq in Hr. injection Hr as <-. exists fromW.
        split; [exact Hf|].
        rewrite filter_cons_True by reflexivity.
        rewrite filter_cons_False by (cbn [l_walletId]; congruence). rewrite filter_nil.
        cbn [with_balance w_version length]. lia.
      * rewrite lookup_insert_ne in Hr by congruence. exists r. split; [exact Hr|].
        rewrite filter_cons_False by (cbn [l_walletId]; congruence).
        rewrite filter_cons_False by (cbn [l_walletId]; congruence).
        rewrite filter_nil. cbn [length]. lia.
Qed.

(** X26: The version of a wallet counts its ledger rows.  Over any number of
    requests run one after the other, the version of a wallet goes up by
    exactly the number of ledger rows written for that wallet: one for every
    completed transfer that debits or credits it, and none otherwise. *)
Theorem sequential_versions_count_ledger_rows (w0 w : World) (id : string) (row : Wallet) :
  wallets_wf w0 -> reachable w0 w ->
  wallets w !! id = Some row ->
  exists row0,
    wallets w0 !! id = Some row0 /\
    w_version row - w_version row0
      = Z.of_nat (length (ledger_of_wallet id w))
        - Z.of_nat (length (ledger_of_wallet id w0)).
Proof.
  intros Hwf Hr. revert id row.
  assert (H : wallets_wf w /\
              forall id row, wallets w !! id = Some row ->
                exists row0, wallets w0 !! id = Some row0 /\
                  w_version row - w_version row0
                    = Z.of_nat (length (ledger_of_wallet id w))
                      - Z.of_nat (length (ledger_of_wallet id w0))); [|apply H].
  induction Hr as [|w dto Hr IH|w d Hr IH].
  - split; [exact Hwf|]. intros id row Hrow. exists row. split; [exact Hrow|lia].
  - destruct IH as [Hwf1 IH].
    destruct (effect_counts dto w _ (transfer_effect dto w Hwf1) Hwf1) as [Hwf2 Hstep].
    split; [exact Hwf2|]. intros id row Hrow.
    destruct (Hstep id row Hrow) as (row1 & Hrow1 & E1).
    destruct (IH id row1 Hrow1) as (row0 & Hrow0 & E0).
    exists row0. split; [exact Hrow0|lia].
  - exact IH.
Qed.

Lemma sequential_versions_count_ledger_rows_witness :
  exists row,
    wallets Scenario.after_t1 !! "A" = Some row /\
    w_version row = 2 /\ length (ledger_of_wallet "A" Scenario.after_t1) = 1%nat.
Proof.
  destruct (wallets Scenario.after_t1 !! "A") as [row|] eqn:E;
    [|vm_compute in E; discriminate E].
  destruct (sequential_versions_count_ledger_rows Scenario.initial Scenario.after_t1 "A" row)
    as (row0 & H0 & Hv).
  - apply wallets_wf_initial.
  - apply reachable_after_t1.
  - exact E.
  - exists row. split; [reflexivity|].
    change (wallets Scenario.initial !! "A") with (Some Scenario.A) in H0.
    injection H0 as <-.
    assert (Hl : length (ledger_of_wallet "A" Scenario.after_t1) = 1%nat)
      by (vm_compute; reflexivity).
    rewrite Hl in Hv. split; [|exact Hl].
    change (w_version Scenario.A) with 1 in Hv.
    change (length (ledger_of_wallet "A" Scenario.initial)) with 0%nat in Hv. lia.
Defined.

(** * The amounts that the validation lets through *)
Module Binary64Range.
Import Binary64 Binary64Facts.
#[local] Open Scope Q_scope.

Lemma half_ulp_min : pow2 (-1075) == (1 # 2) * pow2 (-1074).
Proof. change (-1075)%Z with (-1 + -1074)%Z. rewrite pow2_add. reflexivity. Qed.

Lemma ulp_exp_subnormal x : 0 < x -> x < pow2 (-1022) -> ulp_exp x = (-1074)%Z.
Proof. intros Hx H. pose proof (ilog2_lt x _ Hx H). unfold ulp_exp. lia. Qed.

(** At most half the smallest positive double: rounded to zero. *)
Lemma round_tiny x : 0 < x -> x <= pow2 (-1075) -> round_pos x == 0.
Proof.
  intros Hx H.
  assert (Hs : x < pow2 (-1022)).
  { apply Qle_lt_trans with (pow2 (-1075)); [exact H|]. apply pow2_lt. lia. }
  unfold round_pos. rewrite (ulp_exp_subnormal x Hx Hs).
  pose proof (pow2_pos (-1074)) as Hp. pose proof half_ulp_min as Eh.
  set (P := pow2 (-1074)) in *. set (t := x / P).
  assert (Ht1 : t <= 1 # 2) by (apply Qle_shift_div_r; [exact Hp|lra]).
  assert (Ht0 : 0 < t) by (apply Qlt_shift_div_l; [exact Hp|lra]).
  assert (Hf : Qfloor t = 0%Z).
  { pose proof (Qfloor_le t) as Hl. pose proof (Qlt_floor t) as Hu.
    assert (Qfloor t < 1)%Z by (rewrite Zlt_Qlt; change (inject_Z 1) with 1; lra).
    assert (0 < Qfloor t + 1)%Z by (rewrite Zlt_Qlt; change (inject_Z 0) with 0; lra).
    lia. }
  assert (Hr : rne t = 0%Z).
  { unfold rne. rewrite Hf.
    destruct (Qcompare_spec (t - inject_Z 0) (1 # 2)) as [E|E|E]; [reflexivity|reflexivity|].
    exfalso. change (inject_Z 0) with 0 in E. lra. }
  rewrite Hr. change (inject_Z 0) with 0. lra.
Qed.

(** Above it: rounded to a positive double. *)
Lemma round_not_tiny x : pow2 (-1075) < x -> 0 < round_pos x.
Proof.
  intros H. pose proof (pow2_pos (-1075)) as H0. assert (Hx : 0 < x) by lra.
  destruct (Z_le_gt_dec (-1022) (ilog2 x)) as [Hn|Hs].
  - pose proof (round_pos_lower x Hx Hn). pose proof (pow2_pos (ilog2 x)). lra.
  - unfold round_pos. assert (Eq : ulp_exp x = (-1074)%Z) by (unfold ulp_exp; lia).
    rewrite Eq. pose proof (pow2_pos (-1074)) as Hp. pose proof half_ulp_min as Eh.
    set (P := pow2 (-1074)) in *. set (t := x / P).
    assert (Ht : 1 # 2 < t) by (apply Qlt_shift_div_l; [exact Hp|lra]).
    pose proof (rne_err t) as [_ He].
    assert (Hr : (0 < rne t)%Z).
    { rewrite Zlt_Qlt. change (inject_Z 0) with 0. lra. }
    apply Qmult_lt_0_compat; [|exact Hp].
    rewrite Zlt_Qlt in Hr. exact Hr.
Qed.

Lemma round_pos_max_tie : round_pos (1000000000 + pow2 (-24)) == 1000000000.
Proof. vm_compute. reflexivity. Qed.

(** Up to half a unit in the last place above [10^9]: rounded to [10^9] at
    most. *)
Lemma round_at_max x : 0 < x -> x <= 1000000000 + pow2 (-24) -> round_pos x <= 1000000000.
Proof.
  intros Hx H. pose proof (round_pos_mono x _ Hx H) as Hm.
  pose proof round_pos_max_tie. lra.
Qed.

Lemma ilog2_pow2_29 : ilog2 (pow2 29) = 29%Z.
Proof. vm_compute. reflexivity. Qed.

Lemma round_pos_pow2_30 : 1000000000 < round_pos (pow2 30).
Proof. vm_compute. reflexivity. Qed.

Lemma max_in_ulps :
  (inject_Z 8388608000000000 + (1 # 2)) * pow2 (-23) == 1000000000 + pow2 (-24).
Proof. vm_compute. reflexivity. Qed.

Lemma next_after_max : 1000000000 < inject_Z 8388608000000001 * pow2 (-23).
Proof. vm_compute. reflexivity. Qed.

(** Beyond that: rounded to more than [10^9]. *)
Lemma round_above_max x : 1000000000 + pow2 (-24) < x -> 1000000000 < round_pos x.
Proof.
  intros H. pose proof (pow2_pos (-24)) as H24. assert (Hx : 0 < x) by lra.
  destruct (Qlt_le_dec x (pow2 30)) as [Hlt|Hge].
  - assert (Hl : ilog2 x = 29%Z).
    { pose proof (ilog2_lt x 30 Hx Hlt).
      assert (Hm : pow2 29 <= x).
      { apply Qle_trans with 1000000000; [vm_compute; discriminate|lra]. }
      pose proof (ilog2_mono _ _ (pow2_pos 29) Hm) as Hlo.
      rewrite ilog2_pow2_29 in Hlo. lia. }
    unfold round_pos, ulp_exp. rewrite Hl.
    change (Z.max 29 (-1022) - 52)%Z with (-23)%Z.
    pose proof (pow2_pos (-23)) as Hp. pose proof max_in_ulps as Em.
    pose proof next_after_max as En.
    set (P := pow2 (-23)) in *. set (t := x / P).
    assert (Ht : inject_Z 8388608000000000 + (1 # 2) < t)
      by (apply Qlt_shift_div_l; [exact Hp|lra]).
    pose proof (rne_err t) as [_ He].
    assert (Hr : (8388608000000001 <= rne t)%Z).
    { assert (8388608000000000 < rne t)%Z by (rewrite Zlt_Qlt; lra). lia. }
    rewrite Zle_Qle in Hr.
    assert (inject_Z 8388608000000001 * P <= inject_Z (rne t) * P)
      by (apply Qmult_le_r; assumption).
    lra.
  - pose proof (round_pos_mono _ _ (pow2_pos 30) Hge). pose proof round_pos_pow2_30. lra.
Qed.

(** The first guard of the validation, on a value that is not negative. *)
Lemma leb_zero_of_Q v : 0 <= v ->
  leb (of_Q v) (of_Z 0) = true <-> v <= pow2 (-1075).
Proof.
  intros Hv. change (of_Z 0) with (Fin 0). pose proof (pow2_pos (-1075)) as H0.
  destruct (Qlt_le_dec 0 v) as [Hp|Hz].
  - rewrite (of_Q_pos v Hp).
    destruct (Qlt_le_dec (pow2 (-1075)) v) as [Hbig|Hsmall].
    + pose proof (round_not_tiny v Hbig) as Hr.
      split; [|intros; lra].
      destruct (Qle_bool (pow2 1024) (round_pos v)); cbn [leb]; [discriminate|].
      intros E. apply Qle_bool_iff in E. rewrite Qred_correct in E. lra.
    + pose proof (round_tiny v Hp Hsmall) as Hr.
      split; [intros; exact Hsmall|]. intros _.
      rewrite Qle_bool_false by (pose proof (pow2_pos 1024); lra). cbn [leb].
      apply Qle_bool_iff. rewrite Qred_correct. lra.
  - rewrite of_Q_zero by lra. split; [intros; lra|reflexivity].
Qed.

(** The second guard. *)
Lemma gtb_max_of_Q v : 0 <= v ->
  gtb (of_Q v) (of_Z 1000000000) = true <-> 1000000000 + pow2 (-24) < v.
Proof.
  intros Hv. change (of_Z 1000000000) with (Fin 1000000000). unfold gtb.
  pose proof (pow2_pos (-24)) as H24.
  destruct (Qlt_le_dec 0 v) as [Hp|Hz].
  - rewrite (of_Q_pos v Hp).
    destruct (Qlt_le_dec (1000000000 + pow2 (-24)) v) as [Hbig|Hsmall].
    + pose proof (round_above_max v Hbig) as Hr.
      split; [intros; exact Hbig|]. intros _.
      destruct (Qle_bool (pow2 1024) (round_pos v)); cbn [ltb negb]; [reflexivity|].
      rewrite Qle_bool_false by (rewrite Qred_correct; lra). reflexivity.
    + pose proof (round_at_max v Hp Hsmall) as Hr.
      split; [|intros; lra].
      rewrite Qle_bool_false by (pose proof pow2_1024_big; lra). cbn [ltb].
      rewrite Qle_bool_true by (rewrite Qred_correct; lra). discriminate.
  - rewrite of_Q_zero by lra. split; [discriminate|intros; lra].
Qed.

End Binary64Range.

(** What [parseFloat] makes of a string that starts with an unsigned
    numeral. *)
Lemma parseFloat_numeral s c e rest :
  Numeral.scan_unsigned s = Some (c, e, rest) ->
  parseFloat s = Binary64.of_Q (inject_Z c * Qpower 10 e)%Q /\
  (0 <= inject_Z c * Qpower 10 e)%Q.
Proof.
  intros H. destruct (scan_unsigned_plain s _ H) as (W & S & I & _).
  unfold parseFloat. rewrite W, S, I, H. split; [reflexivity|].
  apply Qmult_le_0_compat.
  - change 0%Q with (inject_Z 0). rewrite <- Zle_Qle. apply (scan_unsigned_nonneg _ _ _ _ H).
  - apply Qlt_le_weak, Qpower_0_lt. reflexivity.
Qed.

(** X20: The two bounds of the validation are bounds on the double nearest to the
    amount, not on the amount.  For an amount that starts with an unsigned
    numeral of value [v], and distinct wallets, the request is accepted
    exactly when [2^-1075 < v <= 10^9 + 2^-24]: an amount above the maximum
    by up to half a unit in the last place of the double [10^9] is accepted,
    and a positive amount of at most half the smallest positive double is
    rejected as not greater than 0. *)
Theorem validateTransferRequest_bounds_on_the_double
    (transferDto : TransferDto) (w : World) (c e : Z) (rest : string) :
  Numeral.scan_unsigned (amount transferDto) = Some (c, e, rest) ->
  let v := (inject_Z c * Qpower 10 e)%Q in
  validateTransferRequest transferDto w = (inr tt, w) <->
  fromWalletId transferDto <> toWalletId transferDto /\
  (Binary64.pow2 (-1075) < v)%Q /\ (v <= 1000000000 + Binary64.pow2 (-24))%Q.
Proof.
  intros H. cbv zeta. destruct (parseFloat_numeral _ _ _ _ H) as [Ep Hv].
  pose proof (Binary64Range.leb_zero_of_Q _ Hv) as L1.
  pose proof (Binary64Range.gtb_max_of_Q _ Hv) as L2.
  unfold validateTransferRequest. rewrite Ep.
  destruct (String.eqb_spec (fromWalletId transferDto) (toWalletId transferDto)) as [E|N].
  { split; [discriminate|]. intros (Hne & _). contradiction. }
  destruct (Binary64.leb _ _) eqn:E1.
  { split; [discriminate|]. intros (_ & Hlo & _).
    apply proj1 in L1. specialize (L1 eq_refl). exfalso.
    apply (Qlt_not_le _ _ Hlo). exact L1. }
  destruct (Binary64.gtb _ _) eqn:E2.
  { split; [discriminate|]. intros (_ & _ & Hhi).
    apply proj1 in L2. specialize (L2 eq_refl). exfalso.
    apply (Qlt_not_le _ _ L2). exact Hhi. }
  split; [|reflexivity]. intros _. split; [exact N|]. split.
  - apply Qnot_le_lt. intros Hle. apply proj2 in L1. specialize (L1 Hle). discriminate L1.
  - apply Qnot_lt_le. intros Hlt. apply proj2 in L2. specialize (L2 Hlt). discriminate L2.
Qed.

(** ["1000000000.00000001"]: above the maximum, and accepted. *)
Lemma validateTransferRequest_bounds_on_the_double_witness :
  validateTransferRequest Cases.just_above_max Scenario.initial
    = (inr tt, Scenario.initial).
Proof.
  apply (validateTransferRequest_bounds_on_the_double Cases.just_above_max Scenario.initial
           100000000000000001 (-8) EmptyString).
  - reflexivity.
  - split; [discriminate|]. split; vm_compute; congruence.
Defined.

(** * The history of a wallet *)
Section History.

#[local] Abbreviation newer_first :=
  (fun a b : TransactionLog => t_createdAt b <= t_createdAt a).

Lemma insert_createdAt_desc_perm t l : insert_createdAt_desc t l ≡ₚ t :: l.
Proof.
  induction l as [|x rest IH]; cbn [insert_createdAt_desc]; [reflexivity|].
  destruct (t_createdAt x <? t_createdAt t); [reflexivity|].
  rewrite IH. apply Permutation_swap.
Qed.

Lemma insert_createdAt_desc_sorted t l :
  StronglySorted newer_first l -> StronglySorted newer_first (insert_createdAt_desc t l).
Proof.
  induction 1 as [|x rest Hs IH Hx]; cbn [insert_createdAt_desc].
  - repeat constructor.
  - destruct (Z.ltb_spec (t_createdAt x) (t_createdAt t)) as [Hlt|Hge].
    + constructor; [constructor; assumption|].
      constructor; [lia|].
      eapply Forall_impl; [exact Hx|]. cbn. intros y Hy. lia.
    + constructor; [exact IH|].
      rewrite insert_createdAt_desc_perm. constructor; [exact Hge|exact Hx].
Qed.

Lemma order_createdAt_desc_perm l : order_createdAt_desc l ≡ₚ l.
Proof.
  induction l as [|x rest IH]; cbn [order_createdAt_desc foldr]; [reflexivity|].
  rewrite insert_createdAt_desc_perm. fold (order_createdAt_desc rest). rewrite IH.
  reflexivity.
Qed.

Lemma order_createdAt_desc_sorted l : StronglySorted newer_first (order_createdAt_desc l).
Proof.
  induction l as [|x rest IH]; cbn [order_createdAt_desc foldr]; [constructor|].
  apply insert_createdAt_desc_sorted, IH.
Qed.

Lemma sorted_app_before (l1 l2 : list TransactionLog) :
  StronglySorted newer_first (l1 ++ l2) ->
  StronglySorted newer_first l1 /\
  forall a b, a ∈ l1 -> b ∈ l2 -> t_createdAt b <= t_createdAt a.
Proof.
  induction l1 as [|x l1 IH]; cbn [app]; intros H.
  - split; [constructor|]. intros a b Ha. inversion Ha.
  - apply StronglySorted_inv in H as [Hs Hx]. destruct (IH Hs) as [Hs1 Hb].
    apply Forall_app in Hx as [Hx1 Hx2].
    split; [constructor; assumption|].
    intros a b Ha Hb2. apply elem_of_cons in Ha as [->|Ha].
    + rewrite Forall_forall in Hx2. apply (Hx2 b Hb2).
    + apply (Hb a b Ha Hb2).
Qed.

(** The rows that match a [where] clause. *)
Lemma matching_rows (where_ : TransactionLog -> bool) (w : World) t :
  t ∈ filter (fun t => where_ t = true) ((map_to_list (transaction_logs w)).*2) <->
  where_ t = true /\ exists k, transaction_logs w !! k = Some t.
Proof.
  rewrite list_elem_of_filter, list_elem_of_fmap. split.
  - intros (Hw & [k t'] & -> & Hin). split; [exact Hw|]. exists k.
    apply elem_of_map_to_list, Hin.
  - intros (Hw & k & Hk). split; [exact Hw|]. exists (k, t). split; [reflexivity|].
    apply elem_of_map_to_list, Hk.
Qed.

Lemma findAll_spec (where_ : TransactionLog -> bool) (limit : nat) (w : World) :
  exists found,
    transactionLogModel_findAll where_ limit w = (inr found, w) /\
    (length found <= limit)%nat /\
    StronglySorted newer_first found /\
    (forall t, In t found ->
       where_ t = true /\ exists k, transaction_logs w !! k = Some t) /\
    (forall k t, transaction_logs w !! k = Some t -> where_ t = true ->
       In t found \/
       length found = limit /\ forall r, In r found -> t_createdAt t <= t_createdAt r).
Proof.
  unfold transactionLogModel_findAll.
  set (matching := filter (fun t => where_ t = true) _).
  set (sorted := order_createdAt_desc matching).
  exists (take limit sorted). split; [reflexivity|].
  pose proof (order_createdAt_desc_sorted matching) as Hs. fold sorted in Hs.
  rewrite <- (take_drop limit sorted) in Hs.
  apply sorted_app_before in Hs as [Hs1 Hb].
  split; [rewrite length_take; lia|]. split; [exact Hs1|]. split.
  - intros t Ht. apply list_elem_of_In in Ht.
    apply (matching_rows where_ w t). change (t ∈ matching).
    rewrite <- (order_createdAt_desc_perm matching). change (t ∈ sorted).
    rewrite <- (take_drop limit sorted). apply elem_of_app. left. exact Ht.
  - intros k t Hk Hw.
    assert (Hin : t ∈ sorted).
    { unfold sorted. rewrite order_createdAt_desc_perm.
      apply (matching_rows where_ w t). split; [exact Hw|]. exists k. exact Hk. }
    rewrite <- (take_drop limit sorted) in Hin. apply elem_of_app in Hin as [Hin|Hin].
    + left. apply list_elem_of_In, Hin.
    + right. split.
      * destruct (Nat.le_gt_cases limit (length sorted)) as [Hle|Hgt].
        { rewrite length_take. lia. }
        rewrite drop_ge in Hin by lia. inversion Hin.
      * intros r Hr. apply list_elem_of_In in Hr. apply (Hb r t Hr Hin).
Qed.

End History.

(** X23: The history of a wallet is made of rows of the transaction log that
    name the wallet as source or as destination, at most [limit] of them,
    newest first; and the rows it leaves out, which it does only when it is
    [limit] rows long, are no newer than any row it shows. *)
Theorem getTransactionHistory_newest_first (walletId : string) (limit : nat) (w : World) :
  exists history,
    getTransactionHistory walletId limit w = (inr history, w) /\
    (length history <= limit)%nat /\
    StronglySorted (fun a b => t_createdAt b <= t_createdAt a) history /\
    (forall t, In t history ->
       (t_fromWalletId t = walletId \/ t_toWalletId t = walletId) /\
       exists k, transaction_logs w !! k = Some t) /\
    (forall k t, transaction_logs w !! k = Some t ->
       t_fromWalletId t = walletId \/ t_toWalletId t = walletId ->
       In t history \/
       length history = limit /\
       forall shown, In shown history -> t_createdAt t <= t_createdAt shown).
Proof.
  destruct (findAll_spec (involves walletId) limit w) as (found & Hrun & Hlen & Hs & Hin & Hall).
  assert (Hinv : forall t, involves walletId t = true <->
                   t_fromWalletId t = walletId \/ t_toWalletId t = walletId).
  { intros t. unfold involves. rewrite orb_true_iff, !bool_decide_eq_true. reflexivity. }
  exists found. split; [exact Hrun|]. split; [exact Hlen|]. split; [exact Hs|]. split.
  - intros t Ht. destruct (Hin t Ht) as [Hw Hk]. split; [apply Hinv, Hw|exact Hk].
  - intros k t Hk Hw. apply (Hall k t Hk), Hinv, Hw.
Qed.

(** * Leap years *)
Section LeapYears.

Lemma rem_zero_divide a b : b <> 0 -> (Z.rem a b =? 0) = true <-> (b | a).
Proof. intros Hb. rewrite Z.eqb_eq. apply Z.rem_divide, Hb. Qed.

Lemma isLeapYear_rule year :
  isLeapYear year = true <-> (4 | year) /\ (~ (100 | year) \/ (400 | year)).
Proof.
  unfold isLeapYear.
  pose proof (rem_zero_divide year 400 ltac:(lia)) as H400.
  pose proof (rem_zero_divide year 100 ltac:(lia)) as H100.
  pose proof (rem_zero_divide year 4 ltac:(lia)) as H4.
  assert (D1 : (400 | year) -> (100 | year)).
  { intros [k ->]. exists (4 * k). lia. }
  assert (D2 : (100 | year) -> (4 | year)).
  { intros [k ->]. exists (25 * k). lia. }
  destruct (Z.rem year 400 =? 0), (Z.rem year 100 =? 0), (Z.rem year 4 =? 0);
    intuition (try discriminate; auto).
Qed.

Lemma isLeapYear_period year : isLeapYear (year + 400) = isLeapYear year.
Proof.
  assert (H : forall a b, isLeapYear a = true -> (400 | b - a) -> isLeapYear b = true).
  { intros a b Ha [k Hk]. apply isLeapYear_rule in Ha as (H4 & Hc). apply isLeapYear_rule.
    assert (Eb : b = a + k * 400) by lia. subst b.
    assert (D4 : (4 | k * 400)) by (exists (k * 100); lia).
    assert (D100 : (100 | k * 400)) by (exists (k * 4); lia).
    assert (D400 : (400 | k * 400)) by (exists k; lia).
    split; [apply Z.divide_add_r; assumption|].
    destruct Hc as [Hc|Hc]; [left|right; apply Z.divide_add_r; assumption].
    intros Hd. apply Hc.
    replace a with (a + k * 400 - k * 400) by lia. apply Z.divide_sub_r; assumption. }
  destruct (isLeapYear year) eqn:E1, (isLeapYear (year + 400)) eqn:E2; try reflexivity.
  - rewrite (H year (year + 400) E1) in E2; [discriminate|]. exists 1. lia.
  - rewrite (H (year + 400) year E2) in E1; [discriminate|]. exists (-1). lia.
Qed.

#[local] Abbreviation leap_from year s n :=
  (length (List.filter isLeapYear (map (fun i => year + Z.of_nat i) (seq s n)))).

Lemma leap_from_shift year n : forall s, leap_from (year + 1) s n = leap_from year (S s) n.
Proof.
  induction n as [|n IH]; intros s; cbn [seq map List.filter]; [reflexivity|].
  replace (year + 1 + Z.of_nat s) with (year + Z.of_nat (S s)) by lia.
  destruct (isLeapYear _); cbn [length]; rewrite IH; reflexivity.
Qed.

Lemma leap_years_head year n :
  leap_years year (S n)
    = ((if isLeapYear year then 1 else 0) + leap_years (year + 1) n)%nat.
Proof.
  unfold leap_years. rewrite leap_from_shift. cbn [seq map List.filter].
  replace (year + Z.of_nat 0) with year by lia.
  destruct (isLeapYear year); reflexivity.
Qed.

Lemma leap_years_last year n :
  leap_years year (S n)
    = (leap_years year n + (if isLeapYear (year + Z.of_nat n) then 1 else 0))%nat.
Proof.
  unfold leap_years. rewrite seq_S, map_app, List.filter_app, length_app.
  cbn [map List.filter Nat.add]. destruct (isLeapYear _); reflexivity.
Qed.

Lemma leap_years_slide year : leap_years (year + 1) 400 = leap_years year 400.
Proof.
  pose proof (leap_years_head year 400) as Hh.
  pose proof (leap_years_last year 400) as Hl.
  change (Z.of_nat 400) with 400 in Hl. rewrite isLeapYear_period in Hl. lia.
Qed.

Lemma leap_years_400 year : leap_years year 400 = 97%nat.
Proof.
  assert (Hup : forall n : nat, leap_years (Z.of_nat n) 400 = 97%nat).
  { induction n as [|n IH]; [vm_compute; reflexivity|].
    rewrite Nat2Z.inj_succ. unfold Z.succ. rewrite leap_years_slide. exact IH. }
  assert (Hdown : forall n : nat, leap_years (- Z.of_nat n) 400 = 97%nat).
  { induction n as [|n IH]; [vm_compute; reflexivity|].
    rewrite <- leap_years_slide.
    replace (- Z.of_nat (S n) + 1) with (- Z.of_nat n) by lia. exact IH. }
  destruct (Z.le_gt_cases 0 year).
  - rewrite <- (Z2Nat.id year) by lia. apply Hup.
  - replace year with (- Z.of_nat (Z.to_nat (- year))) by lia. apply Hdown.
Qed.

Lemma days_from year n : forall s,
  foldr (fun i acc => daysInYear (year + Z.of_nat i) + acc) 0 (seq s n)
    = 365 * Z.of_nat n + Z.of_nat (leap_from year s n).
Proof.
  induction n as [|n IH]; intros s; cbn [seq foldr map List.filter]; [reflexivity|].
  rewrite IH. unfold daysInYear. destruct (isLeapYear _); cbn [length]; lia.
Qed.

Lemma days_of_years_eq year n :
  days_of_years year n = 365 * Z.of_nat n + Z.of_nat (leap_years year n).
Proof. unfold days_of_years, leap_years. apply days_from. Qed.

End LeapYears.

(** X24: [isLeapYear] is the Gregorian rule -- a year is a leap year when it is
    divisible by 4 and not by 100, or divisible by 400 -- for every integer,
    negative years included; it repeats every 400 years, and any 400 years
    in a row have 97 leap years and 146097 days between them. *)
Theorem isLeapYear_gregorian (year : Z) :
  (isLeapYear year = true <-> (4 | year) /\ (~ (100 | year) \/ (400 | year))) /\
  isLeapYear (year + 400) = isLeapYear year /\
  leap_years year 400 = 97%nat /\
  days_of_years year 400 = 146097.
Proof.
  split; [apply isLeapYear_rule|]. split; [apply isLeapYear_period|].
  split; [apply leap_years_400|].
  rewrite days_of_years_eq, leap_years_400. vm_compute. reflexivity.
Qed.
